(** * replace-prisma.py: a shallow embedding and its properties

    The script [scripts/replace-prisma.py] rewrites TypeScript sources so
    that every [new PrismaClient()] is replaced by a shared singleton.
    This development embeds

    - Python text as lists of code points,
    - the fragment of [re] the script uses (a backtracking matcher and
      [re.sub] with its [count] argument),
    - [calculate_relative_path] over path components,
    - [replace_prisma_in_file] and [main] in a small state-and-exception
      monad over a file system with an event trace: files hold
      characters, reading and writing in text mode translate line ends,
      several paths can name one file, and a write can fail before or
      after it has emptied the file,

    and proves the properties the specification states about them. *)

From Stdlib Require Import List NArith String Ascii Bool Arith Lia.
Import ListNotations.
Open Scope list_scope.

(** ** Text *)

(** A Python [str] is a sequence of code points.  File contents are the
    text [f.read()] returns for a file opened in text mode. *)
Definition char := N.
Definition str := list char.

Definition lit (s : string) : str := map N_of_ascii (list_ascii_of_string s).

Definition NL : char := 10%N.

Fixpoint str_eqb (a b : str) : bool :=
  match a, b with
  | [], [] => true
  | x :: a', y :: b' => N.eqb x y && str_eqb a' b'
  | _, _ => false
  end.

(** [s.startswith(p)] *)
Fixpoint startswith (p s : str) : bool :=
  match p, s with
  | [], _ => true
  | x :: p', y :: s' => N.eqb x y && startswith p' s'
  | _ :: _, [] => false
  end.

(** [p in s] *)
Fixpoint contains (p s : str) : bool :=
  startswith p s ||
  match s with
  | [] => false
  | _ :: s' => contains p s'
  end.

(** [s.endswith(p)] *)
Definition endswith (p s : str) : bool := startswith (rev p) (rev s).

(** [s.replace(old, new)] for a one-character [old]. *)
Definition replace_char (old : char) (new : str) (s : str) : str :=
  flat_map (fun x => if N.eqb x old then new else [x]) s.

(** [sep.join(parts)] *)
Fixpoint join (sep : str) (parts : list str) : str :=
  match parts with
  | [] => []
  | [p] => p
  | p :: ps => p ++ sep ++ join sep ps
  end.

(** ** The fragment of [re] used by the script *)

(** [\s] on a [str] pattern: the characters for which [str.isspace] holds. *)
Definition is_space (c : char) : bool :=
  ((9 <=? c) && (c <=? 13) || (28 <=? c) && (c <=? 32)
   || (c =? 133) || (c =? 160) || (c =? 5760)
   || (8192 <=? c) && (c <=? 8202)
   || (c =? 8232) || (c =? 8233) || (c =? 8239) || (c =? 8287)
   || (c =? 12288))%N.

(** [.] without [re.DOTALL]: anything but a newline. *)
Definition not_newline (c : char) : bool := negb (N.eqb c NL).

(** Pattern items.  A pattern is the list of its items; the only group
    the script uses is the one around the whole pattern. *)
Inductive item : Type :=
| Bol                              (* ^ under re.MULTILINE *)
| Chr (c : char)                   (* a literal character *)
| Opt (c : char)                   (* c?  *)
| Star (cls : char -> bool)        (* X*  (greedy) *)
| StarLazy (cls : char -> bool).   (* X*? (lazy) *)

Definition lits (s : string) : list item := map Chr (lit s).

Definition consume (x : char) (r : option (str * str)) : option (str * str) :=
  match r with
  | Some (m, t) => Some (x :: m, t)
  | None => None
  end.

(** [rmatch p bol s]: the match of [p] anchored at the start of [s] that a
    backtracking matcher finds first, as (matched text, remaining text).
    [bol] tells whether the position is at the start of a line. *)
Fixpoint rmatch (p : list item) : bool -> str -> option (str * str) :=
  match p with
  | [] => fun _ s => Some ([], s)
  | Bol :: p' => fun bol s => if bol then rmatch p' bol s else None
  | Chr c :: p' => fun _ s =>
      match s with
      | x :: s' =>
          if N.eqb x c then consume x (rmatch p' (N.eqb x NL) s') else None
      | [] => None
      end
  | Opt c :: p' => fun bol s =>
      match s with
      | x :: s' =>
          if N.eqb x c then
            match rmatch p' (N.eqb x NL) s' with
            | Some (m, t) => Some (x :: m, t)
            | None => rmatch p' bol s
            end
          else rmatch p' bol s
      | [] => rmatch p' bol s
      end
  | Star cls :: p' =>
      fix star (bol : bool) (s : str) {struct s} : option (str * str) :=
        match s with
        | x :: s' =>
            if cls x then
              match star (N.eqb x NL) s' with
              | Some (m, t) => Some (x :: m, t)
              | None => rmatch p' bol s
              end
            else rmatch p' bol s
        | [] => rmatch p' bol s
        end
  | StarLazy cls :: p' =>
      fix star (bol : bool) (s : str) {struct s} : option (str * str) :=
        match rmatch p' bol s with
        | Some r => Some r
        | None =>
            match s with
            | x :: s' => if cls x then consume x (star (N.eqb x NL) s') else None
            | [] => None
            end
        end
  end.

(** Whether the position after the text [m] is at the start of a line,
    when the position before it was described by [bol]. *)
Definition bol_after (bol : bool) (m : str) : bool :=
  match rev m with
  | [] => bol
  | x :: _ => N.eqb x NL
  end.

Definition dec_left (left : option nat) : option nat :=
  match left with
  | Some n => Some (pred n)
  | None => None
  end.

(** The scan of [re.sub]: leftmost matches, left to right, not
    overlapping; [left] is the number of substitutions still allowed
    ([None]: no limit).  No pattern of the script matches the empty
    text; such a match would be replaced and the scan moved on by one
    character. *)
Fixpoint sub_loop (p : list item) (repl : str -> str) (fuel : nat)
         (left : option nat) (bol : bool) (s : str) : str :=
  match fuel with
  | O => s
  | S fuel' =>
      match left with
      | Some O => s
      | _ =>
          match rmatch p bol s with
          | Some (x :: m, t) =>
              repl (x :: m)
                ++ sub_loop p repl fuel' (dec_left left) (bol_after bol (x :: m)) t
          | Some ([], _) =>
              repl []
                ++ match s with
                   | [] => []
                   | x :: s' =>
                       x :: sub_loop p repl fuel' (dec_left left) (N.eqb x NL) s'
                   end
          | None =>
              match s with
              | [] => []
              | x :: s' => x :: sub_loop p repl fuel' left (N.eqb x NL) s'
              end
          end
      end
  end.

(** [re.sub(p, repl, s, count)]; [count = 0] replaces every match. *)
Definition re_sub (p : list item) (repl : str -> str) (s : str) (count : nat) : str :=
  sub_loop p repl (S (List.length s))
           (match count with O => None | S _ => Some count end) true s.

(** ** The transformation of a file's text

    The body of [replace_prisma_in_file] between reading the file and
    comparing the result with the original, one definition per step. *)

Definition SEMI : char := 59%N.

(** The replacement templates contain [rel_path]; they are taken
    literally, as [re] does for a path without a backslash. *)
Definition singleton_import (rel_path : str) : str :=
  lit "import { prisma } from '" ++ rel_path ++ lit "';".

(** r"(from '@prisma/client';)" *)
Definition re_prisma_import : list item := lits "from '@prisma/client';".

(** r"(import .*?;\n)" *)
Definition re_first_import : list item :=
  lits "import " ++ [StarLazy not_newline; Chr SEMI; Chr NL].

(** r'^\s*const prisma = new PrismaClient\(\);?\s*\n' *)
Definition re_decl : list item :=
  [Bol; Star is_space] ++ lits "const prisma = new PrismaClient()"
    ++ [Opt SEMI; Star is_space; Chr NL].

(** r'this\.prisma = new PrismaClient\(\)' *)
Definition re_field : list item := lits "this.prisma = new PrismaClient()".

(** r'this\.prisma = prisma \|\| new PrismaClient\(\)' *)
Definition re_fallback : list item :=
  lits "this.prisma = prisma || new PrismaClient()".

(** Lines 35-36: the file already imports the singleton. *)
Definition already_singleton (content : str) : bool :=
  contains (lit "from '../lib/prisma'") content
  || contains (lit "from '../../lib/prisma'") content
  || contains (lit "from '../../../lib/prisma'") content.

(** Lines 45-60. *)
Definition insert_import (rel_path content : str) : str :=
  if contains (lit "from '@prisma/client';") content then
    re_sub re_prisma_import
           (fun g1 => g1 ++ [NL] ++ singleton_import rel_path) content 1
  else if contains (lit "import {") content then
    re_sub re_first_import
           (fun g1 => g1 ++ singleton_import rel_path ++ [NL]) content 1
  else content.

(** Lines 62-68. *)
Definition remove_decl (content : str) : str :=
  re_sub re_decl (fun _ => []) content 0.

(** Lines 70-75. *)
Definition rewrite_field (content : str) : str :=
  re_sub re_field (fun _ => lit "this.prisma = prisma") content 0.

(** Lines 77-82. *)
Definition rewrite_fallback (content : str) : str :=
  re_sub re_fallback (fun _ => lit "this.prisma = prisma") content 0.

(** Lines 45-82 in sequence. *)
Definition transform (rel_path content : str) : str :=
  rewrite_fallback (rewrite_field (remove_decl (insert_import rel_path content))).

(** ** Paths and [calculate_relative_path] *)

(** A [pathlib.Path] relative to the working directory, as the list of
    its parts.  [os.path.relpath] normalises its arguments first; the
    model below does not, so it is the code's on paths whose parts are
    plain names ([plain]), which is what [Path.rglob] below a relative
    root yields.  The properties of [calculate_relative_path] carry that
    as a hypothesis. *)
Definition path := list str.

Definition DOT : char := 46%N.
Definition SLASH : char := 47%N.

(** A plain name: not empty, not [.] or [..], and without a slash. *)
Definition is_plain_name (s : str) : bool :=
  negb (str_eqb s []) && negb (str_eqb s [DOT]) && negb (str_eqb s [DOT; DOT])
  && negb (existsb (N.eqb SLASH) s).

Definition plain (p : path) : bool := forallb is_plain_name p.

(** [os.sep] on a POSIX system. *)
Definition os_sep : char := SLASH.

(** [str(p)] *)
Definition path_str (p : path) : str :=
  match p with
  | [] => [DOT]
  | _ => join [SLASH] p
  end.

(** [p.parent] *)
Definition parent (p : path) : path := removelast p.

(** [name.rfind('.')] *)
Fixpoint rfind (c : char) (s : str) : option nat :=
  match s with
  | [] => None
  | x :: s' =>
      match rfind c s' with
      | Some i => Some (S i)
      | None => if N.eqb x c then Some O else None
      end
  end.

(** The name without [PurePath.suffix]: the suffix starts at the last dot
    unless that dot is the first or the last character of the name. *)
Definition strip_suffix (name : str) : str :=
  match rfind DOT name with
  | Some i =>
      if (0 <? i) && (i <? List.length name - 1) then firstn i name else name
  | None => name
  end.

(** [p.with_suffix('')] for a path with a name. *)
Definition with_suffix_empty (p : path) : path :=
  match rev p with
  | [] => []
  | name :: dirs => rev dirs ++ [strip_suffix name]
  end.

(** [os.path.commonprefix] of two lists of parts. *)
Fixpoint commonprefix (a b : path) : path :=
  match a, b with
  | x :: a', y :: b' => if str_eqb x y then x :: commonprefix a' b' else []
  | _, _ => []
  end.

(** [posixpath.relpath(path, start)] for arguments made of plain names,
    for which [abspath] is the working directory [cwd] followed by the
    parts; [None] stands for its [ValueError]. *)
Definition relpath (cwd : path) (p start : path) : option str :=
  match path_str p with
  | [] => None
  | _ =>
      let start_list := cwd ++ start in
      let path_list := cwd ++ p in
      let i := List.length (commonprefix start_list path_list) in
      let rel_list :=
        repeat (lit "..") (List.length start_list - i) ++ skipn i path_list in
      match rel_list with
      | [] => Some [DOT]
      | _ => Some (join [os_sep] rel_list)
      end
  end.

(** The default of the parameter [to_file]. *)
Definition to_file : path :=
  [lit "apps"; lit "api-gateway"; lit "src"; lit "lib"; lit "prisma.ts"].

Definition calculate_relative_path (cwd : path) (from_file : path) : str :=
  let from_dir := parent from_file in
  let to_path := with_suffix_empty to_file in
  match relpath cwd to_path from_dir with
  | Some rel_path =>
      let import_path := replace_char os_sep [SLASH] rel_path in
      if negb (startswith [DOT] import_path)
      then lit "./" ++ import_path
      else import_path
  | None => lit "../lib/prisma"
  end.

(** ** The file system, output and exceptions *)

Inductive message : Type :=
| MProcessing (p : str)
| MAlreadySingleton
| MUpdated
| MNoChanges
| MRootNotFound
| MReadError (p : str)
| MFound (n : nat)
| MComplete (updated total : nat)
| MBackupNote.

Inductive event : Type :=
| EPrint (m : message)
| ERead (p : str)
| EWrite (p : str) (content : str)
| EWriteFailed (p : str) (written : str).

Inductive exn : Type :=
| SystemExit (code : nat)
| OSError.

Inductive result (A : Type) : Type :=
| Ok (a : A)
| Raise (e : exn).
Arguments Ok {A} a.
Arguments Raise {A} e.

Definition CR : char := 13%N.

(** What a file opened with [open(p, 'r')] gives to [read]: the
    characters of the file with every "\r\n" and every other "\r"
    turned into "\n" (the default [newline=None]). *)
Fixpoint universal_newlines (s : str) : str :=
  match s with
  | [] => []
  | x :: s' =>
      if N.eqb x CR then
        match s' with
        | y :: s'' =>
            if N.eqb y NL then NL :: universal_newlines s''
            else NL :: universal_newlines s'
        | [] => [NL]
        end
      else x :: universal_newlines s'
  end.

(** [os.linesep] on a POSIX system, and what [write] on a file opened
    with [open(p, 'w')] puts into the file: the text with every "\n"
    turned into [os.linesep]. *)
Definition os_linesep : str := [NL].

Definition newlines_out (text : str) : str := replace_char NL os_linesep text.

(** How opening a path for writing and writing to it can end: it works;
    [open] fails and nothing has happened; or [open] has emptied the file
    and the write fails when [written] characters have reached it. *)
Inductive write_outcome : Type :=
| WriteOk
| OpenFails
| WriteFails (written : nat).

(** What the run cannot change: the working directory, whether the root
    directory exists, the entries below it in the order [rglob] walks them
    (as paths relative to the root, made of plain names), the file each
    path names (two paths that are links to one file name the same file),
    and how writing to each path ends. *)
Record env : Type := {
  cwd : path;
  root_exists : bool;
  entries : list path;
  file_of : str -> str;
  write_result : str -> write_outcome
}.

(** What the run changes: the characters of each file, as they are in
    the file ([None]: opening or decoding it fails), and the events so
    far, oldest first. *)
Record state : Type := {
  fs : str -> option str;
  trace : list event
}.

Definition M (A : Type) : Type := state -> result A * state.

Definition ret {A} (a : A) : M A := fun st => (Ok a, st).

Definition bind {A B} (m : M A) (k : A -> M B) : M B :=
  fun st =>
    match m st with
    | (Ok a, st') => k a st'
    | (Raise e, st') => (Raise e, st')
    end.

Definition raise {A} (e : exn) : M A := fun st => (Raise e, st).

(** [try: m except Exception: h] : [SystemExit] is not an [Exception]. *)
Definition try_except {A} (m : M A) (h : M A) : M A :=
  fun st =>
    match m st with
    | (Raise OSError, st') => h st'
    | r => r
    end.

Notation "x <- m ;; k" := (bind m (fun x => k))
  (at level 61, m at next level, right associativity).
Notation "m ;;; k" := (bind m (fun _ => k))
  (at level 61, right associativity).

Definition emit (ev : event) : M unit :=
  fun st => (Ok tt, {| fs := fs st; trace := trace st ++ [ev] |}).

(** [print(...)]: the message is recorded.  Output that fails (a message
    the encoding of the output cannot express) is not part of the
    model: the properties below are about runs whose output succeeds. *)
Definition print (m : message) : M unit := emit (EPrint m).

(** [open(p, 'r', encoding='utf-8').read()] *)
Definition read_file (e : env) (p : str) : M str :=
  fun st =>
    match fs st (file_of e p) with
    | Some chars =>
        (Ok (universal_newlines chars),
         {| fs := fs st; trace := trace st ++ [ERead p] |})
    | None => (Raise OSError, st)
    end.

Definition update (f : str -> option str) (p : str) (c : str) : str -> option str :=
  fun q => if str_eqb q p then Some c else f q.

(** [open(p, 'w', encoding='utf-8').write(content)] *)
Definition write_file (e : env) (p : str) (content : str) : M unit :=
  fun st =>
    match write_result e p with
    | WriteOk =>
        (Ok tt, {| fs := update (fs st) (file_of e p) (newlines_out content);
                   trace := trace st ++ [EWrite p content] |})
    | OpenFails => (Raise OSError, st)
    | WriteFails n =>
        (Raise OSError,
         {| fs := update (fs st) (file_of e p) (firstn n (newlines_out content));
            trace := trace st
                       ++ [EWriteFailed p (firstn n (newlines_out content))] |})
    end.

(** ** [replace_prisma_in_file] and [main] *)

Definition replace_prisma_in_file (e : env) (filepath : path) : M bool :=
  print (MProcessing (path_str filepath)) ;;;
  content <- read_file e (path_str filepath) ;;
  if already_singleton content then
    print MAlreadySingleton ;;; ret false
  else
    let original_content := content in
    let rel_path := calculate_relative_path (cwd e) filepath in
    let content := transform rel_path content in
    if negb (str_eqb content original_content) then
      write_file e (path_str filepath ++ lit ".bak") original_content ;;;
      write_file e (path_str filepath) content ;;;
      print MUpdated ;;; ret true
    else
      print MNoChanges ;;; ret false.

Definition root : path := [lit "apps"; lit "api-gateway"; lit "src"].

(** [root.rglob('*.ts')]: the entries whose name matches [*.ts]. *)
Definition rglob_ts (e : env) : list path :=
  map (fun rel => root ++ rel)
      (filter (fun rel => endswith (lit ".ts") (last rel [])) (entries e)).

Definition markers : list str :=
  [lit "test"; lit "mock"; lit "__fixtures__"; lit ".spec."; lit ".test."].

(** [any(x in str(ts_file) for x in markers)] *)
Definition excluded (ts_file : path) : bool :=
  existsb (fun x => contains x (path_str ts_file)) markers.

(** The body of the discovery loop (lines 110-119). *)
Definition discover_step (e : env) (files_to_process : list path)
           (ts_file : path) : M (list path) :=
  if excluded ts_file then ret files_to_process
  else
    try_except
      (content <- read_file e (path_str ts_file) ;;
       if contains (lit "new PrismaClient()") content
       then ret (files_to_process ++ [ts_file])
       else ret files_to_process)
      (print (MReadError (path_str ts_file)) ;;; ret files_to_process).

Fixpoint discover (e : env) (todo : list path) (files_to_process : list path)
  : M (list path) :=
  match todo with
  | [] => ret files_to_process
  | ts_file :: todo' =>
      acc <- discover_step e files_to_process ts_file ;;
      discover e todo' acc
  end.

(** The processing loop (lines 123-126). *)
Fixpoint process (e : env) (files : list path) (updated_count : nat) : M nat :=
  match files with
  | [] => ret updated_count
  | filepath :: files' =>
      b <- replace_prisma_in_file e filepath ;;
      process e files' (if b then S updated_count else updated_count)
  end.

Definition main (e : env) : M unit :=
  if negb (root_exists e) then
    print MRootNotFound ;;; raise (SystemExit 1)
  else
    files_to_process <- discover e (rglob_ts e) [] ;;
    print (MFound (List.length files_to_process)) ;;;
    updated_count <- process e files_to_process 0 ;;
    print (MComplete updated_count (List.length files_to_process)) ;;;
    print MBackupNote.

(** ** Specification-side notions *)

(** The leftmost position at which [p] matches, as (text before, matched
    text, text after). *)
Fixpoint find_first (p : list item) (bol : bool) (s : str)
  : option (str * str * str) :=
  match rmatch p bol s with
  | Some (m, t) => Some ([], m, t)
  | None =>
      match s with
      | [] => None
      | x :: s' =>
          match find_first p (N.eqb x NL) s' with
          | Some (pre, m, t) => Some (x :: pre, m, t)
          | None => None
          end
      end
  end.

(** [re.sub] from a position inside the text. *)
Definition sub_from (p : list item) (repl : str -> str)
           (left : option nat) (bol : bool) (s : str) : str :=
  sub_loop p repl (S (List.length s)) left bol s.

(** No nonempty suffix of [s] is a prefix of a text starting with [x]. *)
Fixpoint suffixes_clear (s x : str) : bool :=
  match s with
  | [] => true
  | _ :: s' =>
      negb (startswith s x) && negb (startswith x s) && suffixes_clear s' x
  end.

(** No occurrence of [a] can start before [x] and end inside or after it. *)
Definition no_straddle (a x : str) : bool := suffixes_clear (tl a) x.

(** No occurrence of [a] can start inside [x]. *)
Definition clear_of (a x : str) : bool := suffixes_clear x a.

(** [re.sub(re.escape(a), b, s)]: a literal replaced by a constant. *)
Definition lsub (a b : str) (s : str) : str :=
  re_sub (map Chr a) (fun _ => b) s 0.

(** The texts of the two assignment rules (lines 70-82). *)
Definition FIELD : str := lit "this.prisma = new PrismaClient()".
Definition FALLBACK : str := lit "this.prisma = prisma || new PrismaClient()".
Definition PRISMA : str := lit "this.prisma = prisma".
Definition OR_NEW : str := lit " || new PrismaClient()".

(** Lines 70-82: the two assignment rules in sequence. *)
Definition rewrite_assignments (content : str) : str :=
  rewrite_fallback (rewrite_field content).

(** The texts the import step looks for (lines 46 and 53). *)
Definition PRISMA_IMPORT : str := lit "from '@prisma/client';".
Definition IMPORT_BRACE : str := lit "import {".

(** What r"(import .*?;\n)" matches: [import ], the rest of the line, and
    the semicolon that ends the line. *)
Definition import_line (m : str) : Prop :=
  exists body, m = lit "import " ++ body ++ [SEMI; NL] /\ ~ In NL body.

(** The text of the declaration rule (line 64). *)
Definition DECL : str := lit "const prisma = new PrismaClient()".

(** [s.split('\n')]: the lines that end in a newline, and what follows
    the last newline. *)
Fixpoint split_lines (s : str) : list str * str :=
  match s with
  | [] => ([], [])
  | x :: s' =>
      let (ls, r) := split_lines s' in
      if N.eqb x NL then ([] :: ls, r)
      else
        match ls with
        | [] => ([], x :: r)
        | l :: ls' => ((x :: l) :: ls', r)
        end
  end.

Definition tlines (s : str) : list str := fst (split_lines s).
Definition rest_line (s : str) : str := snd (split_lines s).

(** The inverse: every line with its newline, then the rest. *)
Fixpoint unlines (ls : list str) (r : str) : str :=
  match ls with
  | [] => r
  | l :: ls' => l ++ NL :: unlines ls' r
  end.

(** [s.lstrip()] and [s.strip()] *)
Fixpoint lstrip (s : str) : str :=
  match s with
  | [] => []
  | x :: s' => if is_space x then lstrip s' else s
  end.

Definition strip (s : str) : str := rev (lstrip (rev (lstrip s))).

(** A line that, up to leading and trailing whitespace, is the
    declaration with or without a semicolon. *)
Definition is_decl_line (l : str) : bool :=
  str_eqb (strip l) DECL || str_eqb (strip l) (DECL ++ [SEMI]).

Definition is_blank (l : str) : bool := forallb is_space l.

(** [dropped_only d ls ls']: [ls'] is [ls] without some of its elements,
    all of which satisfy [d]. *)
Inductive dropped_only (d : str -> bool) : list str -> list str -> Prop :=
| dropped_nil : dropped_only d [] []
| dropped_keep l ls ls' :
    dropped_only d ls ls' -> dropped_only d (l :: ls) (l :: ls')
| dropped_drop l ls ls' :
    d l = true -> dropped_only d ls ls' -> dropped_only d (l :: ls) ls'.

(** [to_file] without its suffix, and the relative path from a directory
    to it, written without the working directory. *)
Definition TARGET : path :=
  [lit "apps"; lit "api-gateway"; lit "src"; lit "lib"; lit "prisma"].

Definition rel_parts (from_dir : path) : list str :=
  let i := List.length (commonprefix from_dir TARGET) in
  repeat (lit "..") (List.length from_dir - i) ++ skipn i TARGET.

Definition add_dot (import_path : str) : str :=
  if startswith [DOT] import_path then import_path else lit "./" ++ import_path.

(** The construction pattern (line 116) and the backup suffix (line 86). *)
Definition PATTERN : str := lit "new PrismaClient()".
Definition BAK : str := lit ".bak".

(** What discovery keeps of the files [rglob] yields, given the file
    system it reads. *)
Definition is_candidate (e : env) (files : str -> option str) (ts_file : path)
  : bool :=
  negb (excluded ts_file)
  && match files (file_of e (path_str ts_file)) with
     | Some chars => contains PATTERN (universal_newlines chars)
     | None => false
     end.

Definition candidates (e : env) (st : state) : list path :=
  filter (is_candidate e (fs st)) (rglob_ts e).

(** The events a run over the files [files] may add to the trace: writes
    go to one of the files or to its backup, and the message about the
    missing root is not printed. *)
Definition event_ok (files : list path) (ev : event) : Prop :=
  match ev with
  | EWrite q _ | EWriteFailed q _ =>
      exists f, In f files /\ (q = path_str f \/ q = path_str f ++ BAK)
  | EPrint m => m <> MRootNotFound
  | ERead _ => True
  end.

(** The number of positions at which [p] occurs in [s]. *)
Fixpoint count_occ (p s : str) : nat :=
  (if startswith p s then 1 else 0)
  + match s with
    | [] => 0
    | _ :: s' => count_occ p s'
    end.

(** What discovery adds to the trace for the files [todo]: a read for a
    file it can read, the message of line 119 for one it cannot, nothing
    for an excluded file. *)
Definition discover_events (e : env) (files : str -> option str)
           (todo : list path) : list event :=
  flat_map
    (fun ts_file =>
       if excluded ts_file then []
       else
         match files (file_of e (path_str ts_file)) with
         | Some _ => [ERead (path_str ts_file)]
         | None => [EPrint (MReadError (path_str ts_file))]
         end)
    todo.

(** The writes that were completed. *)
Definition is_write (ev : event) : bool :=
  match ev with
  | EWrite _ _ => true
  | _ => false
  end.

Definition count_writes (evs : list event) : nat :=
  List.length (filter is_write evs).

(** The events of [replace_prisma_in_file]. *)
Definition is_file_event (ev : event) : bool :=
  match ev with
  | EPrint (MProcessing _) | EPrint MAlreadySingleton
  | EPrint MUpdated | EPrint MNoChanges => true
  | ERead _ | EWrite _ _ | EWriteFailed _ _ => true
  | EPrint _ => false
  end.

(** The import paths the skip test of line 36 knows, and the text it
    looks for, for an import path. *)
Definition KNOWN_DEPTHS : list str :=
  [lit "../lib/prisma"; lit "../../lib/prisma"; lit "../../../lib/prisma"].

Definition quoted_from (rel_path : str) : str :=
  lit "from '" ++ rel_path ++ lit "'".

(** The text [replace_prisma_in_file] leaves in a file from which it has
    read the text [content], when its writes succeed, and whether that is
    an update. *)
Definition final_text (e : env) (filepath : path) (content : str) : str :=
  if already_singleton content then content
  else transform (calculate_relative_path (cwd e) filepath) content.

Definition will_update (e : env) (files : str -> option str) (filepath : path)
  : bool :=
  match files (file_of e (path_str filepath)) with
  | Some chars =>
      negb (str_eqb (final_text e filepath (universal_newlines chars))
                    (universal_newlines chars))
  | None => false
  end.

(** The names and the backup names of the files [files]. *)
Definition names_and_backups (files : list path) : list str :=
  flat_map (fun f => [path_str f; path_str f ++ BAK]) files.

(** The message that announces a file (line 30), and how many files the
    events announce. *)
Definition is_processing (ev : event) : bool :=
  match ev with
  | EPrint (MProcessing _) => true
  | _ => false
  end.

Definition count_processing (evs : list event) : nat :=
  List.length (filter is_processing evs).

(** * Properties *)

(** ** Text *)

Lemma str_eqb_eq (a b : str) : str_eqb a b = true <-> a = b.
Proof.
  revert b; induction a as [|x a IH]; intros [|y b]; simpl; split; intro H;
    try reflexivity; try discriminate.
  - apply andb_true_iff in H as [Hx Hab].
    apply N.eqb_eq in Hx. apply IH in Hab. congruence.
  - injection H as -> ->. rewrite N.eqb_refl. apply IH. reflexivity.
Qed.

Lemma str_eqb_refl (a : str) : str_eqb a a = true.
Proof. apply str_eqb_eq. reflexivity. Qed.

Lemma str_eqb_neq (a b : str) : str_eqb a b = false <-> a <> b.
Proof.
  split.
  - intros H E. apply str_eqb_eq in E. congruence.
  - intro H. destruct (str_eqb a b) eqn:E; [|reflexivity].
    apply str_eqb_eq in E. contradiction.
Qed.

Lemma startswith_app (p t : str) : startswith p (p ++ t) = true.
Proof. induction p as [|x p IH]; simpl; [reflexivity|]. now rewrite N.eqb_refl. Qed.

Lemma startswith_inv (p s : str) :
  startswith p s = true -> exists t, s = p ++ t.
Proof.
  revert s; induction p as [|x p IH]; intros s H; simpl in *.
  - now exists s.
  - destruct s as [|y s]; [discriminate|].
    apply andb_true_iff in H as [Hx Hp]. apply N.eqb_eq in Hx. subst y.
    destruct (IH _ Hp) as [t ->]. now exists t.
Qed.

Lemma startswith_iff (p s : str) :
  startswith p s = true <-> exists t, s = p ++ t.
Proof.
  split; [apply startswith_inv|]. intros [t ->]. apply startswith_app.
Qed.

Lemma contains_intro (p a b : str) : contains p (a ++ p ++ b) = true.
Proof.
  induction a as [|x a IH]; simpl.
  - destruct (p ++ b) eqn:E; simpl; rewrite <- E, startswith_app; reflexivity.
  - rewrite IH. apply orb_true_r.
Qed.

Lemma contains_inv (p s : str) :
  contains p s = true -> exists a b, s = a ++ p ++ b.
Proof.
  induction s as [|x s IH]; simpl; intro H.
  - rewrite orb_false_r in H. apply startswith_inv in H as [t Ht].
    exists [], t. exact Ht.
  - apply orb_true_iff in H as [H|H].
    + apply startswith_inv in H as [t Ht]. exists [], t. exact Ht.
    + destruct (IH H) as (a & b & ->). now exists (x :: a), b.
Qed.

Lemma contains_iff (p s : str) :
  contains p s = true <-> exists a b, s = a ++ p ++ b.
Proof.
  split; [apply contains_inv|]. intros (a & b & ->). apply contains_intro.
Qed.

Lemma contains_false_tail (p : str) (x : char) (s : str) :
  contains p (x :: s) = false ->
  startswith p (x :: s) = false /\ contains p s = false.
Proof. simpl. intro H. apply orb_false_iff in H. exact H. Qed.

Lemma contains_false_startswith (p s : str) :
  contains p s = false -> startswith p s = false.
Proof.
  destruct s; simpl; intro H; apply orb_false_iff in H; tauto.
Qed.

(** ** The matcher *)

Lemma consume_some x r m t :
  consume x r = Some (m, t) ->
  exists m', m = x :: m' /\ r = Some (m', t).
Proof.
  destruct r as [[m' t']|]; simpl; intro H; [|discriminate].
  injection H as <- <-. now exists m'.
Qed.

(** What is matched is a prefix of the text. *)
Lemma rmatch_sound (p : list item) :
  forall bol s m t, rmatch p bol s = Some (m, t) -> s = m ++ t.
Proof.
  induction p as [|it p IH]; intros bol s m t H.
  - simpl in H. now injection H as <- <-.
  - destruct it as [|c|c|cls|cls]; simpl in H.
    + destruct bol; [eauto|discriminate].
    + destruct s as [|x s]; [discriminate|].
      destruct (N.eqb x c); [|discriminate].
      apply consume_some in H as (m' & -> & H). simpl. f_equal. eauto.
    + destruct s as [|x s]; [eauto|].
      destruct (N.eqb x c); [|eauto].
      destruct (rmatch p (N.eqb x NL) s) as [[m' t']|] eqn:E; [|eauto].
      injection H as <- <-. simpl. f_equal. eauto.
    + revert bol m t H. induction s as [|x s IHs]; intros bol m t H; [eauto|].
      destruct (cls x); [|eauto].
      match type of H with
      | match ?r with _ => _ end = _ => destruct r as [[m' t']|] eqn:E
      end; [|eauto].
      injection H as <- <-. simpl. f_equal. eapply IHs. exact E.
    + revert bol m t H. induction s as [|x s IHs]; intros bol m t H.
      * destruct (rmatch p bol []) as [[m' t']|] eqn:E; [|discriminate].
        injection H as <- <-. eauto.
      * destruct (rmatch p bol (x :: s)) as [[m' t']|] eqn:E.
        -- injection H as <- <-. eauto.
        -- destruct (cls x); [|discriminate].
           apply consume_some in H as (m' & -> & H). simpl. f_equal.
           eapply IHs. exact H.
Qed.

(** For a run of literal characters the matcher is a prefix test. *)
Lemma rmatch_chrs_app (l : str) (p : list item) (bol : bool) (t : str) :
  rmatch (map Chr l ++ p) bol (l ++ t)
  = match rmatch p (bol_after bol l) t with
    | Some (m, t') => Some (l ++ m, t')
    | None => None
    end.
Proof.
  revert bol; induction l as [|x l IH]; intro bol.
  - simpl. unfold bol_after. simpl. now destruct (rmatch p bol t) as [[? ?]|].
  - cbn [map app rmatch]. rewrite N.eqb_refl, IH.
    replace (bol_after (N.eqb x NL) l) with (bol_after bol (x :: l)).
    + now destruct (rmatch p _ t) as [[? ?]|].
    + unfold bol_after. simpl. destruct (rev l) eqn:E; simpl; reflexivity.
Qed.

Lemma rmatch_chrs_fail (l : str) (p : list item) (bol : bool) (s : str) :
  startswith l s = false -> rmatch (map Chr l ++ p) bol s = None.
Proof.
  revert bol s; induction l as [|x l IH]; intros bol s H; [discriminate|].
  destruct s as [|y s]; [reflexivity|]. cbn [map app rmatch].
  simpl in H. rewrite N.eqb_sym in H. destruct (N.eqb y x); [|reflexivity].
  simpl in H. now rewrite IH.
Qed.

Lemma rmatch_literal (l : str) (bol : bool) (s : str) :
  rmatch (map Chr l) bol s
  = if startswith l s then Some (l, skipn (List.length l) s) else None.
Proof.
  destruct (startswith l s) eqn:E.
  - apply startswith_inv in E as [t ->].
    rewrite <- (app_nil_r (map Chr l)), rmatch_chrs_app. simpl.
    rewrite app_nil_r. f_equal. f_equal.
    now rewrite skipn_app, skipn_all, Nat.sub_diag.
  - rewrite <- (app_nil_r (map Chr l)). now apply rmatch_chrs_fail.
Qed.

(** ** [re.sub] *)

(** Any fuel above the length of the text gives the same result. *)
Lemma sub_loop_fuel (p : list item) (repl : str -> str) :
  forall f1 f2 left bol s,
    List.length s < f1 -> List.length s < f2 ->
    sub_loop p repl f1 left bol s = sub_loop p repl f2 left bol s.
Proof.
  induction f1 as [|f1 IH]; intros f2 left bol s H1 H2; [lia|].
  destruct f2 as [|f2]; [lia|]. simpl.
  destruct left as [[|n]|]; [reflexivity| |].
  all: destruct (rmatch p bol s) as [[[|x m] t]|] eqn:E.
  all: try (apply rmatch_sound in E; subst s; f_equal; apply IH;
            simpl in *; rewrite length_app in *; lia).
  all: destruct s as [|y s]; [reflexivity|]; simpl in *.
  all: try apply (f_equal (app (repl []))).
  all: f_equal; apply IH; lia.
Qed.

Lemma re_sub_all (p : list item) (repl : str -> str) (s : str) :
  re_sub p repl s 0 = sub_from p repl None true s.
Proof. reflexivity. Qed.

(** The step of an unlimited substitution whose matches are not empty. *)
Lemma sub_from_all_eq (p : list item) (repl : str -> str) (bol : bool) (s : str) :
  (forall t, rmatch p bol s <> Some ([], t)) ->
  sub_from p repl None bol s
  = match rmatch p bol s with
    | Some (m, t) => repl m ++ sub_from p repl None (bol_after bol m) t
    | None =>
        match s with
        | [] => []
        | x :: s' => x :: sub_from p repl None (N.eqb x NL) s'
        end
    end.
Proof.
  intro Hne. unfold sub_from at 1. cbn [sub_loop].
  destruct (rmatch p bol s) as [[[|x m] t]|] eqn:E.
  - now destruct (Hne t).
  - cbn [dec_left]. f_equal. apply rmatch_sound in E. subst s.
    unfold sub_from. apply sub_loop_fuel; simpl; rewrite ?length_app; lia.
  - destruct s as [|y s]; reflexivity.
Qed.

Lemma sub_loop_S (p : list item) (repl : str -> str) f left bol s :
  sub_loop p repl (S f) left bol s
  = match left with
    | Some O => s
    | _ =>
        match rmatch p bol s with
        | Some (x :: m, t) =>
            repl (x :: m)
              ++ sub_loop p repl f (dec_left left) (bol_after bol (x :: m)) t
        | Some ([], _) =>
            repl []
              ++ match s with
                 | [] => []
                 | x :: s' => x :: sub_loop p repl f (dec_left left) (N.eqb x NL) s'
                 end
        | None =>
            match s with
            | [] => []
            | x :: s' => x :: sub_loop p repl f left (N.eqb x NL) s'
            end
        end
    end.
Proof. reflexivity. Qed.

(** With [count=1] the first match is replaced and nothing else. *)
Lemma sub_loop_once (p : list item) (repl : str -> str) :
  forall n bol s,
    List.length s <= n ->
    sub_loop p repl (S n) (Some 1) bol s
    = match find_first p bol s with
      | Some (pre, m, t) => pre ++ repl m ++ t
      | None => s
      end.
Proof.
  induction n as [|n IH]; intros bol s Hn.
  - destruct s; [|simpl in Hn; lia]. simpl.
    destruct (rmatch p bol []) as [[[|x m] t]|] eqn:E; simpl.
    + apply rmatch_sound in E. simpl in E. now subst t.
    + apply rmatch_sound in E. discriminate.
    + reflexivity.
  - rewrite sub_loop_S. destruct s as [|y s]; cbn [find_first dec_left pred].
    + destruct (rmatch p bol []) as [[[|x m] t]|] eqn:E; simpl.
      * apply rmatch_sound in E. simpl in E. now subst t.
      * reflexivity.
      * reflexivity.
    + destruct (rmatch p bol (y :: s)) as [[[|x m] t]|] eqn:E.
      * apply rmatch_sound in E. simpl in E. subst t. reflexivity.
      * reflexivity.
      * rewrite IH by (simpl in Hn; lia).
        now destruct (find_first p (N.eqb y NL) s) as [[[pre m] t]|].
Qed.

Lemma re_sub_once (p : list item) (repl : str -> str) (s : str) :
  re_sub p repl s 1
  = match find_first p true s with
    | Some (pre, m, t) => pre ++ repl m ++ t
    | None => s
    end.
Proof. unfold re_sub. apply sub_loop_once. lia. Qed.

(** [find_first] finds a match, and no position before it matches. *)
Lemma find_first_some (p : list item) :
  forall s bol pre m t,
    find_first p bol s = Some (pre, m, t) ->
    s = pre ++ m ++ t
    /\ rmatch p (bol_after bol pre) (m ++ t) = Some (m, t)
    /\ forall pre1 pre2,
        pre = pre1 ++ pre2 -> pre2 <> [] ->
        rmatch p (bol_after bol pre1) (pre2 ++ m ++ t) = None.
Proof.
  induction s as [|x s IH]; intros bol pre m t H; simpl in H.
  - destruct (rmatch p bol []) as [[m' t']|] eqn:E; [|discriminate].
    injection H as <- <- <-. pose proof (rmatch_sound _ _ _ _ _ E) as Hs.
    split; [exact Hs|]. split; [rewrite <- Hs; exact E|].
    intros pre1 pre2 Hp Hne. destruct pre1, pre2; simpl in Hp; congruence.
  - destruct (rmatch p bol (x :: s)) as [[m' t']|] eqn:E.
    + injection H as <- <- <-. pose proof (rmatch_sound _ _ _ _ _ E) as Hs.
      split; [exact Hs|]. split; [rewrite <- Hs; exact E|].
      intros pre1 pre2 Hp Hne. destruct pre1, pre2; simpl in Hp; congruence.
    + destruct (find_first p (N.eqb x NL) s) as [[[pre' m'] t']|] eqn:F;
        [|discriminate].
      injection H as <- <- <-.
      destruct (IH _ _ _ _ F) as (Hs & Hm & Hbefore).
      assert (Hb : forall q, bol_after bol (x :: q) = bol_after (N.eqb x NL) q).
      { intro q. unfold bol_after. simpl. destruct (rev q); reflexivity. }
      repeat split.
      * simpl. now f_equal.
      * now rewrite Hb.
      * intros pre1 pre2 Hp Hne. destruct pre1 as [|y pre1].
        -- simpl in Hp. subst pre2. unfold bol_after. simpl.
           simpl in E. now rewrite <- Hs.
        -- simpl in Hp. injection Hp as <- Hp. rewrite Hb. now apply Hbefore.
Qed.

Lemma find_first_none (p : list item) :
  forall s bol,
    find_first p bol s = None ->
    forall pre rest, s = pre ++ rest -> rmatch p (bol_after bol pre) rest = None.
Proof.
  induction s as [|x s IH]; intros bol H pre rest Hs; simpl in H.
  - destruct pre, rest; try discriminate.
    unfold bol_after; simpl.
    destruct (rmatch p bol []) as [[? ?]|]; [discriminate|reflexivity].
  - destruct (rmatch p bol (x :: s)) as [[m' t']|] eqn:E; [discriminate|].
    destruct (find_first p (N.eqb x NL) s) as [[[pre' m'] t']|] eqn:F;
      [discriminate|].
    destruct pre as [|y pre]; simpl in Hs.
    + now subst rest.
    + injection Hs as <- Hs.
      replace (bol_after bol (x :: pre)) with (bol_after (N.eqb x NL) pre)
        by (unfold bol_after; simpl; destruct (rev pre); reflexivity).
      now apply (IH _ F).
Qed.

(** ** Substitution of a literal by a constant *)

Lemma startswith_app_cases (a u v : str) :
  startswith a (u ++ v) = true ->
  startswith a u = true
  \/ exists a2, a2 <> [] /\ a = u ++ a2 /\ startswith a2 v = true.
Proof.
  revert u; induction a as [|x a IH]; intros u H; [now left|].
  destruct u as [|y u].
  - right. exists (x :: a). repeat split; [discriminate|exact H].
  - simpl in H. apply andb_true_iff in H as [Hx H].
    apply N.eqb_eq in Hx. subst y. simpl. rewrite N.eqb_refl. simpl.
    destruct (IH _ H) as [Hu|(a2 & Hne & -> & Ha2)]; [now left|].
    right. now exists a2.
Qed.

Lemma startswith_app_either (a u v : str) :
  startswith a (u ++ v) = true ->
  startswith a u = true \/ startswith u a = true.
Proof.
  intro H. destruct (startswith_app_cases _ _ _ H) as [Hu|(a2 & _ & -> & _)].
  - now left.
  - right. apply startswith_app.
Qed.

Lemma startswith_app_l (a u v : str) :
  startswith a u = true -> startswith a (u ++ v) = true.
Proof.
  intro H. apply startswith_inv in H as [t ->]. rewrite <- app_assoc.
  apply startswith_app.
Qed.

Lemma suffixes_clear_spec (s x : str) :
  suffixes_clear s x = true ->
  forall u a2 v, s = u ++ a2 -> a2 <> [] -> startswith a2 (x ++ v) = false.
Proof.
  induction s as [|c s IH]; intros H u a2 v Hs Hne.
  - destruct u, a2; simpl in Hs; congruence.
  - cbn [suffixes_clear] in H. apply andb_true_iff in H as [H Hrest].
    apply andb_true_iff in H as [H1 H2].
    apply negb_true_iff in H1, H2.
    destruct u as [|d u]; simpl in Hs.
    + subst a2. destruct (startswith (c :: s) (x ++ v)) eqn:E; [|reflexivity].
      apply startswith_app_either in E as [E|E]; congruence.
    + injection Hs as <- Hs. now apply (IH Hrest u).
Qed.

Section Literal.
Variables (a b : str).
Hypothesis a_nonempty : a <> [].

Local Abbreviation lsub := (lsub a b).

Lemma literal_length : 0 < List.length a.
Proof. destruct a; [contradiction|simpl; lia]. Qed.

Lemma literal_not_empty bol s t : rmatch (map Chr a) bol s <> Some ([], t).
Proof.
  rewrite rmatch_literal. destruct (startswith a s); [|discriminate].
  intro H. injection H as H _. contradiction.
Qed.

Lemma lsub_from_bol :
  forall n s bol,
    List.length s <= n ->
    sub_from (map Chr a) (fun _ => b) None bol s = lsub s.
Proof.
  unfold lsub. setoid_rewrite re_sub_all.
  induction n as [|n IH]; intros s bol Hn.
  - destruct s; [|simpl in Hn; lia].
    rewrite !sub_from_all_eq by apply literal_not_empty.
    rewrite !rmatch_literal. destruct a; [contradiction|reflexivity].
  - rewrite !sub_from_all_eq by apply literal_not_empty.
    rewrite !rmatch_literal. destruct (startswith a s) eqn:E.
    + apply startswith_inv in E as [t ->].
      rewrite skipn_app, skipn_all, Nat.sub_diag. simpl.
      rewrite length_app in Hn. pose proof literal_length.
      f_equal. etransitivity; [apply IH|symmetry; apply IH]; lia.
    + destruct s as [|x s]; [reflexivity|]. simpl in Hn. f_equal.
Qed.

Lemma lsub_nil : lsub [] = [].
Proof.
  unfold lsub. rewrite re_sub_all, sub_from_all_eq by apply literal_not_empty.
  rewrite rmatch_literal. destruct a; [contradiction|reflexivity].
Qed.

Lemma lsub_match (t : str) : lsub (a ++ t) = b ++ lsub t.
Proof.
  unfold lsub at 1.
  rewrite re_sub_all, sub_from_all_eq by apply literal_not_empty.
  rewrite rmatch_literal, startswith_app.
  rewrite skipn_app, skipn_all, Nat.sub_diag. simpl. f_equal.
  now apply (lsub_from_bol (List.length t)).
Qed.

Lemma lsub_skip (x : char) (s : str) :
  startswith a (x :: s) = false -> lsub (x :: s) = x :: lsub s.
Proof.
  intro H. unfold lsub at 1.
  rewrite re_sub_all, sub_from_all_eq by apply literal_not_empty.
  rewrite rmatch_literal, H. f_equal.
  now apply (lsub_from_bol (List.length s)).
Qed.

(** A text without the literal is left as it is. *)
Lemma lsub_absent (s : str) : contains a s = false -> lsub s = s.
Proof.
  induction s as [|x s IH]; intro H; [apply lsub_nil|].
  apply contains_false_tail in H as [H1 H2].
  rewrite lsub_skip by exact H1. now rewrite IH.
Qed.

(** The scan passes over a text in which no occurrence can start. *)
Lemma lsub_through (x post : str) :
  clear_of a x = true -> lsub (x ++ post) = x ++ lsub post.
Proof.
  unfold clear_of. induction x as [|c x IH]; intro H; [reflexivity|].
  simpl app. rewrite lsub_skip.
  - f_equal. apply IH. cbn [suffixes_clear] in H.
    now apply andb_true_iff in H as [_ H].
  - cbn [suffixes_clear] in H. apply andb_true_iff in H as [H _].
    apply andb_true_iff in H as [H1 H2]. apply negb_true_iff in H1, H2.
    destruct (startswith a ((c :: x) ++ post)) eqn:E; [|exact E].
    apply startswith_app_either in E as [E|E]; congruence.
Qed.

(** The same when only the first position of [x] needs a look at what
    follows. *)
Lemma lsub_through_tail (x post : str) :
  startswith a (x ++ post) = false -> clear_of a (tl x) = true ->
  lsub (x ++ post) = x ++ lsub post.
Proof.
  destruct x as [|c x]; intros H1 H2; [reflexivity|].
  cbn [app tl] in *. rewrite lsub_skip by exact H1.
  f_equal. now apply lsub_through.
Qed.

(** The scan of the text before [x] does not depend on what follows. *)
Lemma lsub_boundary (x : str) :
  no_straddle a x = true ->
  forall pre post, lsub (pre ++ x ++ post) = lsub pre ++ lsub (x ++ post).
Proof.
  intros Hx pre. remember (List.length pre) as n eqn:Hn.
  revert pre Hn. induction n as [n IH] using lt_wf_ind. intros pre Hn post.
  destruct pre as [|c pre]; [now rewrite lsub_nil|].
  destruct (startswith a ((c :: pre) ++ x ++ post)) eqn:E.
  - apply startswith_app_cases in E as [E|(a2 & Hne & Ha & E)].
    + apply startswith_inv in E as [t Ht]. rewrite Ht, <- app_assoc.
      rewrite !lsub_match, <- app_assoc. f_equal.
      apply (IH (List.length t)); [|reflexivity].
      subst n. rewrite Ht, length_app. pose proof literal_length. simpl; lia.
    + unfold no_straddle in Hx. rewrite Ha in Hx. simpl in Hx.
      now rewrite (suffixes_clear_spec _ _ Hx pre a2 post eq_refl Hne) in E.
  - simpl app in *. rewrite lsub_skip by exact E.
    rewrite lsub_skip.
    + simpl. f_equal. apply (IH (List.length pre)); [|reflexivity].
      subst n. simpl. lia.
    + destruct (startswith a (c :: pre)) eqn:E'; [|reflexivity].
      apply (startswith_app_l _ _ (x ++ post)) in E'. simpl in E'. congruence.
Qed.

(** Every occurrence of a literal that cannot overlap itself is replaced. *)
Lemma lsub_occurrence (pre post : str) :
  no_straddle a a = true ->
  lsub (pre ++ a ++ post) = lsub pre ++ b ++ lsub post.
Proof. intro H. now rewrite lsub_boundary, lsub_match. Qed.

(** A text the literal cannot touch is copied. *)
Lemma lsub_untouched (x pre post : str) :
  no_straddle a x = true -> clear_of a x = true ->
  lsub (pre ++ x ++ post) = lsub pre ++ x ++ lsub post.
Proof. intros H1 H2. now rewrite lsub_boundary, lsub_through. Qed.
End Literal.

(** ** The assignment rules (lines 70-82) *)

Lemma rewrite_field_lsub (s : str) : rewrite_field s = lsub FIELD PRISMA s.
Proof. reflexivity. Qed.

Lemma rewrite_fallback_lsub (s : str) : rewrite_fallback s = lsub FALLBACK PRISMA s.
Proof. reflexivity. Qed.

Lemma FIELD_nonempty : FIELD <> [].
Proof. discriminate. Qed.

Lemma FALLBACK_nonempty : FALLBACK <> [].
Proof. discriminate. Qed.

Lemma rewrite_field_occurrence (pre post : str) :
  rewrite_field (pre ++ FIELD ++ post)
  = rewrite_field pre ++ PRISMA ++ rewrite_field post.
Proof.
  rewrite !rewrite_field_lsub.
  apply lsub_occurrence; [apply FIELD_nonempty|now vm_compute].
Qed.

Lemma rewrite_fallback_occurrence (pre post : str) :
  rewrite_fallback (pre ++ FALLBACK ++ post)
  = rewrite_fallback pre ++ PRISMA ++ rewrite_fallback post.
Proof.
  rewrite !rewrite_fallback_lsub.
  apply lsub_occurrence; [apply FALLBACK_nonempty|now vm_compute].
Qed.

Lemma rewrite_field_keeps_fallback (pre post : str) :
  rewrite_field (pre ++ FALLBACK ++ post)
  = rewrite_field pre ++ FALLBACK ++ rewrite_field post.
Proof.
  rewrite !rewrite_field_lsub.
  apply lsub_untouched; [apply FIELD_nonempty|now vm_compute|now vm_compute].
Qed.

Lemma rewrite_field_keeps_or_new (post : str) :
  rewrite_field (OR_NEW ++ post) = OR_NEW ++ rewrite_field post.
Proof.
  rewrite !rewrite_field_lsub.
  apply lsub_through; [apply FIELD_nonempty|now vm_compute].
Qed.

Lemma rewrite_fallback_keeps_prisma (pre post : str) :
  startswith OR_NEW post = false ->
  rewrite_fallback (pre ++ PRISMA ++ post)
  = rewrite_fallback pre ++ PRISMA ++ rewrite_fallback post.
Proof.
  intro H. rewrite !rewrite_fallback_lsub.
  rewrite lsub_boundary by (apply FALLBACK_nonempty || now vm_compute).
  f_equal. apply lsub_through_tail;
    [apply FALLBACK_nonempty| |now vm_compute].
  destruct (startswith FALLBACK (PRISMA ++ post)) eqn:E; [|reflexivity].
  change FALLBACK with (PRISMA ++ OR_NEW) in E.
  apply startswith_inv in E as [t Ht]. rewrite <- app_assoc in Ht.
  apply app_inv_head in Ht. subst post.
  now rewrite startswith_app in H.
Qed.

Lemma rewrite_assignments_absent (s : str) :
  contains FIELD s = false -> contains FALLBACK s = false ->
  rewrite_assignments s = s.
Proof.
  intros H1 H2. unfold rewrite_assignments.
  rewrite rewrite_field_lsub, lsub_absent by (apply FIELD_nonempty || exact H1).
  rewrite rewrite_fallback_lsub. apply lsub_absent; [apply FALLBACK_nonempty|exact H2].
Qed.

(** C3 (as stated): an occurrence of [this.prisma = new PrismaClient()]
    whose surrounding text contains neither assignment form would be
    replaced by [this.prisma = prisma] with that text unchanged.  This
    fails when the occurrence is followed by [ || new PrismaClient()]: the
    first rule produces a fallback form, which the second rule rewrites. *)
Lemma assignment_rewrites_cascade :
  ~ (forall pre post : str,
        contains FIELD pre = false -> contains FALLBACK pre = false ->
        contains FIELD post = false -> contains FALLBACK post = false ->
        rewrite_assignments (pre ++ FIELD ++ post) = pre ++ PRISMA ++ post).
Proof.
  intro H. specialize (H [] (lit " || new PrismaClient();")).
  vm_compute in H. specialize (H eq_refl eq_refl eq_refl eq_refl).
  discriminate H.
Qed.

(** C3 (amended): each rule replaces every occurrence of its text by
    [this.prisma = prisma] and copies what surrounds it; the first rule
    copies every fallback form, so that the two rules in sequence rewrite
    it as a whole; a text with neither form is unchanged; an occurrence of
    [this.prisma = new PrismaClient()] is rewritten with its surroundings
    processed on their own unless what follows it then starts with
    [ || new PrismaClient()], in which case the second rule rewrites the
    fallback form the first rule has produced. *)
Theorem assignment_rewrites (pre post : str) :
  rewrite_field (pre ++ FIELD ++ post)
    = rewrite_field pre ++ PRISMA ++ rewrite_field post
  /\ rewrite_fallback (pre ++ FALLBACK ++ post)
    = rewrite_fallback pre ++ PRISMA ++ rewrite_fallback post
  /\ rewrite_field (pre ++ FALLBACK ++ post)
    = rewrite_field pre ++ FALLBACK ++ rewrite_field post
  /\ rewrite_assignments (pre ++ FALLBACK ++ post)
    = rewrite_assignments pre ++ PRISMA ++ rewrite_assignments post
  /\ (contains FIELD pre = false -> contains FALLBACK pre = false ->
      rewrite_assignments pre = pre)
  /\ (startswith OR_NEW (rewrite_field post) = false ->
      rewrite_assignments (pre ++ FIELD ++ post)
      = rewrite_assignments pre ++ PRISMA ++ rewrite_assignments post)
  /\ rewrite_assignments (pre ++ FIELD ++ OR_NEW ++ post)
    = rewrite_assignments pre ++ PRISMA ++ rewrite_assignments post.
Proof.
  unfold rewrite_assignments. repeat split.
  - apply rewrite_field_occurrence.
  - apply rewrite_fallback_occurrence.
  - apply rewrite_field_keeps_fallback.
  - rewrite rewrite_field_keeps_fallback. apply rewrite_fallback_occurrence.
  - apply rewrite_assignments_absent.
  - intro H. rewrite rewrite_field_occurrence.
    now apply rewrite_fallback_keeps_prisma.
  - rewrite rewrite_field_occurrence, rewrite_field_keeps_or_new.
    change (PRISMA ++ OR_NEW ++ rewrite_field post)
      with (FALLBACK ++ rewrite_field post).
    apply rewrite_fallback_occurrence.
Qed.

Lemma assignment_rewrites_witness :
  rewrite_assignments (lit "x = 1; ") = lit "x = 1; "
  /\ rewrite_assignments (lit "x = 1; " ++ FIELD ++ lit ";")
     = lit "x = 1; this.prisma = prisma;".
Proof.
  pose proof (assignment_rewrites (lit "x = 1; ") (lit ";"))
    as (_ & _ & _ & _ & Habsent & Hfield & _).
  assert (E : rewrite_assignments (lit "x = 1; ") = lit "x = 1; ")
    by (apply Habsent; vm_compute; reflexivity).
  split; [exact E|].
  rewrite Hfield by (vm_compute; reflexivity).
  rewrite E. vm_compute. reflexivity.
Defined.

(** ** Import insertion (lines 45-60) *)

Lemma rmatch_starlazy_eq (cls : char -> bool) (p : list item) bol s :
  rmatch (StarLazy cls :: p) bol s
  = match rmatch p bol s with
    | Some r => Some r
    | None =>
        match s with
        | x :: s' =>
            if cls x
            then consume x (rmatch (StarLazy cls :: p) (N.eqb x NL) s')
            else None
        | [] => None
        end
    end.
Proof. destruct s; reflexivity. Qed.

Lemma rmatch_star_eq (cls : char -> bool) (p : list item) bol s :
  rmatch (Star cls :: p) bol s
  = match s with
    | x :: s' =>
        if cls x then
          match rmatch (Star cls :: p) (N.eqb x NL) s' with
          | Some (m, t) => Some (x :: m, t)
          | None => rmatch p bol s
          end
        else rmatch p bol s
    | [] => rmatch p bol s
    end.
Proof. destruct s; reflexivity. Qed.

Lemma rmatch_semi_nl (bol : bool) (s : str) :
  rmatch [Chr SEMI; Chr NL] bol s
  = if startswith [SEMI; NL] s then Some ([SEMI; NL], skipn 2 s) else None.
Proof. apply (rmatch_literal [SEMI; NL]). Qed.

Lemma not_newline_In (x : char) (body : str) :
  ~ In NL (x :: body) -> not_newline x = true /\ ~ In NL body.
Proof.
  intro H. split.
  - unfold not_newline. apply negb_true_iff, N.eqb_neq.
    intro E. apply H. now left.
  - intro Hin. apply H. now right.
Qed.

Lemma rmatch_lazy_line_inv :
  forall s bol m t,
    rmatch [StarLazy not_newline; Chr SEMI; Chr NL] bol s = Some (m, t) ->
    exists body, m = body ++ [SEMI; NL] /\ ~ In NL body.
Proof.
  induction s as [|x s IH]; intros bol m t H;
    rewrite rmatch_starlazy_eq, rmatch_semi_nl in H.
  - discriminate.
  - destruct (startswith [SEMI; NL] (x :: s)).
    + injection H as <- <-. exists []. split; [reflexivity|]. intros [].
    + destruct (not_newline x) eqn:Ec; [|discriminate].
      apply consume_some in H as (m' & -> & H).
      destruct (IH _ _ _ H) as (body & -> & Hb).
      exists (x :: body). split; [reflexivity|].
      intros [Hx|Hin]; [|contradiction].
      unfold not_newline in Ec. subst x. discriminate.
Qed.

Lemma rmatch_lazy_line_intro :
  forall body bol t,
    ~ In NL body ->
    rmatch [StarLazy not_newline; Chr SEMI; Chr NL] bol (body ++ SEMI :: NL :: t)
    = Some (body ++ [SEMI; NL], t).
Proof.
  induction body as [|x body IH]; intros bol t Hb;
    rewrite rmatch_starlazy_eq, rmatch_semi_nl.
  - reflexivity.
  - destruct (not_newline_In _ _ Hb) as [Hx Hb'].
    assert (E : startswith [SEMI; NL] ((x :: body) ++ SEMI :: NL :: t) = false).
    { cbn [app startswith]. destruct (N.eqb SEMI x); [|reflexivity].
      destruct body as [|y body]; [reflexivity|]. cbn [app].
      destruct (not_newline_In _ _ Hb') as [Hy _]. unfold not_newline in Hy.
      apply negb_true_iff in Hy. rewrite N.eqb_sym in Hy. now rewrite Hy. }
    rewrite E. cbn [app]. rewrite Hx, IH by exact Hb'. reflexivity.
Qed.

(** The pattern of line 56 matches exactly an import line. *)
Lemma rmatch_first_import (bol : bool) (s m t : str) :
  rmatch re_first_import bol s = Some (m, t) <-> s = m ++ t /\ import_line m.
Proof.
  unfold re_first_import, lits. split.
  - intro H. split; [eapply rmatch_sound; exact H|].
    destruct (startswith (lit "import ") s) eqn:E.
    + apply startswith_inv in E as [u ->]. rewrite rmatch_chrs_app in H.
      destruct (rmatch _ _ u) as [[m' t']|] eqn:F; [|discriminate].
      injection H as <- <-.
      apply rmatch_lazy_line_inv in F as (body & -> & Hb). now exists body.
    + now rewrite rmatch_chrs_fail in H.
  - intros [-> (body & -> & Hb)]. rewrite <- !app_assoc.
    rewrite rmatch_chrs_app. cbn [app].
    now rewrite rmatch_lazy_line_intro.
Qed.

Lemma rmatch_first_import_none (bol : bool) (s : str) :
  rmatch re_first_import bol s = None <->
  forall m t, s = m ++ t -> ~ import_line m.
Proof.
  split.
  - intros H m t Hs Hm.
    assert (E : rmatch re_first_import bol s = Some (m, t))
      by now apply rmatch_first_import.
    congruence.
  - intro H. destruct (rmatch re_first_import bol s) as [[m t]|] eqn:E;
      [|reflexivity].
    apply rmatch_first_import in E as [Hs Hm]. now destruct (H m t).
Qed.

(** The first occurrence of a literal. *)
Lemma find_first_literal (l s : str) :
  contains l s = true ->
  exists pre post,
    find_first (map Chr l) true s = Some (pre, l, post)
    /\ s = pre ++ l ++ post
    /\ forall pre1 pre2,
        pre = pre1 ++ pre2 -> pre2 <> [] ->
        startswith l (pre2 ++ l ++ post) = false.
Proof.
  intro H. destruct (find_first (map Chr l) true s) as [[[pre m] t]|] eqn:F.
  - destruct (find_first_some _ _ _ _ _ _ F) as (Hs & Hm & Hbefore).
    rewrite rmatch_literal in Hm.
    destruct (startswith l (m ++ t)) eqn:E; [|discriminate].
    injection Hm as Hm _. subst m.
    exists pre, t. repeat split; [exact Hs|].
    intros pre1 pre2 Hp Hne. specialize (Hbefore pre1 pre2 Hp Hne).
    rewrite rmatch_literal in Hbefore.
    now destruct (startswith l (pre2 ++ l ++ t)).
  - apply contains_inv in H as (a & b & Hs).
    pose proof (find_first_none _ _ _ F a (l ++ b) Hs) as Hn.
    now rewrite rmatch_literal, startswith_app in Hn.
Qed.

Lemma insert_import_prisma (rel c : str) :
  contains PRISMA_IMPORT c = true ->
  exists pre post,
    c = pre ++ PRISMA_IMPORT ++ post
    /\ (forall pre1 pre2,
          pre = pre1 ++ pre2 -> pre2 <> [] ->
          startswith PRISMA_IMPORT (pre2 ++ PRISMA_IMPORT ++ post) = false)
    /\ insert_import rel c
       = pre ++ PRISMA_IMPORT ++ [NL] ++ singleton_import rel ++ post.
Proof.
  intro H. destruct (find_first_literal _ _ H) as (pre & post & F & Hc & Hfirst).
  exists pre, post. repeat split; [exact Hc|exact Hfirst|].
  unfold insert_import. fold PRISMA_IMPORT. rewrite H, re_sub_once.
  unfold re_prisma_import, lits. fold PRISMA_IMPORT. rewrite F.
  now rewrite <- !app_assoc.
Qed.

Lemma insert_import_first_line (rel c : str) :
  contains PRISMA_IMPORT c = false -> contains IMPORT_BRACE c = true ->
  (exists pre m post,
      c = pre ++ m ++ post /\ import_line m
      /\ (forall pre1 pre2 m' t',
             pre = pre1 ++ pre2 -> pre2 <> [] -> import_line m' ->
             pre2 ++ m ++ post <> m' ++ t')
      /\ insert_import rel c = pre ++ m ++ singleton_import rel ++ [NL] ++ post)
  \/ ((forall pre m post, c = pre ++ m ++ post -> ~ import_line m)
      /\ insert_import rel c = c).
Proof.
  intros H1 H2. unfold insert_import. fold PRISMA_IMPORT IMPORT_BRACE.
  rewrite H1, H2, re_sub_once.
  destruct (find_first re_first_import true c) as [[[pre m] t]|] eqn:F.
  - left. destruct (find_first_some _ _ _ _ _ _ F) as (Hs & Hm & Hbefore).
    apply rmatch_first_import in Hm as [_ Hm].
    exists pre, m, t. repeat split; [exact Hs|exact Hm| |now rewrite <- !app_assoc].
    intros pre1 pre2 m' t' Hp Hne Hm' E.
    specialize (Hbefore pre1 pre2 Hp Hne).
    now apply (proj1 (rmatch_first_import_none _ _) Hbefore m' t').
  - right. split; [|reflexivity].
    intros pre m post Hc.
    pose proof (find_first_none _ _ _ F pre (m ++ post) Hc) as Hn.
    now apply (proj1 (rmatch_first_import_none _ _) Hn m post).
Qed.

(** C1 (as stated): a text with an import statement but without the
    import of [@prisma/client] would get the singleton import after its
    first import line.  A default import is an import statement, yet
    nothing is inserted: the code asks for the text [import {]. *)
Lemma insert_import_needs_brace :
  ~ (forall rel c pre m post : str,
        contains PRISMA_IMPORT c = false ->
        c = pre ++ m ++ post -> import_line m ->
        (forall pre1 pre2 m' t',
            pre = pre1 ++ pre2 -> pre2 <> [] -> import_line m' ->
            pre2 ++ m ++ post <> m' ++ t') ->
        insert_import rel c = pre ++ m ++ singleton_import rel ++ [NL] ++ post).
Proof.
  intro H.
  specialize (H (lit "../lib/prisma")
                (lit "import fs from 'fs';" ++ [NL]
                   ++ lit "const db = new PrismaClient();" ++ [NL])
                []
                (lit "import fs from 'fs';" ++ [NL])
                (lit "const db = new PrismaClient();" ++ [NL])
                eq_refl eq_refl).
  assert (Hm : import_line (lit "import fs from 'fs';" ++ [NL])).
  { exists (lit "fs from 'fs'"). split; [reflexivity|].
    vm_compute. intuition discriminate. }
  specialize (H Hm).
  assert (Hfirst : forall pre1 pre2 m' t' : str,
             @nil char = pre1 ++ pre2 -> pre2 <> [] -> import_line m' ->
             pre2 ++ (lit "import fs from 'fs';" ++ [NL])
                  ++ lit "const db = new PrismaClient();" ++ [NL] <> m' ++ t').
  { intros pre1 pre2 m' t' Hp Hne. destruct pre1, pre2; simpl in Hp; congruence. }
  specialize (H Hfirst). vm_compute in H. discriminate H.
Qed.

(** C1 (amended): when the text contains [from '@prisma/client';], the
    singleton import is inserted, on a line of its own, right after the
    first occurrence of that text and nowhere else; otherwise, when the
    text contains [import {], it is inserted right after the first
    [import ...;] that ends its line, if there is one, and nothing is
    inserted if there is none; when the text contains neither, nothing is
    inserted. *)
Theorem insert_import_spec (rel c : str) :
  (contains PRISMA_IMPORT c = true ->
   exists pre post,
     c = pre ++ PRISMA_IMPORT ++ post
     /\ (forall pre1 pre2,
           pre = pre1 ++ pre2 -> pre2 <> [] ->
           startswith PRISMA_IMPORT (pre2 ++ PRISMA_IMPORT ++ post) = false)
     /\ insert_import rel c
        = pre ++ PRISMA_IMPORT ++ [NL] ++ singleton_import rel ++ post)
  /\ (contains PRISMA_IMPORT c = false -> contains IMPORT_BRACE c = true ->
      (exists pre m post,
          c = pre ++ m ++ post /\ import_line m
          /\ (forall pre1 pre2 m' t',
                 pre = pre1 ++ pre2 -> pre2 <> [] -> import_line m' ->
                 pre2 ++ m ++ post <> m' ++ t')
          /\ insert_import rel c
             = pre ++ m ++ singleton_import rel ++ [NL] ++ post)
      \/ ((forall pre m post, c = pre ++ m ++ post -> ~ import_line m)
          /\ insert_import rel c = c))
  /\ (contains PRISMA_IMPORT c = false -> contains IMPORT_BRACE c = false ->
      insert_import rel c = c).
Proof.
  split; [apply insert_import_prisma|].
  split; [apply insert_import_first_line|].
  intros H1 H2. unfold insert_import. fold PRISMA_IMPORT IMPORT_BRACE.
  now rewrite H1, H2.
Qed.

Lemma insert_import_spec_witness :
  insert_import (lit "../lib/prisma") (lit "const x = 1;") = lit "const x = 1;"
  /\ exists pre post,
      lit "import { PrismaClient } from '@prisma/client';" = pre ++ PRISMA_IMPORT ++ post
      /\ insert_import (lit "../lib/prisma")
                       (lit "import { PrismaClient } from '@prisma/client';")
         = pre ++ PRISMA_IMPORT ++ [NL] ++ singleton_import (lit "../lib/prisma") ++ post.
Proof.
  split.
  - apply (insert_import_spec (lit "../lib/prisma") (lit "const x = 1;"));
      vm_compute; reflexivity.
  - destruct (proj1 (insert_import_spec (lit "../lib/prisma")
                (lit "import { PrismaClient } from '@prisma/client';")))
      as (pre & post & Hc & _ & Hout); [vm_compute; reflexivity|].
    exists pre, post. split; [exact Hc|exact Hout].
Defined.

(** ** Lines *)

Lemma unlines_app (ls1 ls2 : list str) (r : str) :
  unlines (ls1 ++ ls2) r = unlines ls1 [] ++ unlines ls2 r.
Proof.
  induction ls1 as [|l ls1 IH]; simpl; [reflexivity|].
  now rewrite IH, <- app_assoc.
Qed.

Lemma unlines_rest (ls : list str) (r : str) :
  unlines ls r = unlines ls [] ++ r.
Proof.
  rewrite <- (app_nil_r ls) at 1. now rewrite unlines_app.
Qed.

Lemma split_lines_no_newline (l : str) :
  ~ In NL l -> split_lines l = ([], l).
Proof.
  induction l as [|x l IH]; intro H; [reflexivity|].
  simpl. rewrite IH by (intro; apply H; now right).
  destruct (N.eqb x NL) eqn:E; [|reflexivity].
  apply N.eqb_eq in E. destruct H. now left.
Qed.

Lemma split_lines_line (l t : str) :
  ~ In NL l ->
  split_lines (l ++ NL :: t) = (l :: tlines t, rest_line t).
Proof.
  unfold tlines, rest_line.
  induction l as [|x l IH]; intro H.
  - simpl. now destruct (split_lines t).
  - simpl. rewrite IH by (intro; apply H; now right). simpl.
    destruct (N.eqb x NL) eqn:E; [|reflexivity].
    apply N.eqb_eq in E. destruct H. now left.
Qed.

Lemma split_lines_unlines (ls : list str) (r : str) :
  Forall (fun l => ~ In NL l) ls ->
  split_lines (unlines ls r) = (ls ++ tlines r, rest_line r).
Proof.
  induction 1 as [|l ls Hl Hls IH]; simpl.
  - unfold tlines, rest_line. now destruct (split_lines r).
  - rewrite split_lines_line by exact Hl.
    unfold tlines, rest_line. now rewrite IH.
Qed.

Lemma tlines_unlines (ls : list str) (r : str) :
  Forall (fun l => ~ In NL l) ls -> tlines (unlines ls r) = ls ++ tlines r.
Proof. intro H. unfold tlines at 1. now rewrite split_lines_unlines. Qed.

Lemma rest_line_unlines (ls : list str) (r : str) :
  Forall (fun l => ~ In NL l) ls -> rest_line (unlines ls r) = rest_line r.
Proof. intro H. unfold rest_line at 1. now rewrite split_lines_unlines. Qed.

(** A text is its first line and the rest, or has no newline. *)
Lemma first_line (s : str) :
  ~ In NL s \/ exists l t, s = l ++ NL :: t /\ ~ In NL l.
Proof.
  induction s as [|x s IH]; [left; intros []|].
  destruct (N.eqb x NL) eqn:E.
  - apply N.eqb_eq in E. subst x. right. exists [], s. split; [reflexivity|intros []].
  - apply N.eqb_neq in E. destruct IH as [IH|(l & t & -> & Hl)].
    + left. intros [H|H]; [congruence|contradiction].
    + right. exists (x :: l), t. split; [reflexivity|].
      intros [H|H]; [congruence|contradiction].
Qed.

(** Whitespace is a run of blank lines and a blank rest. *)
Lemma blank_unlines (w : str) :
  is_blank w = true ->
  exists bl w',
    w = unlines bl w'
    /\ Forall (fun l => ~ In NL l) bl
    /\ Forall (fun l => is_blank l = true) bl
    /\ ~ In NL w' /\ is_blank w' = true.
Proof.
  induction w as [|x w IH]; intro H.
  - exists [], []. repeat split; try constructor. intros [].
  - simpl in H. apply andb_true_iff in H as [Hx Hw].
    destruct (IH Hw) as (bl & w' & -> & Hnl & Hbl & Hw'nl & Hw'b).
    destruct (N.eqb x NL) eqn:E.
    + apply N.eqb_eq in E. subst x. exists ([] :: bl), w'.
      split; [reflexivity|]. split; [constructor; [intros []|exact Hnl]|].
      split; [constructor; [reflexivity|exact Hbl]|]. now split.
    + apply N.eqb_neq in E. destruct bl as [|l bl].
      * exists [], (x :: w'). split; [reflexivity|].
        split; [constructor|]. split; [constructor|]. split.
        -- intros [F|F]; [congruence|contradiction].
        -- simpl. now rewrite Hx.
      * exists ((x :: l) :: bl), w'. inversion Hnl; inversion Hbl; subst.
        split; [reflexivity|]. split; [constructor; [|assumption]|].
        -- intros [F|F]; [congruence|contradiction].
        -- split; [constructor; [simpl; now rewrite Hx|assumption]|].
           now split.
Qed.

(** ** Stripping whitespace *)

Lemma is_blank_app (a b : str) : is_blank (a ++ b) = is_blank a && is_blank b.
Proof. apply forallb_app. Qed.

Lemma is_blank_rev (w : str) : is_blank (rev w) = is_blank w.
Proof.
  induction w as [|x w IH]; [reflexivity|].
  simpl. rewrite is_blank_app, IH. simpl. rewrite andb_true_r. apply andb_comm.
Qed.

Lemma lstrip_blank (w s : str) : is_blank w = true -> lstrip (w ++ s) = lstrip s.
Proof.
  induction w as [|x w IH]; intro H; [reflexivity|].
  simpl in *. apply andb_true_iff in H as [Hx Hw]. rewrite Hx. now apply IH.
Qed.

Lemma lstrip_length (u : str) : List.length (lstrip u) <= List.length u.
Proof.
  induction u as [|e u IH]; simpl; [lia|]. destruct (is_space e); simpl; lia.
Qed.

Lemma lstrip_fixed_app (x s : str) :
  x <> [] -> lstrip x = x -> lstrip (x ++ s) = x ++ s.
Proof.
  destruct x as [|c x]; intros Hne H; [contradiction|].
  simpl in *. destruct (is_space c); [|reflexivity].
  pose proof (lstrip_length x) as Hl. rewrite H in Hl. simpl in Hl. lia.
Qed.

Lemma lstrip_split (l : str) :
  exists w, l = w ++ lstrip l /\ is_blank w = true.
Proof.
  induction l as [|x l (w & Hl & Hw)].
  - now exists [].
  - simpl. destruct (is_space x) eqn:E.
    + exists (x :: w). simpl. rewrite E, Hw. split; [now f_equal|reflexivity].
    + now exists [].
Qed.

(** Blank text around a text that neither starts nor ends with
    whitespace is what [strip] removes. *)
Lemma strip_blank_around (w1 x w2 : str) :
  x <> [] -> lstrip x = x -> lstrip (rev x) = rev x ->
  is_blank w1 = true -> is_blank w2 = true ->
  strip (w1 ++ x ++ w2) = x.
Proof.
  intros Hne H1 H2 Hw1 Hw2. unfold strip.
  rewrite lstrip_blank by exact Hw1.
  rewrite lstrip_fixed_app by assumption.
  rewrite rev_app_distr, lstrip_blank by now rewrite is_blank_rev.
  rewrite H2. apply rev_involutive.
Qed.

Lemma strip_split (l : str) :
  exists w1 w2,
    l = w1 ++ strip l ++ w2 /\ is_blank w1 = true /\ is_blank w2 = true.
Proof.
  destruct (lstrip_split l) as (w1 & Hl & Hw1).
  destruct (lstrip_split (rev (lstrip l))) as (w2 & Hr & Hw2).
  exists w1, (rev w2). unfold strip. repeat split.
  - rewrite <- rev_app_distr, <- Hr, rev_involutive. exact Hl.
  - exact Hw1.
  - now rewrite is_blank_rev.
Qed.

(** ** The declaration rule (lines 62-68) *)

Lemma star_inv (cls : char -> bool) (p : list item) :
  forall s bol m t,
    rmatch (Star cls :: p) bol s = Some (m, t) ->
    exists w m' bol',
      m = w ++ m' /\ forallb cls w = true
      /\ rmatch p bol' (m' ++ t) = Some (m', t).
Proof.
  assert (Base : forall bol s m t,
             rmatch p bol s = Some (m, t) ->
             exists w m' bol',
               m = w ++ m' /\ forallb cls w = true
               /\ rmatch p bol' (m' ++ t) = Some (m', t)).
  { intros bol s m t H. exists [], m, bol. repeat split.
    now rewrite <- (rmatch_sound _ _ _ _ _ H). }
  induction s as [|x s IH]; intros bol m t H; rewrite rmatch_star_eq in H.
  - eauto.
  - destruct (cls x) eqn:Ex; [|eauto].
    destruct (rmatch (Star cls :: p) (N.eqb x NL) s) as [[m1 t1]|] eqn:E; [|eauto].
    injection H as <- <-.
    destruct (IH _ _ _ E) as (w & m' & bol' & -> & Hw & Hm).
    exists (x :: w), m', bol'. repeat split; [|exact Hm]. simpl. now rewrite Ex.
Qed.

Lemma star_complete (cls : char -> bool) (p : list item) (w s : str) :
  forallb cls w = true ->
  (forall bol, rmatch p bol s <> None) ->
  forall bol, rmatch (Star cls :: p) bol (w ++ s) <> None.
Proof.
  intros Hw Hp. induction w as [|x w IH]; intro bol; rewrite rmatch_star_eq.
  - cbn [app]. destruct s as [|y s]; [apply Hp|].
    destruct (cls y); [|apply Hp].
    destruct (rmatch (Star cls :: p) (N.eqb y NL) s) as [[? ?]|];
      [easy|apply Hp].
  - simpl in Hw. apply andb_true_iff in Hw as [Hx Hw]. cbn [app]. rewrite Hx.
    specialize (IH Hw (N.eqb x NL)).
    destruct (rmatch (Star cls :: p) (N.eqb x NL) (w ++ s)) as [[? ?]|];
      [easy|contradiction].
Qed.

Lemma opt_inv (c : char) (p : list item) bol s m t :
  rmatch (Opt c :: p) bol s = Some (m, t) ->
  exists o m' bol',
    m = o ++ m' /\ (o = [] \/ o = [c])
    /\ rmatch p bol' (m' ++ t) = Some (m', t).
Proof.
  assert (Base : rmatch p bol s = Some (m, t) ->
             exists o m' bol',
               m = o ++ m' /\ (o = [] \/ o = [c])
               /\ rmatch p bol' (m' ++ t) = Some (m', t)).
  { intro H. exists [], m, bol. repeat split; [now left|].
    now rewrite <- (rmatch_sound _ _ _ _ _ H). }
  intro H. cbn [rmatch] in H. destruct s as [|x s]; [auto|].
  destruct (N.eqb x c) eqn:Ex; [|auto].
  destruct (rmatch p (N.eqb x NL) s) as [[m1 t1]|] eqn:E; [|auto].
  injection H as <- <-. apply N.eqb_eq in Ex. subst x.
  exists [c], m1, (N.eqb c NL). repeat split; [now right|].
  now rewrite <- (rmatch_sound _ _ _ _ _ E).
Qed.

Lemma opt_complete_skip (c : char) (p : list item) bol s :
  rmatch p bol s <> None -> rmatch (Opt c :: p) bol s <> None.
Proof.
  intro H. cbn [rmatch]. destruct s as [|x s]; [exact H|].
  destruct (N.eqb x c); [|exact H].
  now destruct (rmatch p (N.eqb x NL) s) as [[? ?]|].
Qed.

Lemma opt_complete_take (c : char) (p : list item) bol s :
  rmatch p (N.eqb c NL) s <> None -> rmatch (Opt c :: p) bol (c :: s) <> None.
Proof.
  intro H. cbn [rmatch]. rewrite N.eqb_refl.
  now destruct (rmatch p (N.eqb c NL) s) as [[? ?]|].
Qed.

Lemma rmatch_bol_eq (p : list item) (bol : bool) (s : str) :
  rmatch (Bol :: p) bol s = if bol then rmatch p bol s else None.
Proof. reflexivity. Qed.

Lemma re_decl_eq :
  re_decl = Bol :: Star is_space
              :: (map Chr DECL ++ [Opt SEMI; Star is_space; Chr NL]).
Proof. reflexivity. Qed.

(** What the declaration pattern matches: whitespace, the declaration,
    an optional semicolon, whitespace, and a newline; only at the start
    of a line. *)
Lemma rmatch_decl_inv (bol : bool) (s m t : str) :
  rmatch re_decl bol s = Some (m, t) ->
  bol = true
  /\ exists w1 o w2,
      m = w1 ++ DECL ++ o ++ w2 ++ [NL]
      /\ is_blank w1 = true /\ (o = [] \/ o = [SEMI]) /\ is_blank w2 = true.
Proof.
  rewrite re_decl_eq, rmatch_bol_eq. intro H.
  destruct bol; [|discriminate]. split; [reflexivity|].
  apply star_inv in H as (w1 & m1 & b1 & -> & Hw1 & H).
  destruct (startswith DECL (m1 ++ t)) eqn:E;
    [|now rewrite rmatch_chrs_fail in H].
  apply startswith_inv in E as [u Hu]. rewrite Hu, rmatch_chrs_app in H.
  destruct (rmatch _ _ u) as [[m2 t2]|] eqn:F; [|discriminate].
  injection H as <- <-.
  apply opt_inv in F as (o & m3 & b3 & -> & Ho & F).
  apply star_inv in F as (w2 & m4 & b4 & -> & Hw2 & F).
  change [Chr NL] with (map Chr [NL]) in F. rewrite rmatch_literal in F.
  destruct (startswith [NL] (m4 ++ t2)); [|discriminate].
  injection F as <- _.
  exists w1, o, w2. repeat split; assumption.
Qed.

Lemma rmatch_decl_not_empty (bol : bool) (s t : str) :
  rmatch re_decl bol s <> Some ([], t).
Proof.
  intro H. apply rmatch_decl_inv in H as (_ & w1 & o & w2 & H & _).
  destruct w1; discriminate.
Qed.

Lemma rmatch_decl_newline (bol : bool) (s m t : str) :
  rmatch re_decl bol s = Some (m, t) -> exists m', m = m' ++ [NL].
Proof.
  intro H. apply rmatch_decl_inv in H as (_ & w1 & o & w2 & -> & _).
  exists (w1 ++ DECL ++ o ++ w2). now rewrite <- !app_assoc.
Qed.

(** A declaration line that ends in a newline is matched at its start. *)
Lemma rmatch_decl_complete (l t : str) :
  is_decl_line l = true -> rmatch re_decl true (l ++ NL :: t) <> None.
Proof.
  intro H. destruct (strip_split l) as (w1 & w2 & Hl & Hw1 & Hw2).
  rewrite re_decl_eq, rmatch_bol_eq, Hl, <- !app_assoc.
  assert (Tail : forall bol, rmatch [Star is_space; Chr NL] bol (w2 ++ NL :: t) <> None).
  { apply star_complete; [exact Hw2|]. intro bol. cbn. easy. }
  apply star_complete; [exact Hw1|]. intro bol.
  unfold is_decl_line in H. apply orb_true_iff in H as [H|H];
    apply str_eqb_eq in H; rewrite H, <- ?app_assoc, rmatch_chrs_app.
  - match goal with
    | |- match ?r with _ => _ end <> None =>
        assert (R : r <> None) by (apply opt_complete_skip, Tail);
        destruct r as [[? ?]|]; [easy|contradiction]
    end.
  - cbn [app]. match goal with
    | |- match ?r with _ => _ end <> None =>
        assert (R : r <> None) by (apply opt_complete_take, Tail);
        destruct r as [[? ?]|]; [easy|contradiction]
    end.
Qed.

Lemma blank_lines_newline (w : str) :
  is_blank w = true ->
  exists b bl,
    w ++ [NL] = b ++ NL :: unlines bl []
    /\ ~ In NL b /\ is_blank b = true
    /\ Forall (fun l => ~ In NL l) bl
    /\ Forall (fun l => is_blank l = true) bl.
Proof.
  induction w as [|x w IH]; intro H.
  - exists [], []. repeat split; try constructor. intros [].
  - simpl in H. apply andb_true_iff in H as [Hx Hw].
    destruct (IH Hw) as (b & bl & E & Hb & Hbb & Hnl & Hbl).
    destruct (N.eqb x NL) eqn:Ex.
    + apply N.eqb_eq in Ex. subst x. exists [], (b :: bl).
      split; [simpl; now rewrite E|]. split; [intros []|].
      split; [reflexivity|]. split; constructor; assumption.
    + apply N.eqb_neq in Ex. exists (x :: b), bl.
      split; [simpl; now rewrite E|].
      split; [intros [F|F]; [congruence|contradiction]|].
      split; [simpl; now rewrite Hx|]. now split.
Qed.

(** The text a match removes consists of whole lines, each of them blank
    or a declaration line. *)
Lemma decl_match_lines (w1 o w2 : str) :
  is_blank w1 = true -> (o = [] \/ o = [SEMI]) -> is_blank w2 = true ->
  exists ls,
    w1 ++ DECL ++ o ++ w2 ++ [NL] = unlines ls []
    /\ Forall (fun l => ~ In NL l) ls
    /\ Forall (fun l => is_decl_line l || is_blank l = true) ls.
Proof.
  intros Hw1 Ho Hw2.
  destruct (blank_unlines _ Hw1) as (bl1 & w1' & -> & Hnl1 & Hbl1 & Hw1'nl & Hw1'b).
  destruct (blank_lines_newline _ Hw2) as (b & bl2 & E & Hb & Hbb & Hnl2 & Hbl2).
  exists (bl1 ++ (w1' ++ (DECL ++ o) ++ b) :: bl2).
  assert (Hdecl : ~ In NL (DECL ++ o)).
  { destruct Ho as [-> | ->]; vm_compute; intuition discriminate. }
  repeat split.
  - rewrite E, unlines_app, (unlines_rest bl1 w1'). cbn [unlines].
    now rewrite <- !app_assoc.
  - apply Forall_app. split; [exact Hnl1|]. constructor; [|exact Hnl2].
    intro F. apply in_app_or in F as [F|F]; [contradiction|].
    apply in_app_or in F as [F|F]; contradiction.
  - apply Forall_app. split.
    + eapply Forall_impl; [|exact Hbl1]. cbn. intros l Hl. rewrite Hl.
      apply orb_true_r.
    + constructor.
      * apply orb_true_iff. left. unfold is_decl_line.
        rewrite strip_blank_around; try assumption.
        -- destruct Ho as [-> | ->]; [rewrite app_nil_r, str_eqb_refl; reflexivity|].
           rewrite str_eqb_refl. apply orb_true_r.
        -- destruct Ho as [-> | ->]; discriminate.
        -- destruct Ho as [-> | ->]; reflexivity.
        -- destruct Ho as [-> | ->]; reflexivity.
      * eapply Forall_impl; [|exact Hbl2]. cbn. intros l Hl. rewrite Hl.
        apply orb_true_r.
Qed.

(** The scan of [remove_decl] from a position of the text. *)
Lemma scan_decl_eq (bol : bool) (s : str) :
  sub_from re_decl (fun _ => []) None bol s
  = match rmatch re_decl bol s with
    | Some (m, t) => sub_from re_decl (fun _ => []) None (bol_after bol m) t
    | None =>
        match s with
        | [] => []
        | x :: s' => x :: sub_from re_decl (fun _ => []) None (N.eqb x NL) s'
        end
    end.
Proof.
  rewrite sub_from_all_eq by apply rmatch_decl_not_empty.
  now destruct (rmatch re_decl bol s) as [[m t]|].
Qed.

Lemma not_in_cons (x : char) (l : str) :
  ~ In NL (x :: l) -> N.eqb x NL = false /\ ~ In NL l.
Proof.
  intro H. split.
  - apply N.eqb_neq. intro E. apply H. now left.
  - intro F. apply H. now right.
Qed.

(** Inside a line nothing matches: the line is copied. *)
Lemma scan_decl_inside (l t : str) :
  ~ In NL l ->
  sub_from re_decl (fun _ => []) None false (l ++ NL :: t)
  = l ++ NL :: sub_from re_decl (fun _ => []) None true t.
Proof.
  induction l as [|x l IH]; intro H; rewrite scan_decl_eq, re_decl_eq, rmatch_bol_eq;
    rewrite <- ?re_decl_eq; cbn [app].
  - reflexivity.
  - destruct (not_in_cons _ _ H) as [Hx Hl]. rewrite Hx. f_equal. now apply IH.
Qed.

Lemma scan_decl_inside_last (s : str) :
  ~ In NL s -> sub_from re_decl (fun _ => []) None false s = s.
Proof.
  induction s as [|x s IH]; intro H; rewrite scan_decl_eq, re_decl_eq, rmatch_bol_eq;
    rewrite <- ?re_decl_eq.
  - reflexivity.
  - destruct (not_in_cons _ _ H) as [Hx Hs]. rewrite Hx. f_equal. now apply IH.
Qed.

(** A line at whose start nothing matches is copied. *)
Lemma scan_decl_keep (l t : str) :
  ~ In NL l -> rmatch re_decl true (l ++ NL :: t) = None ->
  sub_from re_decl (fun _ => []) None true (l ++ NL :: t)
  = l ++ NL :: sub_from re_decl (fun _ => []) None true t.
Proof.
  intros Hl Hn. rewrite scan_decl_eq, Hn. destruct l as [|x l]; cbn [app].
  - reflexivity.
  - destruct (not_in_cons _ _ Hl) as [Hx Hl']. rewrite Hx. f_equal.
    now apply scan_decl_inside.
Qed.

(** A text without a newline is copied. *)
Lemma scan_decl_last (s : str) :
  ~ In NL s -> sub_from re_decl (fun _ => []) None true s = s.
Proof.
  intro H. rewrite scan_decl_eq.
  destruct (rmatch re_decl true s) as [[m t]|] eqn:E.
  - exfalso. destruct (rmatch_decl_newline _ _ _ _ E) as [m' ->].
    apply rmatch_sound in E. apply H. rewrite E, !in_app_iff. simpl. tauto.
  - destruct s as [|x s]; [reflexivity|].
    destruct (not_in_cons _ _ H) as [Hx Hs]. rewrite Hx. f_equal.
    now apply scan_decl_inside_last.
Qed.

(** A match is dropped, and the scan goes on at the start of a line. *)
Lemma scan_decl_drop (s m t : str) :
  rmatch re_decl true s = Some (m, t) ->
  sub_from re_decl (fun _ => []) None true s
  = sub_from re_decl (fun _ => []) None true t.
Proof.
  intro E. rewrite scan_decl_eq, E.
  destruct (rmatch_decl_newline _ _ _ _ E) as [m' ->].
  unfold bol_after. now rewrite rev_app_distr.
Qed.

Lemma dropped_only_all (d : str -> bool) (ls ks ks' : list str) :
  Forall (fun l => d l = true) ls ->
  dropped_only d ks ks' -> dropped_only d (ls ++ ks) ks'.
Proof.
  induction 1 as [|l ls Hl Hls IH]; intro H; [exact H|].
  simpl. apply dropped_drop; [exact Hl|]. now apply IH.
Qed.

Lemma remove_decl_lines :
  forall n s,
    List.length s <= n ->
    let out := sub_from re_decl (fun _ => []) None true s in
    Forall (fun l => is_decl_line l = false) (tlines out)
    /\ dropped_only (fun l => is_decl_line l || is_blank l) (tlines s) (tlines out)
    /\ rest_line out = rest_line s.
Proof.
  induction n as [n IH] using lt_wf_ind. intros s Hn out. subst out.
  destruct (rmatch re_decl true s) as [[m t]|] eqn:E.
  - rewrite (scan_decl_drop _ _ _ E).
    pose proof (rmatch_sound _ _ _ _ _ E) as Hs.
    destruct (rmatch_decl_inv _ _ _ _ E) as (_ & w1 & o & w2 & Hm & Hw1 & Ho & Hw2).
    destruct (decl_match_lines _ _ _ Hw1 Ho Hw2) as (ls & Hls & Hnl & Hd).
    assert (Hlen : List.length t < n).
    { rewrite Hs, Hm, !length_app in Hn.
      assert (0 < List.length DECL) by (vm_compute; lia). lia. }
    destruct (IH _ Hlen t (le_n _)) as (H1 & H2 & H3).
    assert (Hst : s = unlines ls t).
    { rewrite Hs, Hm, Hls. symmetry. apply unlines_rest. }
    split; [exact H1|]. split.
    + rewrite Hst, tlines_unlines by exact Hnl. now apply dropped_only_all.
    + rewrite Hst, rest_line_unlines by exact Hnl. exact H3.
  - destruct (first_line s) as [Hs|(l & t & -> & Hl)].
    + rewrite scan_decl_last by exact Hs. unfold tlines.
      rewrite split_lines_no_newline by exact Hs. simpl.
      repeat split; constructor.
    + rewrite scan_decl_keep by assumption.
      assert (Hlen : List.length t < n).
      { rewrite length_app in Hn. simpl in Hn. lia. }
      destruct (IH _ Hlen t (le_n _)) as (H1 & H2 & H3).
      unfold tlines, rest_line in *. rewrite !split_lines_line by exact Hl.
      cbn [fst snd]. repeat split.
      * constructor; [|exact H1].
        destruct (is_decl_line l) eqn:D; [|reflexivity].
        now destruct (rmatch_decl_complete l t D).
      * now apply dropped_keep.
      * exact H3.
Qed.

(** C2 (as stated): the file made of the declaration line alone, with no
    newline after it, would lose that line and come out changed.  The
    pattern asks for the newline that ends the line: the text is
    unchanged, whatever the import path. *)
Lemma remove_decl_needs_newline :
  is_decl_line (lit "const prisma = new PrismaClient();") = true
  /\ tlines (lit "const prisma = new PrismaClient();") = []
  /\ forall rel,
      transform rel (lit "const prisma = new PrismaClient();")
      = lit "const prisma = new PrismaClient();".
Proof.
  split; [vm_compute; reflexivity|]. split; [vm_compute; reflexivity|].
  intro rel. vm_compute. reflexivity.
Qed.

(** C2 (amended): no line of the output that ends in a newline is, up to
    leading and trailing whitespace, the declaration with or without a
    semicolon; the lines removed are declaration lines and blank lines
    only, and the text after the last newline is kept (so a declaration
    on a last line without a newline stays); the file that is the
    declaration line and its newline, with no import, becomes empty, with
    no import inserted. *)
Theorem remove_decl_spec (c : str) :
  Forall (fun l => is_decl_line l = false) (tlines (remove_decl c))
  /\ dropped_only (fun l => is_decl_line l || is_blank l)
                  (tlines c) (tlines (remove_decl c))
  /\ rest_line (remove_decl c) = rest_line c
  /\ forall rel,
      insert_import rel (DECL ++ [SEMI; NL]) = DECL ++ [SEMI; NL]
      /\ transform rel (DECL ++ [SEMI; NL]) = []
      /\ transform rel (DECL ++ [NL]) = [].
Proof.
  unfold remove_decl. rewrite re_sub_all.
  destruct (remove_decl_lines (List.length c) c (le_n _)) as (H1 & H2 & H3).
  repeat split; try assumption; vm_compute; reflexivity.
Qed.

(** ** [calculate_relative_path] *)

Lemma commonprefix_app (c a b : path) :
  commonprefix (c ++ a) (c ++ b) = c ++ commonprefix a b.
Proof.
  induction c as [|x c IH]; [reflexivity|].
  simpl. now rewrite str_eqb_refl, IH.
Qed.

Lemma commonprefix_length_r (a b : path) :
  List.length (commonprefix a b) <= List.length b.
Proof.
  revert b; induction a as [|x a IH]; intros [|y b]; simpl; try lia.
  destruct (str_eqb x y); simpl; [|lia]. specialize (IH b). lia.
Qed.

Lemma commonprefix_length_l (a b : path) :
  List.length (commonprefix a b) <= List.length a.
Proof.
  revert b; induction a as [|x a IH]; intros [|y b]; simpl; try lia.
  destruct (str_eqb x y); simpl; [|lia]. specialize (IH b). lia.
Qed.

(** Two paths are their common prefix followed by tails that differ in
    their first part. *)
Lemma commonprefix_split (a b : path) :
  exists a' b',
    a = commonprefix a b ++ a' /\ b = commonprefix a b ++ b'
    /\ forall x y a'' b'', a' = x :: a'' -> b' = y :: b'' -> x <> y.
Proof.
  revert b; induction a as [|x a IH]; intros [|y b]; simpl.
  - exists [], []. repeat split. discriminate.
  - exists [], (y :: b). repeat split. discriminate.
  - exists (x :: a), []. repeat split. discriminate.
  - destruct (str_eqb x y) eqn:E.
    + apply str_eqb_eq in E. subst y.
      destruct (IH b) as (a' & b' & Ha & Hb & Hd).
      exists a', b'. simpl. repeat split; [now f_equal|now f_equal|exact Hd].
    + apply str_eqb_neq in E. exists (x :: a), (y :: b). repeat split.
      intros ? ? ? ? [= <- <-] [= <- <-]. exact E.
Qed.

Lemma commonprefix_unique (c a' b' : path) :
  (forall x y a'' b'', a' = x :: a'' -> b' = y :: b'' -> x <> y) ->
  commonprefix (c ++ a') (c ++ b') = c.
Proof.
  intro Hd. rewrite commonprefix_app.
  destruct a' as [|x a'], b' as [|y b']; simpl; rewrite ?app_nil_r; try reflexivity.
  destruct (str_eqb x y) eqn:E; [|now rewrite app_nil_r].
  apply str_eqb_eq in E. now destruct (Hd x y a' b' eq_refl eq_refl).
Qed.

Lemma commonprefix_prefix (c a : path) : commonprefix (c ++ a) c = c.
Proof.
  induction c as [|x c IH]; [now destruct a|].
  simpl. now rewrite str_eqb_refl, IH.
Qed.

Lemma replace_sep_id (s : str) : replace_char os_sep [SLASH] s = s.
Proof.
  unfold replace_char. induction s as [|x s IH]; [reflexivity|].
  simpl. rewrite IH. destruct (N.eqb x os_sep) eqn:E; [|reflexivity].
  apply N.eqb_eq in E. now subst x.
Qed.

(** The result does not depend on the working directory. *)
Lemma calculate_relative_path_eq (cwd from_file : path) :
  calculate_relative_path cwd from_file
  = add_dot (match rel_parts (parent from_file) with
             | [] => [DOT]
             | parts => join [SLASH] parts
             end).
Proof.
  unfold calculate_relative_path, relpath, rel_parts, add_dot.
  change (with_suffix_empty to_file) with TARGET.
  change (path_str TARGET) with (lit "apps/api-gateway/src/lib/prisma").
  cbv beta iota zeta delta [lit list_ascii_of_string map].
  rewrite commonprefix_app, !length_app.
  replace (List.length cwd + List.length (parent from_file)
           - (List.length cwd + List.length (commonprefix (parent from_file) TARGET)))
    with (List.length (parent from_file)
          - List.length (commonprefix (parent from_file) TARGET)) by lia.
  rewrite skipn_app, skipn_all2 by lia.
  replace (List.length cwd + List.length (commonprefix (parent from_file) TARGET)
           - List.length cwd)
    with (List.length (commonprefix (parent from_file) TARGET)) by lia.
  cbn [app].
  destruct (repeat _ _ ++ skipn _ TARGET) eqn:E.
  - reflexivity.
  - rewrite replace_sep_id. unfold os_sep.
    now destruct (startswith [DOT] (join [SLASH] (s :: l))).
Qed.

Lemma repeat_dotdot_start (k : nat) (downs : list str) :
  repeat (lit "..") (S k) ++ downs <> [lit ".."] ->
  startswith (lit "../") (join [SLASH] (repeat (lit "..") (S k) ++ downs)) = true.
Proof.
  intro H. cbn [repeat app] in *.
  destruct (repeat (lit "..") k ++ downs) as [|y rest]; [contradiction|].
  reflexivity.
Qed.

(** Below the directory named like the target the result has no slash
    after its first dots. *)
Lemma calculate_relative_path_below (cwd from_file extra : path) :
  parent from_file = TARGET ++ extra ->
  calculate_relative_path cwd from_file
  = match extra with
    | [] => [DOT]
    | _ => join [SLASH] (repeat (lit "..") (List.length extra))
    end.
Proof.
  intro H. rewrite calculate_relative_path_eq. unfold rel_parts. rewrite H.
  rewrite commonprefix_prefix, length_app, skipn_all, app_nil_r.
  replace (List.length TARGET + List.length extra - List.length TARGET)
    with (List.length extra) by lia.
  destruct extra as [|e extra]; [reflexivity|].
  cbn [List.length repeat]. unfold add_dot.
  now destruct (repeat (lit "..") (List.length extra)).
Qed.

Lemma calculate_relative_path_elsewhere (cwd from_file : path) :
  (forall extra, parent from_file <> TARGET ++ extra) ->
  startswith (lit "./") (calculate_relative_path cwd from_file) = true
  \/ startswith (lit "../") (calculate_relative_path cwd from_file) = true.
Proof.
  intro H. rewrite calculate_relative_path_eq. unfold rel_parts.
  destruct (commonprefix_split (parent from_file) TARGET)
    as (a' & b' & Ha & Hb & _).
  pose proof (commonprefix_length_r (parent from_file) TARGET) as Hr.
  pose proof (commonprefix_length_l (parent from_file) TARGET) as Hl.
  remember (List.length (commonprefix (parent from_file) TARGET)) as i eqn:Hi.
  assert (Hlt : i < 5).
  { destruct (Nat.eq_dec i 5) as [E|E]; [|simpl in Hr; lia].
    exfalso. apply (H a'). rewrite Ha at 1. f_equal.
    rewrite Hb at 2. 
    assert (Hb' : b' = []).
    { apply (f_equal (@List.length str)) in Hb. rewrite length_app, <- Hi, E in Hb.
      simpl in Hb. destruct b'; [reflexivity|simpl in Hb; lia]. }
    now rewrite Hb', app_nil_r. }
  remember (List.length (parent from_file) - i) as k eqn:Hk. clear - Hlt.
  destruct k as [|k].
  - left. cbn [repeat app].
    destruct i as [|[|[|[|[|i]]]]]; try lia; reflexivity.
  - right.
    assert (Hne : repeat (lit "..") (S k) ++ skipn i TARGET <> [lit ".."]).
    { cbn [repeat app]. intro E. injection E as E.
      apply app_eq_nil in E as [_ E].
      destruct i as [|[|[|[|[|i]]]]]; try lia; discriminate. }
    pose proof (repeat_dotdot_start k (skipn i TARGET) Hne) as Hs.
    destruct (repeat (lit "..") (S k) ++ skipn i TARGET) as [|p ps] eqn:E;
      [discriminate|].
    unfold add_dot.
    assert (Hd : startswith [DOT] (join [SLASH] (p :: ps)) = true).
    { apply startswith_inv in Hs as [t ->]. reflexivity. }
    now rewrite Hd.
Qed.

Lemma add_dot_start (s : str) : startswith [DOT] (add_dot s) = true.
Proof.
  unfold add_dot. destruct (startswith [DOT] s) eqn:E; [exact E|reflexivity].
Qed.

(** C7 (as stated): the result would always begin with [./] or [../].
    For a file in a directory [lib/prisma] next to the target module the
    result is [.]. *)
Lemma calculate_relative_path_dot :
  let from_file :=
    [lit "apps"; lit "api-gateway"; lit "src"; lit "lib"; lit "prisma";
     lit "index.ts"] in
  calculate_relative_path [] from_file = lit "."
  /\ startswith (lit "./") (calculate_relative_path [] from_file) = false
  /\ startswith (lit "../") (calculate_relative_path [] from_file) = false.
Proof. vm_compute. repeat split. Qed.

(** C7 (amended): for a path made of plain names (none empty, [.] or
    [..], as [rglob] yields them), the result is the relative path from
    the directory of the file to the target module without its
    extension (as many [..] as the directory has parts below the common
    prefix, then the parts of the target below it, or [.] when there is
    none of either), joined by
    forward slashes and prefixed with [./] when it does not start with a
    dot.  It always begins with a dot, and with [./] or [../] unless the
    file lies in the directory [apps/api-gateway/src/lib/prisma] (the
    result is [.]) or below it (the result is [..], [../..], ...).  For
    [apps/api-gateway/src/routes/users.ts] it is [../lib/prisma]. *)
Theorem calculate_relative_path_spec (cwd from_file : path) :
  plain from_file = true ->
  (forall common ups downs,
      parent from_file = common ++ ups -> TARGET = common ++ downs ->
      (forall x y ups' downs', ups = x :: ups' -> downs = y :: downs' -> x <> y) ->
      calculate_relative_path cwd from_file
      = add_dot (match repeat (lit "..") (List.length ups) ++ downs with
                 | [] => [DOT]
                 | parts => join [SLASH] parts
                 end))
  /\ startswith [DOT] (calculate_relative_path cwd from_file) = true
  /\ (forall extra,
        parent from_file = TARGET ++ extra ->
        calculate_relative_path cwd from_file
        = match extra with
          | [] => [DOT]
          | _ => join [SLASH] (repeat (lit "..") (List.length extra))
          end)
  /\ ((forall extra, parent from_file <> TARGET ++ extra) ->
      startswith (lit "./") (calculate_relative_path cwd from_file) = true
      \/ startswith (lit "../") (calculate_relative_path cwd from_file) = true)
  /\ calculate_relative_path cwd
       [lit "apps"; lit "api-gateway"; lit "src"; lit "routes"; lit "users.ts"]
     = lit "../lib/prisma".
Proof.
  intros _. split; [|split; [|split; [|split]]].
  - intros common ups downs Hp Ht Hd.
    rewrite calculate_relative_path_eq. unfold rel_parts.
    assert (Hc : commonprefix (parent from_file) TARGET = common)
      by (rewrite Hp, Ht; now apply commonprefix_unique).
    rewrite Hc, Hp, length_app.
    replace (List.length common + List.length ups - List.length common)
      with (List.length ups) by lia.
    replace (skipn (List.length common) TARGET) with downs; [reflexivity|].
    now rewrite Ht, skipn_app, skipn_all, Nat.sub_diag.
  - rewrite calculate_relative_path_eq. apply add_dot_start.
  - apply calculate_relative_path_below.
  - apply calculate_relative_path_elsewhere.
  - rewrite calculate_relative_path_eq. reflexivity.
Qed.

Lemma calculate_relative_path_spec_witness :
  calculate_relative_path [lit "home"]
    [lit "apps"; lit "api-gateway"; lit "src"; lit "lib"; lit "prisma"; lit "a";
     lit "index.ts"]
  = lit "..".
Proof.
  apply (proj1 (proj2 (proj2 (calculate_relative_path_spec [lit "home"]
    [lit "apps"; lit "api-gateway"; lit "src"; lit "lib"; lit "prisma"; lit "a";
     lit "index.ts"] eq_refl))) [lit "a"]).
  reflexivity.
Defined.

(** ** Text mode *)

Lemma newlines_out_id (text : str) : newlines_out text = text.
Proof.
  unfold newlines_out, replace_char, os_linesep.
  induction text as [|x text IH]; [reflexivity|].
  simpl. rewrite IH. destruct (N.eqb x NL) eqn:E; [|reflexivity].
  apply N.eqb_eq in E. now subst x.
Qed.

Lemma universal_newlines_cons (x : char) (s : str) :
  universal_newlines (x :: s)
  = if N.eqb x CR then
      match s with
      | y :: s' =>
          if N.eqb y NL then NL :: universal_newlines s'
          else NL :: universal_newlines s
      | [] => [NL]
      end
    else x :: universal_newlines s.
Proof. reflexivity. Qed.

Lemma universal_newlines_app :
  forall n a s,
    List.length a <= n ->
    (forall t, s <> NL :: t) ->
    universal_newlines (a ++ s) = universal_newlines a ++ universal_newlines s.
Proof.
  induction n as [|n IH]; intros a s Hn Hs.
  - destruct a; [reflexivity|simpl in Hn; lia].
  - destruct a as [|x [|y a]]; [reflexivity| |].
    + cbn [app]. rewrite (universal_newlines_cons x s).
      destruct (N.eqb x CR) eqn:Ex.
      * change (universal_newlines [x]) with
            (if N.eqb x CR then [NL] else [x]). rewrite Ex.
        destruct s as [|z s]; [reflexivity|].
        destruct (N.eqb z NL) eqn:E; [|reflexivity].
        apply N.eqb_eq in E. subst z. now destruct (Hs s).
      * change (universal_newlines [x]) with
            (if N.eqb x CR then [NL] else [x]). now rewrite Ex.
    + cbn [app].
      rewrite (universal_newlines_cons x (y :: a ++ s)),
              (universal_newlines_cons x (y :: a)).
      change (y :: a ++ s) with ((y :: a) ++ s).
      simpl in Hn. destruct (N.eqb x CR).
      * destruct (N.eqb y NL).
        -- cbn [app]. f_equal. apply IH; [lia|exact Hs].
        -- cbn [app]. f_equal. apply (IH (y :: a) s); [simpl; lia|exact Hs].
      * cbn [app]. f_equal. apply (IH (y :: a) s); [simpl; lia|exact Hs].
Qed.

Lemma universal_newlines_plain (x b : str) :
  ~ In CR x -> universal_newlines (x ++ b) = x ++ universal_newlines b.
Proof.
  induction x as [|c x IH]; intro H; [reflexivity|].
  cbn [app]. rewrite universal_newlines_cons.
  destruct (N.eqb c CR) eqn:E.
  - apply N.eqb_eq in E. destruct H. now left.
  - f_equal. apply IH. intro F. apply H. now right.
Qed.

(** A text without line ends that occurs in the characters of a file
    occurs in the text read from it. *)
Lemma contains_universal_newlines (x s : str) :
  x <> [] -> ~ In CR x -> ~ In NL x ->
  contains x s = true -> contains x (universal_newlines s) = true.
Proof.
  intros Hne Hcr Hnl H. apply contains_inv in H as (a & b & ->).
  assert (Hs : forall t, x ++ b <> NL :: t).
  { intros t E. destruct x as [|c x]; [contradiction|].
    injection E as -> _. apply Hnl. now left. }
  rewrite (universal_newlines_app (List.length a) a _ (le_n _) Hs).
  rewrite universal_newlines_plain by exact Hcr.
  apply contains_intro.
Qed.

(** ** [replace_prisma_in_file] *)

Ltac run_monad :=
  unfold bind, print, emit, read_file, write_file, ret, raise; cbn [fs trace].

Lemma update_same (f : str -> option str) (p c : str) : update f p c p = Some c.
Proof. unfold update. now rewrite str_eqb_refl. Qed.

Lemma update_other (f : str -> option str) (p c q : str) :
  q <> p -> update f p c q = f q.
Proof. intro H. unfold update. apply str_eqb_neq in H. now rewrite H. Qed.

Lemma bak_differs (p : str) : p ++ BAK <> p.
Proof.
  intro H. apply (f_equal (@List.length char)) in H.
  rewrite length_app in H. simpl in H. lia.
Qed.

(** The file cannot be read. *)
Lemma replace_unreadable (e : env) (filepath : path) (st : state) :
  fs st (file_of e (path_str filepath)) = None ->
  replace_prisma_in_file e filepath st
  = (Raise OSError,
     {| fs := fs st;
        trace := trace st ++ [EPrint (MProcessing (path_str filepath))] |}).
Proof. intro H. unfold replace_prisma_in_file. run_monad. now rewrite H. Qed.

(** The file already imports the singleton. *)
Lemma replace_skipped (e : env) (filepath : path) (st : state) (chars : str) :
  fs st (file_of e (path_str filepath)) = Some chars ->
  already_singleton (universal_newlines chars) = true ->
  replace_prisma_in_file e filepath st
  = (Ok false,
     {| fs := fs st;
        trace := trace st ++ [EPrint (MProcessing (path_str filepath));
                              ERead (path_str filepath);
                              EPrint MAlreadySingleton] |}).
Proof.
  intros H1 H2. unfold replace_prisma_in_file. run_monad. rewrite H1.
  cbn [fs trace]. rewrite H2. cbn [fs trace]. now rewrite <- !app_assoc.
Qed.

(** The transformation changes nothing. *)
Lemma replace_unchanged (e : env) (filepath : path) (st : state) (chars : str) :
  fs st (file_of e (path_str filepath)) = Some chars ->
  already_singleton (universal_newlines chars) = false ->
  transform (calculate_relative_path (cwd e) filepath) (universal_newlines chars)
  = universal_newlines chars ->
  replace_prisma_in_file e filepath st
  = (Ok false,
     {| fs := fs st;
        trace := trace st ++ [EPrint (MProcessing (path_str filepath));
                              ERead (path_str filepath);
                              EPrint MNoChanges] |}).
Proof.
  intros H1 H2 H3. unfold replace_prisma_in_file. run_monad. rewrite H1.
  cbn [fs trace]. rewrite H2, H3, str_eqb_refl. cbn [negb fs trace].
  now rewrite <- !app_assoc.
Qed.

(** The transformation changes the text: the backup is written, then the
    file, and each of the two writes can fail. *)
Lemma replace_changed (e : env) (filepath : path) (st : state) (chars : str) :
  fs st (file_of e (path_str filepath)) = Some chars ->
  already_singleton (universal_newlines chars) = false ->
  transform (calculate_relative_path (cwd e) filepath) (universal_newlines chars)
  <> universal_newlines chars ->
  let p := path_str filepath in
  let content := universal_newlines chars in
  let new := transform (calculate_relative_path (cwd e) filepath) content in
  replace_prisma_in_file e filepath st
  = match write_result e (p ++ BAK) with
    | OpenFails =>
        (Raise OSError,
         {| fs := fs st;
            trace := trace st ++ [EPrint (MProcessing p); ERead p] |})
    | WriteFails n =>
        (Raise OSError,
         {| fs := update (fs st) (file_of e (p ++ BAK)) (firstn n content);
            trace := trace st ++ [EPrint (MProcessing p); ERead p;
                                  EWriteFailed (p ++ BAK) (firstn n content)] |})
    | WriteOk =>
        match write_result e p with
        | OpenFails =>
            (Raise OSError,
             {| fs := update (fs st) (file_of e (p ++ BAK)) content;
                trace := trace st ++ [EPrint (MProcessing p); ERead p;
                                      EWrite (p ++ BAK) content] |})
        | WriteFails n =>
            (Raise OSError,
             {| fs := update (update (fs st) (file_of e (p ++ BAK)) content)
                             (file_of e p) (firstn n new);
                trace := trace st ++ [EPrint (MProcessing p); ERead p;
                                      EWrite (p ++ BAK) content;
                                      EWriteFailed p (firstn n new)] |})
        | WriteOk =>
            (Ok true,
             {| fs := update (update (fs st) (file_of e (p ++ BAK)) content)
                             (file_of e p) new;
                trace := trace st ++ [EPrint (MProcessing p); ERead p;
                                      EWrite (p ++ BAK) content; EWrite p new;
                                      EPrint MUpdated] |})
        end
    end.
Proof.
  intros H1 H2 H3 p content new. subst p content new.
  unfold replace_prisma_in_file. run_monad.
  rewrite H1. cbn [fs trace]. rewrite H2.
  apply str_eqb_neq in H3. rewrite H3. cbn [negb].
  fold BAK. rewrite !newlines_out_id.
  destruct (write_result e (path_str filepath ++ BAK)); cbn [fs trace];
    [|now rewrite <- !app_assoc|now rewrite <- !app_assoc].
  destruct (write_result e (path_str filepath)); cbn [fs trace];
    now rewrite <- !app_assoc.
Qed.

(** C4: a file whose text, as read, contains one of the three recognised
    singleton imports is left as it is: the file system is unchanged,
    nothing is written (so no backup is created), the result is [False],
    and the processing loop does not count the file as updated. *)
Theorem skip_already_migrated
        (e : env) (filepath : path) (st : state) (chars : str) :
  fs st (file_of e (path_str filepath)) = Some chars ->
  contains (lit "from '../lib/prisma'") (universal_newlines chars) = true
  \/ contains (lit "from '../../lib/prisma'") (universal_newlines chars) = true
  \/ contains (lit "from '../../../lib/prisma'") (universal_newlines chars) = true ->
  exists st',
    replace_prisma_in_file e filepath st = (Ok false, st')
    /\ fs st' = fs st
    /\ trace st' = trace st ++ [EPrint (MProcessing (path_str filepath));
                                ERead (path_str filepath);
                                EPrint MAlreadySingleton]
    /\ forall files updated_count,
        process e (filepath :: files) updated_count st
        = process e files updated_count st'.
Proof.
  intros Hfs Hc.
  assert (Ha : already_singleton (universal_newlines chars) = true).
  { unfold already_singleton. destruct Hc as [H|[H|H]]; rewrite H;
      rewrite ?orb_true_r; reflexivity. }
  eexists. split; [apply (replace_skipped e filepath st chars Hfs Ha)|].
  split; [reflexivity|]. split; [reflexivity|].
  intros files n. cbn [process]. unfold bind at 1.
  now rewrite (replace_skipped e filepath st chars Hfs Ha).
Qed.

Lemma skip_already_migrated_witness :
  let p := [lit "apps"; lit "api-gateway"; lit "src"; lit "a.ts"] in
  let chars := lit "import { prisma } from '../lib/prisma';" in
  let e := {| cwd := []; root_exists := true; entries := [[lit "a.ts"]];
              file_of := fun q => q; write_result := fun _ => WriteOk |} in
  let st := {| fs := fun q => if str_eqb q (path_str p) then Some chars else None;
               trace := [] |} in
  exists st',
    replace_prisma_in_file e p st = (Ok false, st') /\ fs st' = fs st.
Proof.
  intros p chars e st.
  destruct (skip_already_migrated e p st chars) as (st' & H1 & H2 & _).
  - reflexivity.
  - left. vm_compute. reflexivity.
  - exists st'. split; [exact H1|exact H2].
Defined.

(** C5 (the code at a failing input): a file with "\r\n" line ends whose
    text the transformation changes.  The backup is written before the
    file is overwritten, but it holds the text as read, with "\n" line
    ends: after the call the characters the file had are neither in the
    file nor in its backup. *)
Theorem backup_of_crlf_file :
  let p := root ++ [lit "a.ts"] in
  let chars :=
    lit "// client" ++ [CR; NL]
      ++ lit "this.prisma = new PrismaClient();" ++ [CR; NL] in
  let e := {| cwd := []; root_exists := true; entries := [[lit "a.ts"]];
              file_of := fun q => q; write_result := fun _ => WriteOk |} in
  let st := {| fs := fun q => if str_eqb q (path_str p) then Some chars else None;
               trace := [] |} in
  fst (replace_prisma_in_file e p st) = Ok true
  /\ trace (snd (replace_prisma_in_file e p st))
     = [EPrint (MProcessing (path_str p)); ERead (path_str p);
        EWrite (path_str p ++ BAK)
               (lit "// client" ++ [NL]
                  ++ lit "this.prisma = new PrismaClient();" ++ [NL]);
        EWrite (path_str p)
               (lit "// client" ++ [NL] ++ lit "this.prisma = prisma;" ++ [NL]);
        EPrint MUpdated]
  /\ fs (snd (replace_prisma_in_file e p st)) (path_str p ++ BAK)
     = Some (lit "// client" ++ [NL]
               ++ lit "this.prisma = new PrismaClient();" ++ [NL])
  /\ fs (snd (replace_prisma_in_file e p st)) (path_str p ++ BAK) <> Some chars
  /\ fs (snd (replace_prisma_in_file e p st)) (path_str p) <> Some chars.
Proof. vm_compute. repeat split; discriminate. Qed.

(** For a file that is neither what its own backup name refers to: the
    file is changed only when its backup has been written completely and
    holds the text read from it; a backup write that fails leaves the
    file as it was; and when the call returns [True] the file holds the
    transformed text. *)
Theorem backup_then_overwrite
        (e : env) (filepath : path) (st : state) (chars : str) r st' :
  let p := path_str filepath in
  let content := universal_newlines chars in
  let new := transform (calculate_relative_path (cwd e) filepath) content in
  file_of e (p ++ BAK) <> file_of e p ->
  fs st (file_of e p) = Some chars ->
  replace_prisma_in_file e filepath st = (r, st') ->
  (fs st' (file_of e p) <> Some chars ->
   fs st' (file_of e (p ++ BAK)) = Some content
   /\ exists evs evs',
       trace st' = trace st ++ evs ++ EWrite (p ++ BAK) content :: evs'
       /\ forall c, ~ In (EWrite p c) evs /\ ~ In (EWriteFailed p c) evs)
  /\ (r = Ok true ->
      new <> content
      /\ fs st' (file_of e p) = Some new
      /\ fs st' (file_of e (p ++ BAK)) = Some content).
Proof.
  intros p content new Hlink Hfs Hrun. subst p content new.
  assert (Hno : forall c,
             ~ In (EWrite (path_str filepath) c)
                  [EPrint (MProcessing (path_str filepath));
                   ERead (path_str filepath)]
             /\ ~ In (EWriteFailed (path_str filepath) c)
                     [EPrint (MProcessing (path_str filepath));
                      ERead (path_str filepath)]).
  { intro c. split; intros [F|[F|[]]]; discriminate F. }
  destruct (already_singleton (universal_newlines chars)) eqn:Ha.
  - rewrite (replace_skipped _ _ _ _ Hfs Ha) in Hrun. injection Hrun as <- <-.
    cbn [fs]. split; [intro H; now destruct H|discriminate].
  - destruct (str_eqb (transform (calculate_relative_path (cwd e) filepath)
                                 (universal_newlines chars))
                      (universal_newlines chars)) eqn:Ht.
    + apply str_eqb_eq in Ht.
      rewrite (replace_unchanged _ _ _ _ Hfs Ha Ht) in Hrun.
      injection Hrun as <- <-. cbn [fs].
      split; [intro H; now destruct H|discriminate].
    + apply str_eqb_neq in Ht.
      rewrite (replace_changed _ _ _ _ Hfs Ha Ht) in Hrun.
      destruct (write_result e (path_str filepath ++ BAK));
        [destruct (write_result e (path_str filepath))| |];
        injection Hrun as <- <-; cbn [fs trace]; split; try discriminate.
      * intros _. split.
        -- rewrite update_other by exact Hlink. apply update_same.
        -- eexists _, _. split; [|exact Hno]. cbn [app]. reflexivity.
      * intros _. split; [exact Ht|]. split; [apply update_same|].
        rewrite update_other by exact Hlink. apply update_same.
      * intro H. exfalso. apply H. rewrite update_other; [exact Hfs|].
        intro E. now apply Hlink.
      * intros _. split.
        -- rewrite update_other by exact Hlink. apply update_same.
        -- eexists _, _. split; [|exact Hno]. cbn [app]. reflexivity.
      * intro H. now destruct H.
      * intro H. exfalso. apply H. rewrite update_other; [exact Hfs|].
        intro E. now apply Hlink.
Qed.

Lemma backup_then_overwrite_witness :
  let p := root ++ [lit "a.ts"] in
  let chars := lit "this.prisma = new PrismaClient();" in
  let e := {| cwd := []; root_exists := true; entries := [[lit "a.ts"]];
              file_of := fun q => q; write_result := fun _ => WriteOk |} in
  let st := {| fs := fun _ => Some chars; trace := [] |} in
  fs (snd (replace_prisma_in_file e p st)) (path_str p ++ BAK) = Some chars.
Proof.
  intros p chars e st.
  destruct (replace_prisma_in_file e p st) as [r st'] eqn:Hrun.
  assert (Hr : r = Ok true).
  { change r with (fst (r, st')). rewrite <- Hrun. vm_compute. reflexivity. }
  destruct (backup_then_overwrite e p st chars r st') as [_ H].
  - vm_compute. discriminate.
  - reflexivity.
  - exact Hrun.
  - destruct (H Hr) as (_ & _ & Hb). cbn [snd]. exact Hb.
Defined.

(** ** The effects of a run *)

Lemma event_ok_mono (fs1 fs2 : list path) (ev : event) :
  (forall f, In f fs1 -> In f fs2) -> event_ok fs1 ev -> event_ok fs2 ev.
Proof.
  intros Hsub. destruct ev as [m|q|q c|q c]; cbn; try tauto.
  - intros (f & Hf & Hq). exists f. split; [now apply Hsub|exact Hq].
  - intros (f & Hf & Hq). exists f. split; [now apply Hsub|exact Hq].
Qed.

Lemma replace_effects (e : env) (filepath : path) (st : state) r st' :
  replace_prisma_in_file e filepath st = (r, st') ->
  exists evs,
    trace st' = trace st ++ evs
    /\ Forall (event_ok [filepath]) evs
    /\ (forall q, q <> file_of e (path_str filepath) ->
                  q <> file_of e (path_str filepath ++ BAK) ->
                  fs st' q = fs st q)
    /\ (r = Ok true \/ r = Ok false \/ r = Raise OSError).
Proof.
  intro Hrun.
  assert (Wp : forall c, event_ok [filepath] (EWrite (path_str filepath) c)).
  { intro c. exists filepath. split; [now left|now left]. }
  assert (Wb : forall c, event_ok [filepath] (EWrite (path_str filepath ++ BAK) c)).
  { intro c. exists filepath. split; [now left|now right]. }
  assert (Fp : forall c, event_ok [filepath] (EWriteFailed (path_str filepath) c)).
  { intro c. exists filepath. split; [now left|now left]. }
  assert (Fb : forall c,
             event_ok [filepath] (EWriteFailed (path_str filepath ++ BAK) c)).
  { intro c. exists filepath. split; [now left|now right]. }
  destruct (fs st (file_of e (path_str filepath))) as [chars|] eqn:Hfs.
  - destruct (already_singleton (universal_newlines chars)) eqn:Ha.
    + rewrite (replace_skipped _ _ _ _ Hfs Ha) in Hrun. injection Hrun as <- <-.
      eexists. split; [reflexivity|]. cbn [fs].
      repeat split; auto. repeat constructor; discriminate.
    + destruct (str_eqb (transform (calculate_relative_path (cwd e) filepath)
                                   (universal_newlines chars))
                        (universal_newlines chars)) eqn:Ht.
      * apply str_eqb_eq in Ht.
        rewrite (replace_unchanged _ _ _ _ Hfs Ha Ht) in Hrun.
        injection Hrun as <- <-.
        eexists. split; [reflexivity|]. cbn [fs].
        repeat split; auto. repeat constructor; discriminate.
      * apply str_eqb_neq in Ht.
        rewrite (replace_changed _ _ _ _ Hfs Ha Ht) in Hrun.
        destruct (write_result e (path_str filepath ++ BAK));
          [destruct (write_result e (path_str filepath))| |];
          injection Hrun as <- <-; (eexists; split; [reflexivity|]); cbn [fs];
          (split; [repeat constructor; try discriminate; auto|]);
          (split; [intros q H1 H2; now rewrite ?update_other|auto]).
  - rewrite (replace_unreadable _ _ _ Hfs) in Hrun. injection Hrun as <- <-.
    eexists. split; [reflexivity|]. cbn [fs].
    repeat split; auto. repeat constructor; discriminate.
Qed.

Lemma process_effects (e : env) :
  forall files updated_count st r st',
    process e files updated_count st = (r, st') ->
    exists evs,
      trace st' = trace st ++ evs
      /\ Forall (event_ok files) evs
      /\ (forall q,
             (forall f, In f files ->
                        q <> file_of e (path_str f)
                        /\ q <> file_of e (path_str f ++ BAK)) ->
             fs st' q = fs st q)
      /\ ((exists n, r = Ok n) \/ r = Raise OSError).
Proof.
  induction files as [|f files IH]; intros n st r st' Hrun.
  - cbn in Hrun. injection Hrun as <- <-. exists [].
    rewrite app_nil_r. repeat split; eauto.
  - cbn [process] in Hrun. unfold bind at 1 in Hrun.
    destruct (replace_prisma_in_file e f st) as [r1 st1] eqn:Hone.
    destruct (replace_effects _ _ _ _ _ Hone) as (evs1 & Ht1 & Hok1 & Hfs1 & Hr1).
    assert (Hok1' : Forall (event_ok (f :: files)) evs1).
    { eapply Forall_impl; [|exact Hok1]. intros ev. apply event_ok_mono.
      intros g [<-|[]]. now left. }
    destruct r1 as [b|ex].
    + destruct (IH _ _ _ _ Hrun) as (evs2 & Ht2 & Hok2 & Hfs2 & Hr2).
      exists (evs1 ++ evs2). repeat split.
      * now rewrite Ht2, Ht1, app_assoc.
      * apply Forall_app. split; [exact Hok1'|].
        eapply Forall_impl; [|exact Hok2]. intros ev. apply event_ok_mono.
        intros g Hg. now right.
      * intros q Hq. rewrite Hfs2 by (intros g Hg; apply Hq; now right).
        apply Hfs1; apply (Hq f); now left.
      * exact Hr2.
    + injection Hrun as <- <-. exists evs1. repeat split; try assumption.
      * intros q Hq. apply Hfs1; apply (Hq f); now left.
      * right. destruct Hr1 as [H|[H|H]]; congruence.
Qed.

Lemma discover_step_eq (e : env) (acc : list path) (ts_file : path) (st : state) :
  discover_step e acc ts_file st
  = (Ok (if is_candidate e (fs st) ts_file then acc ++ [ts_file] else acc),
     {| fs := fs st;
        trace := trace st ++ discover_events e (fs st) [ts_file] |}).
Proof.
  unfold discover_step, is_candidate, discover_events. cbn [flat_map].
  destruct (excluded ts_file); cbn [negb andb].
  - unfold ret. rewrite !app_nil_r. now destruct st.
  - unfold try_except. run_monad.
    destruct (fs st (file_of e (path_str ts_file))) as [chars|] eqn:Hfs.
    + fold PATTERN. now destruct (contains PATTERN (universal_newlines chars)).
    + reflexivity.
Qed.

Lemma discover_eq (e : env) (todo acc : list path) (st : state) :
  discover e todo acc st
  = (Ok (acc ++ filter (is_candidate e (fs st)) todo),
     {| fs := fs st; trace := trace st ++ discover_events e (fs st) todo |}).
Proof.
  revert acc st. induction todo as [|f todo IH]; intros acc st.
  - cbn. unfold ret. rewrite !app_nil_r. now destruct st.
  - cbn [discover]. unfold bind at 1. rewrite discover_step_eq, IH.
    cbn [fs trace filter]. f_equal.
    + destruct (is_candidate e (fs st) f); [now rewrite <- app_assoc|reflexivity].
    + f_equal. rewrite <- app_assoc. f_equal.
      unfold discover_events. cbn [flat_map]. now rewrite app_nil_r.
Qed.

Lemma discover_events_kind (e : env) (files : str -> option str)
      (todo : list path) :
  Forall (fun ev => is_write ev = false
                    /\ event_ok [] ev
                    /\ forall u n, ev <> EPrint (MComplete u n))
         (discover_events e files todo).
Proof.
  unfold discover_events. induction todo as [|f todo IH]; [constructor|].
  cbn [flat_map]. apply Forall_app. split; [|exact IH].
  destruct (excluded f); [constructor|].
  destruct (files (file_of e (path_str f))); repeat constructor; discriminate.
Qed.

(** The run with the root directory present, step by step. *)
Lemma main_steps (e : env) (st : state) :
  root_exists e = true ->
  let st1 := {| fs := fs st;
                trace := (trace st ++ discover_events e (fs st) (rglob_ts e))
                           ++ [EPrint (MFound (List.length (candidates e st)))] |} in
  main e st
  = match process e (candidates e st) 0 st1 with
    | (Ok n, st2) =>
        (Ok tt,
         {| fs := fs st2;
            trace := (trace st2
                        ++ [EPrint (MComplete n (List.length (candidates e st)))])
                       ++ [EPrint MBackupNote] |})
    | (Raise ex, st2) => (Raise ex, st2)
    end.
Proof.
  intros Hroot st1. unfold main. rewrite Hroot. cbn [negb].
  unfold bind at 1. rewrite discover_eq. cbn [app].
  fold (candidates e st). unfold bind at 1, print at 1, emit at 1.
  cbn [fs trace]. unfold bind at 1. fold st1.
  destruct (process e (candidates e st) 0 st1) as [[n|ex] st2]; reflexivity.
Qed.

(** A run with the root directory present: what it prints, what it may
    write, and how it may end. *)
Lemma main_effects (e : env) (st : state) r st' :
  root_exists e = true ->
  main e st = (r, st') ->
  exists evs,
    trace st' = trace st ++ evs
    /\ Forall (event_ok (candidates e st)) evs
    /\ In (EPrint (MFound (List.length (candidates e st)))) evs
    /\ (forall q,
           (forall f, In f (candidates e st) ->
                      q <> file_of e (path_str f)
                      /\ q <> file_of e (path_str f ++ BAK)) ->
           fs st' q = fs st q)
    /\ (r = Ok tt \/ r = Raise OSError).
Proof.
  intros Hroot Hrun. rewrite (main_steps e st Hroot) in Hrun.
  destruct (process e (candidates e st) 0 _) as [r2 st2] eqn:Hproc.
  destruct (process_effects _ _ _ _ _ _ Hproc) as (evs2 & Ht2 & Hok2 & Hfs2 & Hr2).
  cbn [fs trace] in Ht2, Hfs2.
  assert (Hok1 : Forall (event_ok (candidates e st))
                        (discover_events e (fs st) (rglob_ts e))).
  { eapply Forall_impl; [|apply discover_events_kind]. cbn beta.
    intros ev (_ & H & _). revert H. apply event_ok_mono. intros f []. }
  destruct r2 as [n|ex]; injection Hrun as <- <-; cbn [fs trace].
  - exists (discover_events e (fs st) (rglob_ts e)
              ++ [EPrint (MFound (List.length (candidates e st)))] ++ evs2
              ++ [EPrint (MComplete n (List.length (candidates e st)));
                  EPrint MBackupNote]).
    repeat split.
    + rewrite Ht2. now rewrite <- !app_assoc.
    + apply Forall_app. split; [exact Hok1|].
      apply Forall_app. split; [repeat constructor; discriminate|].
      apply Forall_app. split; [exact Hok2|repeat constructor; discriminate].
    + apply in_or_app. right. now left.
    + exact Hfs2.
    + now left.
  - exists (discover_events e (fs st) (rglob_ts e)
              ++ [EPrint (MFound (List.length (candidates e st)))] ++ evs2).
    repeat split.
    + rewrite Ht2. now rewrite <- !app_assoc.
    + apply Forall_app. split; [exact Hok1|].
      apply Forall_app. split; [repeat constructor; discriminate|exact Hok2].
    + apply in_or_app. right. now left.
    + exact Hfs2.
    + right. destruct Hr2 as [[n Hn]|H]; congruence.
Qed.

(** ** Discovery and the whole run *)

Lemma join_last (sep : str) (ps : list str) (name : str) :
  exists before, join sep (ps ++ [name]) = before ++ name.
Proof.
  induction ps as [|p ps (before & IH)].
  - now exists [].
  - cbn [app join]. destruct (ps ++ [name]) as [|q qs] eqn:E.
    + now destruct ps.
    + rewrite IH. exists (p ++ sep ++ before). now rewrite <- !app_assoc.
Qed.

Lemma endswith_app (suffix before name : str) :
  endswith suffix name = true -> endswith suffix (before ++ name) = true.
Proof.
  unfold endswith. intro H. rewrite rev_app_distr. now apply startswith_app_l.
Qed.

(** What [rglob('*.ts')] yields has a path that ends in [.ts]. *)
Lemma rglob_ts_suffix (e : env) (ts_file : path) :
  In ts_file (rglob_ts e) -> endswith (lit ".ts") (path_str ts_file) = true.
Proof.
  unfold rglob_ts. intro H. apply in_map_iff in H as (rel & <- & H).
  apply filter_In in H as [_ H].
  destruct (exists_last (l := rel)) as (dirs & name & ->).
  { intros ->. discriminate H. }
  rewrite last_last in H. rewrite app_assoc.
  unfold path_str. destruct ((root ++ dirs) ++ [name]) eqn:E.
  { now destruct (root ++ dirs). }
  rewrite <- E. destruct (join_last [SLASH] (root ++ dirs) name) as (before & ->).
  now apply endswith_app.
Qed.

Lemma ts_is_not_bak (q p : str) :
  endswith (lit ".ts") q = true -> q <> p ++ BAK.
Proof.
  intros H ->. unfold endswith in H. rewrite rev_app_distr in H.
  discriminate H.
Qed.

Lemma is_candidate_path (e : env) (files : str -> option str) (f g : path) :
  path_str f = path_str g -> is_candidate e files f = is_candidate e files g.
Proof. intro H. unfold is_candidate, excluded. now rewrite H. Qed.

(** What discovery keeps: a file of the walk, not excluded, whose text as
    read contains the pattern. *)
Lemma candidates_inv (e : env) (st : state) (f : path) :
  In f (candidates e st) ->
  In f (rglob_ts e)
  /\ excluded f = false
  /\ exists chars,
      fs st (file_of e (path_str f)) = Some chars
      /\ contains PATTERN (universal_newlines chars) = true.
Proof.
  unfold candidates. intro H. apply filter_In in H as [Hin H].
  unfold is_candidate in H. apply andb_true_iff in H as [Hx H].
  split; [exact Hin|]. split; [now apply negb_true_iff|].
  destruct (fs st (file_of e (path_str f))) as [chars|]; [|discriminate].
  now exists chars.
Qed.

(** A file that no candidate's name and no candidate's backup name refers
    to is left as it is by a run, and no write is addressed to it. *)
Lemma main_frame (e : env) (st : state) r st' (file : str) :
  main e st = (r, st') ->
  (forall f, In f (candidates e st) ->
             file_of e (path_str f) <> file
             /\ file_of e (path_str f ++ BAK) <> file) ->
  fs st' file = fs st file
  /\ exists evs,
      trace st' = trace st ++ evs
      /\ (forall q c, file_of e q = file ->
                      ~ In (EWrite q c) evs /\ ~ In (EWriteFailed q c) evs)
      /\ (root_exists e = true ->
          In (EPrint (MFound (List.length (candidates e st)))) evs).
Proof.
  intros Hrun Hother.
  destruct (root_exists e) eqn:Hroot.
  - destruct (main_effects _ _ _ _ Hroot Hrun) as (evs & Ht & Hok & Hfound & Hfs & _).
    split.
    { apply Hfs. intros f Hf. destruct (Hother f Hf) as [N1 N2].
      split; intro E; [now apply N1|now apply N2]. }
    exists evs. split; [exact Ht|]. split; [|auto].
    rewrite Forall_forall in Hok.
    intros q c Hq. split; intro Hw; destruct (Hok _ Hw) as (f & Hf & Hp);
      destruct (Hother f Hf) as [N1 N2]; destruct Hp as [-> | ->]; contradiction.
  - unfold main in Hrun. rewrite Hroot in Hrun. cbn in Hrun.
    injection Hrun as <- <-. cbn [fs trace]. split; [reflexivity|].
    eexists. split; [reflexivity|]. split; [|discriminate].
    intros q c _. split; intros [F|[]]; discriminate F.
Qed.

(** The message with the number of candidates is printed whenever the
    root directory exists. *)
Lemma main_found (e : env) (st : state) r st' :
  main e st = (r, st') ->
  exists evs,
    trace st' = trace st ++ evs
    /\ (root_exists e = true ->
        In (EPrint (MFound (List.length (candidates e st)))) evs).
Proof.
  intro Hrun. destruct (root_exists e) eqn:Hroot.
  - destruct (main_effects _ _ _ _ Hroot Hrun) as (evs & Ht & _ & Hfound & _).
    exists evs. auto.
  - unfold main in Hrun. rewrite Hroot in Hrun. cbn in Hrun.
    injection Hrun as <- <-. cbn [trace]. eexists. split; [reflexivity|].
    discriminate.
Qed.

(** Without links, a [*.ts] file of the walk that discovery does not keep
    is not what a candidate's name or backup name refers to. *)
Lemma walked_file_unlinked (e : env) (st : state) (ts_file : path) :
  (forall q, file_of e q = q) ->
  In ts_file (rglob_ts e) ->
  is_candidate e (fs st) ts_file = false ->
  forall f, In f (candidates e st) ->
            file_of e (path_str f) <> file_of e (path_str ts_file)
            /\ file_of e (path_str f ++ BAK) <> file_of e (path_str ts_file).
Proof.
  intros Hid Hin Hc f Hf. rewrite !Hid.
  unfold candidates in Hf. apply filter_In in Hf as [_ Hf]. split.
  - intro E. rewrite (is_candidate_path _ _ _ _ E) in Hf. congruence.
  - intro E. symmetry in E. revert E. apply ts_is_not_bak.
    now apply (rglob_ts_suffix e).
Qed.

(** C6 (as stated): a file whose path contains [test] is changed by a run
    in which a candidate's name is a link to it; and a file whose text
    does not contain the pattern is changed by a run in which it is the
    backup name of a candidate. *)
Lemma exclusion_not_kept :
  (let excl := root ++ [lit "a.test.ts"] in
   let e := {| cwd := []; root_exists := true;
               entries := [[lit "a.test.ts"]; [lit "b.ts"]];
               file_of := fun q => if str_eqb q (path_str (root ++ [lit "b.ts"]))
                                   then path_str excl else q;
               write_result := fun _ => WriteOk |} in
   let st := {| fs := fun q => if str_eqb q (path_str excl)
                               then Some (lit "this.prisma = new PrismaClient();")
                               else None;
                trace := [] |} in
   contains (lit "test") (path_str excl) = true
   /\ ~ In excl (candidates e st)
   /\ fs st (file_of e (path_str excl))
      = Some (lit "this.prisma = new PrismaClient();")
   /\ fs (snd (main e st)) (file_of e (path_str excl))
      = Some (lit "this.prisma = prisma;"))
  /\ (let old := root ++ [lit "b.ts.bak"] in
      let e := {| cwd := []; root_exists := true; entries := [[lit "b.ts"]];
                  file_of := fun q => q; write_result := fun _ => WriteOk |} in
      let st := {| fs := fun q => if str_eqb q (path_str old)
                                  then Some (lit "export {};")
                                  else Some (lit "this.prisma = new PrismaClient();");
                   trace := [] |} in
      contains PATTERN (lit "export {};") = false
      /\ candidates e st = [root ++ [lit "b.ts"]]
      /\ fs st (file_of e (path_str old)) = Some (lit "export {};")
      /\ fs (snd (main e st)) (file_of e (path_str old))
         = Some (lit "this.prisma = new PrismaClient();")).
Proof.
  split.
  - vm_compute. repeat split. intros [F|[]]. discriminate F.
  - vm_compute. repeat split.
Qed.

(** C6 (amended): a file whose path contains one of the excluded markers,
    or whose text as read does not contain [new PrismaClient()], is not
    among the files to process and is not part of the number of files the
    run reports as found; and when no candidate's name or backup name
    refers to it, the run leaves it as it is and addresses no write to
    it. *)
Theorem exclusion_correct (e : env) (st : state) r st' (ts_file : path) :
  main e st = (r, st') ->
  (exists x, In x markers /\ contains x (path_str ts_file) = true)
  \/ (exists chars,
         fs st (file_of e (path_str ts_file)) = Some chars
         /\ contains PATTERN (universal_newlines chars) = false) ->
  ~ In ts_file (candidates e st)
  /\ (exists evs,
         trace st' = trace st ++ evs
         /\ (root_exists e = true ->
             In (EPrint (MFound (List.length (candidates e st)))) evs))
  /\ ((forall f, In f (candidates e st) ->
                 file_of e (path_str f) <> file_of e (path_str ts_file)
                 /\ file_of e (path_str f ++ BAK) <> file_of e (path_str ts_file)) ->
      fs st' (file_of e (path_str ts_file)) = fs st (file_of e (path_str ts_file))
      /\ exists evs,
          trace st' = trace st ++ evs
          /\ forall q c, file_of e q = file_of e (path_str ts_file) ->
                         ~ In (EWrite q c) evs /\ ~ In (EWriteFailed q c) evs).
Proof.
  intros Hrun Hex.
  assert (Hc : is_candidate e (fs st) ts_file = false).
  { unfold is_candidate. destruct Hex as [(x & Hx & Hc)|(chars & Hfs & Hc)].
    - assert (E : excluded ts_file = true).
      { unfold excluded. apply existsb_exists. now exists x. }
      now rewrite E.
    - rewrite Hfs, Hc. apply andb_false_r. }
  split.
  { unfold candidates. intro H. apply filter_In in H as [_ H]. congruence. }
  split; [exact (main_found e st r st' Hrun)|].
  intro Hlink.
  destruct (main_frame e st r st' _ Hrun Hlink) as (Hfs & evs & Ht & Hw & _).
  split; [exact Hfs|]. exists evs. split; [exact Ht|exact Hw].
Qed.

Lemma exclusion_correct_witness :
  let e := {| cwd := []; root_exists := true;
              entries := [[lit "a.test.ts"]; [lit "b.ts"]];
              file_of := fun q => q; write_result := fun _ => WriteOk |} in
  let st := {| fs := fun _ => Some (lit "this.prisma = new PrismaClient();");
               trace := [] |} in
  let ts_file := root ++ [lit "a.test.ts"] in
  fs (snd (main e st)) (path_str ts_file)
  = Some (lit "this.prisma = new PrismaClient();").
Proof.
  intros e st ts_file. destruct (main e st) as [r st'] eqn:Hrun.
  destruct (exclusion_correct e st r st' ts_file Hrun) as (_ & _ & H).
  - left. exists (lit "test"). split; [left; reflexivity|vm_compute; reflexivity].
  - destruct H as [H _].
    + intros f Hf. vm_compute in Hf. destruct Hf as [<-|[]].
      split; vm_compute; discriminate.
    + cbn [snd]. exact H.
Defined.

(** C8: without the root directory the run prints the message about it
    and exits with status 1, having read and written nothing; with the
    root directory present that message is not printed and the run does
    not exit that way. *)
Theorem missing_root_fatal (e : env) (st : state) :
  (root_exists e = false ->
   main e st
   = (Raise (SystemExit 1),
      {| fs := fs st; trace := trace st ++ [EPrint MRootNotFound] |}))
  /\ (root_exists e = true ->
      forall r st',
        main e st = (r, st') ->
        (forall code, r <> Raise (SystemExit code))
        /\ exists evs,
            trace st' = trace st ++ evs /\ ~ In (EPrint MRootNotFound) evs).
Proof.
  split.
  - intro H. unfold main. now rewrite H.
  - intros H r st' Hrun.
    destruct (main_effects _ _ _ _ H Hrun) as (evs & Ht & Hok & _ & _ & Hr).
    split.
    + intro code. destruct Hr as [-> | ->]; discriminate.
    + exists evs. split; [exact Ht|]. intro Hin.
      rewrite Forall_forall in Hok. now apply (Hok _ Hin).
Qed.

Lemma missing_root_fatal_witness :
  let e := {| cwd := []; root_exists := false; entries := [[lit "b.ts"]];
              file_of := fun q => q; write_result := fun _ => WriteOk |} in
  let st := {| fs := fun _ => Some (lit "this.prisma = new PrismaClient();");
               trace := [] |} in
  fst (main e st) = Raise (SystemExit 1)
  /\ trace (snd (main e st)) = [EPrint MRootNotFound].
Proof.
  intros e st.
  rewrite (proj1 (missing_root_fatal e st) eq_refl). split; reflexivity.
Defined.

(** C9: a candidate file can be updated without being migrated.  The file
    imports [@prisma/client] and constructs its client under the name
    [db]: the singleton import is inserted, so the text changes, the
    backup and the file are written and the file is counted as updated,
    and [new PrismaClient()] occurs in the new text as often as before. *)
Theorem update_without_migration :
  exists (e : env) (st : state) (filepath : path) (content new : str),
    fs st (file_of e (path_str filepath)) = Some content
    /\ universal_newlines content = content
    /\ contains (lit "from '@prisma/client';") content = true
    /\ content
       = lit "import { PrismaClient } from '@prisma/client';" ++ [NL]
           ++ lit "const db = new PrismaClient();" ++ [NL]
    /\ candidates e st = [filepath]
    /\ transform (calculate_relative_path (cwd e) filepath) content = new
    /\ new
       = lit "import { PrismaClient } from '@prisma/client';" ++ [NL]
           ++ lit "import { prisma } from '../lib/prisma';" ++ [NL]
           ++ lit "const db = new PrismaClient();" ++ [NL]
    /\ new <> content
    /\ count_occ PATTERN content = 1
    /\ count_occ PATTERN new = 1
    /\ fst (main e st) = Ok tt
    /\ trace (snd (main e st))
       = [ERead (path_str filepath); EPrint (MFound 1);
          EPrint (MProcessing (path_str filepath)); ERead (path_str filepath);
          EWrite (path_str filepath ++ BAK) content;
          EWrite (path_str filepath) new; EPrint MUpdated;
          EPrint (MComplete 1 1); EPrint MBackupNote]
    /\ fs (snd (main e st)) (file_of e (path_str filepath)) = Some new
    /\ fs (snd (main e st)) (file_of e (path_str filepath ++ BAK)) = Some content.
Proof.
  pose (filepath := root ++ [lit "services"; lit "foo.ts"]).
  pose (content :=
          lit "import { PrismaClient } from '@prisma/client';" ++ [NL]
            ++ lit "const db = new PrismaClient();" ++ [NL]).
  exists {| cwd := []; root_exists := true;
            entries := [[lit "services"; lit "foo.ts"]];
            file_of := fun q => q; write_result := fun _ => WriteOk |},
         {| fs := fun q => if str_eqb q (path_str filepath)
                           then Some content else None;
            trace := [] |},
         filepath, content,
         (lit "import { PrismaClient } from '@prisma/client';" ++ [NL]
            ++ lit "import { prisma } from '../lib/prisma';" ++ [NL]
            ++ lit "const db = new PrismaClient();" ++ [NL]).
  vm_compute. repeat split. discriminate.
Qed.

(** C10 (as stated): a file whose text does not contain the pattern is
    changed by a run.  The file is the backup name of a candidate; it
    holds a text with a singleton import four levels up, as an earlier
    run could have left it in a file. *)
Lemma no_pattern_backup_overwritten :
  let old := root ++ [lit "b.ts.bak"] in
  let deep :=
    lit "import { prisma } from '../../../../lib/prisma';" ++ [NL]
      ++ lit "export const db = prisma;" ++ [NL] in
  let e := {| cwd := []; root_exists := true; entries := [[lit "b.ts"]];
              file_of := fun q => q; write_result := fun _ => WriteOk |} in
  let st := {| fs := fun q => if str_eqb q (path_str old) then Some deep
                              else Some (lit "this.prisma = new PrismaClient();");
               trace := [] |} in
  fs st (path_str old) = Some deep
  /\ contains PATTERN deep = false
  /\ (forall f, In f (candidates e st) -> path_str f <> path_str old)
  /\ fs (snd (main e st)) (path_str old)
     = Some (lit "this.prisma = new PrismaClient();")
  /\ fs (snd (main e st)) (path_str old) <> fs st (path_str old).
Proof.
  vm_compute. repeat split; try discriminate.
  intros f [<-|[]]. discriminate.
Qed.

(** C10 (amended): a file whose text as read does not contain
    [new PrismaClient()], and which is not what the backup name of a
    [*.ts] file of the walk refers to, is not selected by a run under any
    name, is not written and keeps its characters, and so again in the
    run after it, whatever its imports are.  This is what protects a file
    whose singleton import has a depth the skip test does not know: for
    such a text the skip test is false and the transformation would
    change it. *)
Theorem no_pattern_never_selected
        (e : env) (st : state) (file : str) (chars : str) :
  fs st file = Some chars ->
  contains PATTERN (universal_newlines chars) = false ->
  (forall f, In f (rglob_ts e) -> file_of e (path_str f ++ BAK) <> file) ->
  (forall r st',
      main e st = (r, st') ->
      (forall f, In f (candidates e st) -> file_of e (path_str f) <> file)
      /\ fs st' file = Some chars
      /\ (exists evs,
             trace st' = trace st ++ evs
             /\ forall q c, file_of e q = file ->
                            ~ In (EWrite q c) evs /\ ~ In (EWriteFailed q c) evs)
      /\ forall r2 st2,
          main e st' = (r2, st2) ->
          (forall f, In f (candidates e st') -> file_of e (path_str f) <> file)
          /\ fs st2 file = Some chars)
  /\ let deep :=
       lit "import { prisma } from '../../../../lib/prisma';" ++ [NL]
         ++ lit "export const db = prisma;" ++ [NL] in
     contains PATTERN deep = false
     /\ already_singleton deep = false
     /\ transform (lit "../../../../lib/prisma") deep <> deep.
Proof.
  intros Hfs Hc Hbak. split.
  - assert (Hsel : forall s, fs s file = Some chars ->
               forall f, In f (candidates e s) ->
                         file_of e (path_str f) <> file
                         /\ file_of e (path_str f ++ BAK) <> file).
    { intros s Hs f Hf.
      destruct (candidates_inv _ _ _ Hf) as (Hin & _ & chars' & Hf1 & Hf2).
      split; [|now apply Hbak].
      intro E. rewrite E, Hs in Hf1. injection Hf1 as <-. congruence. }
    intros r st' Hrun.
    destruct (main_frame e st r st' file Hrun (Hsel st Hfs))
      as (H2 & evs & Ht & Hw & _).
    rewrite Hfs in H2.
    split; [intros f Hf; apply (Hsel st Hfs f Hf)|].
    split; [exact H2|]. split; [now exists evs|].
    intros r2 st2 Hrun2.
    destruct (main_frame e st' r2 st2 file Hrun2 (Hsel st' H2)) as (K2 & _).
    split; [intros f Hf; apply (Hsel st' H2 f Hf)|]. now rewrite K2.
  - split; [vm_compute; reflexivity|]. split; [vm_compute; reflexivity|].
    vm_compute. discriminate.
Qed.

Lemma no_pattern_never_selected_witness :
  let e := {| cwd := []; root_exists := true;
              entries := [[lit "a.ts"]; [lit "b.ts"]];
              file_of := fun q => q; write_result := fun _ => WriteOk |} in
  let st := {| fs := fun q =>
                       if str_eqb q (path_str (root ++ [lit "a.ts"]))
                       then Some (lit "export const db = prisma;")
                       else Some (lit "this.prisma = new PrismaClient();");
               trace := [] |} in
  fs (snd (main e st)) (path_str (root ++ [lit "a.ts"]))
  = Some (lit "export const db = prisma;").
Proof.
  intros e st. destruct (main e st) as [r st'] eqn:Hrun.
  destruct (no_pattern_never_selected e st (path_str (root ++ [lit "a.ts"]))
              (lit "export const db = prisma;")) as [H _].
  - reflexivity.
  - vm_compute. reflexivity.
  - intros f Hf. vm_compute in Hf. destruct Hf as [<-|[<-|[]]];
      vm_compute; discriminate.
  - destruct (H r st' Hrun) as (_ & H2 & _). exact H2.
Defined.

(** ** Further properties of discovery and of the run *)




Lemma count_writes_app (a b : list event) :
  count_writes (a ++ b) = count_writes a + count_writes b.
Proof. unfold count_writes. now rewrite filter_app, length_app. Qed.

(** The events of one file: two writes when it is updated, none when it
    is not. *)
Lemma replace_trace (e : env) (filepath : path) (st : state) r st' :
  replace_prisma_in_file e filepath st = (r, st') ->
  exists evs,
    trace st' = trace st ++ evs
    /\ Forall (fun ev => is_file_event ev = true) evs
    /\ (r = Ok true -> count_writes evs = 2)
    /\ (r = Ok false -> count_writes evs = 0).
Proof.
  intro Hrun.
  destruct (fs st (file_of e (path_str filepath))) as [chars|] eqn:Hfs.
  - destruct (already_singleton (universal_newlines chars)) eqn:Ha.
    + rewrite (replace_skipped _ _ _ _ Hfs Ha) in Hrun. injection Hrun as <- <-.
      eexists. split; [reflexivity|]. repeat split; try discriminate.
      repeat constructor.
    + destruct (str_eqb (transform (calculate_relative_path (cwd e) filepath)
                                   (universal_newlines chars))
                        (universal_newlines chars)) eqn:Ht.
      * apply str_eqb_eq in Ht.
        rewrite (replace_unchanged _ _ _ _ Hfs Ha Ht) in Hrun.
        injection Hrun as <- <-.
        eexists. split; [reflexivity|]. repeat split; try discriminate.
        repeat constructor.
      * apply str_eqb_neq in Ht.
        rewrite (replace_changed _ _ _ _ Hfs Ha Ht) in Hrun.
        destruct (write_result e (path_str filepath ++ BAK));
          [destruct (write_result e (path_str filepath))| |];
          injection Hrun as <- <-; (eexists; split; [reflexivity|]);
          repeat split; try discriminate; repeat constructor.
  - rewrite (replace_unreadable _ _ _ Hfs) in Hrun. injection Hrun as <- <-.
    eexists. split; [reflexivity|]. repeat split; try discriminate.
    repeat constructor.
Qed.

Lemma process_trace (e : env) :
  forall files updated_count st r st',
    process e files updated_count st = (r, st') ->
    exists evs,
      trace st' = trace st ++ evs
      /\ Forall (fun ev => is_file_event ev = true) evs
      /\ forall n, r = Ok n ->
                   updated_count <= n <= updated_count + List.length files
                   /\ count_writes evs = 2 * (n - updated_count).
Proof.
  induction files as [|f files IH]; intros n0 st r st' Hrun.
  - cbn in Hrun. injection Hrun as <- <-. exists [].
    rewrite app_nil_r. repeat split; try constructor;
      injection H as <-; cbn; lia.
  - cbn [process] in Hrun. unfold bind at 1 in Hrun.
    destruct (replace_prisma_in_file e f st) as [r1 st1] eqn:Hone.
    destruct (replace_trace _ _ _ _ _ Hone) as (evs1 & Ht1 & Hk1 & Hw2 & Hw0).
    destruct r1 as [b|ex].
    + destruct (IH _ _ _ _ Hrun) as (evs2 & Ht2 & Hk2 & Hn).
      exists (evs1 ++ evs2). split; [now rewrite Ht2, Ht1, app_assoc|].
      split; [now apply Forall_app|].
      intros n Hr. destruct (Hn n Hr) as [Hb Hc].
      rewrite count_writes_app, Hc. cbn [List.length].
      destruct b; [rewrite (Hw2 eq_refl)|rewrite (Hw0 eq_refl)]; lia.
    + injection Hrun as <- <-. exists evs1.
      split; [exact Ht1|]. split; [exact Hk1|]. discriminate.
Qed.

Lemma count_writes_none (evs : list event) :
  Forall (fun ev => is_write ev = false) evs -> count_writes evs = 0.
Proof.
  unfold count_writes. induction 1 as [|ev evs H _ IH]; [reflexivity|].
  cbn. now rewrite H.
Qed.

(** A run that ends normally ends with the summary: the number of files
    found is the number of candidates, the number of updated files is at
    most that, and the run has made two writes for each updated file;
    a run that a failed write has stopped prints no summary. *)
Theorem main_summary (e : env) (st : state) r st' :
  root_exists e = true ->
  main e st = (r, st') ->
  (r = Ok tt ->
   exists evs updated,
     trace st' = trace st ++ evs
                   ++ [EPrint (MComplete updated (List.length (candidates e st)));
                       EPrint MBackupNote]
     /\ updated <= List.length (candidates e st)
     /\ count_writes evs = 2 * updated)
  /\ (r <> Ok tt ->
      exists evs,
        trace st' = trace st ++ evs
        /\ forall u n, ~ In (EPrint (MComplete u n)) evs).
Proof.
  intros Hroot Hrun. rewrite (main_steps e st Hroot) in Hrun.
  destruct (process e (candidates e st) 0 _) as [r2 st2] eqn:Hproc.
  destruct (process_trace _ _ _ _ _ _ Hproc) as (evs2 & Ht2 & Hk2 & Hn).
  cbn [trace] in Ht2.
  pose proof (discover_events_kind e (fs st) (rglob_ts e)) as Hd.
  destruct r2 as [n|ex]; injection Hrun as <- <-; cbn [trace]; split.
  - intros _. destruct (Hn n eq_refl) as [Hb Hc].
    exists (discover_events e (fs st) (rglob_ts e)
              ++ [EPrint (MFound (List.length (candidates e st)))] ++ evs2), n.
    split; [rewrite Ht2; now rewrite <- !app_assoc|].
    split; [lia|].
    rewrite !count_writes_app, Hc, count_writes_none.
    + cbn. lia.
    + eapply Forall_impl; [|exact Hd]. now intros ev [H _].
  - intro H. now destruct H.
  - discriminate.
  - intros _.
    exists (discover_events e (fs st) (rglob_ts e)
              ++ [EPrint (MFound (List.length (candidates e st)))] ++ evs2).
    split; [rewrite Ht2; now rewrite <- !app_assoc|].
    intros u n Hin. apply in_app_or in Hin as [Hin|Hin].
    + rewrite Forall_forall in Hd. now apply (proj2 (proj2 (Hd _ Hin)) u n).
    + destruct Hin as [Hin|Hin]; [discriminate|].
      rewrite Forall_forall in Hk2. specialize (Hk2 _ Hin). discriminate.
Qed.

Lemma main_summary_witness :
  let e := {| cwd := []; root_exists := true;
              entries := [[lit "a.ts"]; [lit "b.test.ts"]];
              file_of := fun q => q; write_result := fun _ => WriteOk |} in
  let st := {| fs := fun _ => Some (lit "this.prisma = new PrismaClient();");
               trace := [] |} in
  exists evs updated,
    trace (snd (main e st))
    = evs ++ [EPrint (MComplete updated 1); EPrint MBackupNote]
    /\ updated <= 1 /\ count_writes evs = 2 * updated.
Proof.
  intros e st. destruct (main e st) as [r st'] eqn:Hrun.
  assert (Hr : r = Ok tt).
  { change r with (fst (r, st')). rewrite <- Hrun. vm_compute. reflexivity. }
  destruct (main_summary e st r st' eq_refl Hrun) as [H _].
  destruct (H Hr) as (evs & updated & Ht & Hu & Hc).
  exists evs, updated. cbn [snd]. split; [exact Ht|]. split; assumption.
Defined.

(** ** Files with names and backup names that refer to distinct files *)

Lemma in_names (e : env) (files : list path) (h : path) :
  In h files ->
  In (file_of e (path_str h)) (map (file_of e) (names_and_backups files))
  /\ In (file_of e (path_str h ++ BAK))
        (map (file_of e) (names_and_backups files)).
Proof.
  intro Hh. unfold names_and_backups.
  split; apply in_map; apply in_flat_map; exists h;
    (split; [exact Hh|]); [now left|right; now left].
Qed.

Lemma distinct_head (e : env) (g : path) (files : list path) :
  NoDup (map (file_of e) (names_and_backups (g :: files))) ->
  file_of e (path_str g ++ BAK) <> file_of e (path_str g)
  /\ (forall h q,
         In h files ->
         q = file_of e (path_str g) \/ q = file_of e (path_str g ++ BAK) ->
         q <> file_of e (path_str h) /\ q <> file_of e (path_str h ++ BAK))
  /\ NoDup (map (file_of e) (names_and_backups files)).
Proof.
  intro H. change (names_and_backups (g :: files))
    with (path_str g :: (path_str g ++ BAK) :: names_and_backups files) in H.
  cbn [map] in H. inversion H as [|? ? H1 H']; subst.
  inversion H' as [|? ? H2 H'']; subst.
  split; [intro E; apply H1; left; exact E|]. split; [|exact H''].
  intros h q Hh Hq. destruct (in_names e files h Hh) as [I1 I2].
  destruct Hq as [-> | ->]; split; intro E.
  - apply H1. right. now rewrite E.
  - apply H1. right. now rewrite E.
  - apply H2. now rewrite E.
  - apply H2. now rewrite E.
Qed.

Lemma distinct_pair (e : env) (files : list path) :
  NoDup (map (file_of e) (names_and_backups files)) ->
  forall f g,
    In f files -> In g files -> f <> g ->
    file_of e (path_str f) <> file_of e (path_str g)
    /\ file_of e (path_str f ++ BAK) <> file_of e (path_str g).
Proof.
  induction files as [|a files IH]; intros Hnd f g Hf Hg Hne; [destruct Hf|].
  destruct (distinct_head e a files Hnd) as (_ & Hrest & Hnd').
  destruct Hf as [<-|Hf]; destruct Hg as [<-|Hg].
  - now destruct Hne.
  - split; [apply (Hrest g _ Hg); now left|apply (Hrest g _ Hg); now right].
  - split; intro E; symmetry in E; revert E;
      apply (Hrest f _ Hf); now left.
  - now apply IH.
Qed.

Lemma names_filter_incl (e : env) (p : path -> bool) (files : list path)
      (q : str) :
  In q (map (file_of e) (names_and_backups (filter p files))) ->
  In q (map (file_of e) (names_and_backups files)).
Proof.
  unfold names_and_backups. intro H.
  apply in_map_iff in H as (x & <- & H). apply in_map.
  apply in_flat_map in H as (f & Hf & H). apply in_flat_map.
  exists f. split; [|exact H]. now apply filter_In in Hf as [Hf _].
Qed.

Lemma distinct_filter (e : env) (p : path -> bool) (files : list path) :
  NoDup (map (file_of e) (names_and_backups files)) ->
  NoDup (map (file_of e) (names_and_backups (filter p files))).
Proof.
  induction files as [|a files IH]; intro H; [constructor|].
  change (names_and_backups (a :: files))
    with (path_str a :: (path_str a ++ BAK) :: names_and_backups files) in H.
  cbn [map] in H. inversion H as [|? ? H1 H']; subst.
  inversion H' as [|? ? H2 H'']; subst.
  cbn [filter]. destruct (p a); [|now apply IH].
  change (names_and_backups (a :: filter p files))
    with (path_str a :: (path_str a ++ BAK)
                     :: names_and_backups (filter p files)).
  cbn [map]. constructor; [|constructor; [|now apply IH]].
  - intros [E|Hin]; [apply H1; now left|].
    apply H1. right. now apply names_filter_incl in Hin.
  - intro Hin. apply H2. now apply names_filter_incl in Hin.
Qed.

(** After one file, its characters are still in the file, or the text
    read from it is in its backup. *)
Lemma replace_keeps_or_backs (e : env) (filepath : path) (st : state) r st' :
  file_of e (path_str filepath ++ BAK) <> file_of e (path_str filepath) ->
  replace_prisma_in_file e filepath st = (r, st') ->
  fs st' (file_of e (path_str filepath)) = fs st (file_of e (path_str filepath))
  \/ exists chars,
      fs st (file_of e (path_str filepath)) = Some chars
      /\ fs st' (file_of e (path_str filepath ++ BAK))
         = Some (universal_newlines chars).
Proof.
  intros Hlink Hrun.
  destruct (fs st (file_of e (path_str filepath))) as [chars|] eqn:Hfs.
  - destruct (already_singleton (universal_newlines chars)) eqn:Ha.
    + rewrite (replace_skipped _ _ _ _ Hfs Ha) in Hrun. injection Hrun as <- <-.
      now left.
    + destruct (str_eqb (transform (calculate_relative_path (cwd e) filepath)
                                   (universal_newlines chars))
                        (universal_newlines chars)) eqn:Ht.
      * apply str_eqb_eq in Ht.
        rewrite (replace_unchanged _ _ _ _ Hfs Ha Ht) in Hrun.
        injection Hrun as <- <-. now left.
      * apply str_eqb_neq in Ht.
        rewrite (replace_changed _ _ _ _ Hfs Ha Ht) in Hrun.
        assert (Hlink' : file_of e (path_str filepath)
                         <> file_of e (path_str filepath ++ BAK)).
        { intro E. now apply Hlink. }
        destruct (write_result e (path_str filepath ++ BAK));
          [destruct (write_result e (path_str filepath))| |];
          injection Hrun as <- <-; cbn [fs].
        -- right. exists chars. split; [reflexivity|].
           rewrite update_other by exact Hlink. apply update_same.
        -- right. exists chars. split; [reflexivity|]. apply update_same.
        -- right. exists chars. split; [reflexivity|].
           rewrite update_other by exact Hlink. apply update_same.
        -- left. exact Hfs.
        -- left. rewrite update_other by exact Hlink'. exact Hfs.
  - rewrite (replace_unreadable _ _ _ Hfs) in Hrun. injection Hrun as <- <-.
    now left.
Qed.

Lemma process_round_trip (e : env) :
  forall files updated_count st r st',
    NoDup (map (file_of e) (names_and_backups files)) ->
    process e files updated_count st = (r, st') ->
    forall f, In f files ->
      fs st' (file_of e (path_str f)) = fs st (file_of e (path_str f))
      \/ exists chars,
          fs st (file_of e (path_str f)) = Some chars
          /\ fs st' (file_of e (path_str f ++ BAK))
             = Some (universal_newlines chars).
Proof.
  induction files as [|g files IH]; intros n st r st' Hnd Hrun f Hf;
    [destruct Hf|].
  destruct (distinct_head e g files Hnd) as (Hlink & Hrest & Hnd').
  cbn [process] in Hrun. unfold bind at 1 in Hrun.
  destruct (replace_prisma_in_file e g st) as [r1 st1] eqn:Hone.
  destruct (replace_effects _ _ _ _ _ Hone) as (_ & _ & _ & Hfs1 & _).
  assert (Hkeep1 : forall h, In h files ->
             fs st1 (file_of e (path_str h)) = fs st (file_of e (path_str h))).
  { intros h Hh. apply Hfs1; intro E; symmetry in E; revert E.
    - apply (Hrest h _ Hh). now left.
    - apply (Hrest h _ Hh). now right. }
  destruct Hf as [<-|Hf].
  - assert (Hkeep : forall q,
               q = file_of e (path_str g) \/ q = file_of e (path_str g ++ BAK) ->
               fs st' q = fs st1 q).
    { intros q Hq. destruct r1 as [b|ex].
      - destruct (process_effects _ _ _ _ _ _ Hrun) as (_ & _ & _ & Hfs2 & _).
        apply Hfs2. intros h Hh. now apply (Hrest h q Hh).
      - now injection Hrun as <- <-. }
    destruct (replace_keeps_or_backs _ _ _ _ _ Hlink Hone) as [H|(chars & H1 & H2)].
    + left. rewrite Hkeep by now left. exact H.
    + right. exists chars. split; [exact H1|].
      rewrite Hkeep by now right. exact H2.
  - destruct r1 as [b|ex].
    + rewrite <- (Hkeep1 f Hf). now apply (IH _ _ _ _ Hnd' Hrun).
    + injection Hrun as <- <-. left. now apply Hkeep1.
Qed.

(** When the names and the backup names of the [*.ts] files of the walk
    all refer to different files, then for each of them, however the
    run ends: the file is as it was, or its backup holds the text that
    was read from it. *)
Theorem main_round_trip (e : env) (st : state) r st' :
  NoDup (map (file_of e) (names_and_backups (rglob_ts e))) ->
  main e st = (r, st') ->
  forall ts_file,
    In ts_file (rglob_ts e) ->
    fs st' (file_of e (path_str ts_file)) = fs st (file_of e (path_str ts_file))
    \/ exists chars,
        fs st (file_of e (path_str ts_file)) = Some chars
        /\ fs st' (file_of e (path_str ts_file ++ BAK))
           = Some (universal_newlines chars).
Proof.
  intros Hnd Hrun ts_file Hin.
  destruct (is_candidate e (fs st) ts_file) eqn:Hc.
  - destruct (root_exists e) eqn:Hroot.
    + rewrite (main_steps e st Hroot) in Hrun.
      destruct (process e (candidates e st) 0 _) as [r2 st2] eqn:Hproc.
      assert (H : fs st2 (file_of e (path_str ts_file))
                  = fs st (file_of e (path_str ts_file))
                  \/ exists chars,
                      fs st (file_of e (path_str ts_file)) = Some chars
                      /\ fs st2 (file_of e (path_str ts_file ++ BAK))
                         = Some (universal_newlines chars)).
      { apply (process_round_trip e _ _ _ _ _
                 (distinct_filter e _ _ Hnd)) with (f := ts_file) in Hproc.
        - exact Hproc.
        - unfold candidates. now apply filter_In. }
      destruct r2 as [n|ex]; injection Hrun as <- <-; exact H.
    + unfold main in Hrun. rewrite Hroot in Hrun. cbn in Hrun.
      injection Hrun as <- <-. now left.
  - left. apply (main_frame e st r st' _ Hrun).
    intros f Hf. unfold candidates in Hf. apply filter_In in Hf as [Hf Hfc].
    apply (distinct_pair e _ Hnd f ts_file Hf Hin). intros ->. congruence.
Qed.

Lemma main_round_trip_witness :
  let e := {| cwd := []; root_exists := true;
              entries := [[lit "a.ts"]; [lit "b.ts"]];
              file_of := fun q => q; write_result := fun _ => WriteOk |} in
  let st := {| fs := fun _ => Some (lit "this.prisma = new PrismaClient();");
               trace := [] |} in
  let p := path_str (root ++ [lit "a.ts"]) in
  fs (snd (main e st)) p = Some (lit "this.prisma = new PrismaClient();")
  \/ fs (snd (main e st)) (p ++ BAK)
     = Some (lit "this.prisma = new PrismaClient();").
Proof.
  intros e st p. destruct (main e st) as [r st'] eqn:Hrun.
  destruct (main_round_trip e st r st') with (ts_file := root ++ [lit "a.ts"])
    as [H|(chars & H1 & H2)].
  - vm_compute. repeat constructor; cbn; intuition discriminate.
  - exact Hrun.
  - left. reflexivity.
  - left. exact H.
  - right. injection H1 as <-. exact H2.
Defined.

(** ** The import path of a file below the root *)

Lemma removelast_last {A : Type} (l : list A) (x : A) :
  removelast (l ++ [x]) = l.
Proof. now rewrite removelast_app, app_nil_r by discriminate. Qed.

Lemma rel_parts_below_root (dirs : list str) :
  (forall d rest, dirs = d :: rest -> d <> lit "lib") ->
  rel_parts (root ++ dirs)
  = repeat (lit "..") (List.length dirs) ++ [lit "lib"; lit "prisma"].
Proof.
  intro H. unfold rel_parts.
  change TARGET with (root ++ [lit "lib"; lit "prisma"]).
  rewrite commonprefix_app.
  assert (E : commonprefix dirs [lit "lib"; lit "prisma"] = []).
  { destruct dirs as [|d rest]; [reflexivity|]. cbn [commonprefix].
    destruct (str_eqb d (lit "lib")) eqn:Ed; [|reflexivity].
    apply str_eqb_eq in Ed. now destruct (H d rest eq_refl). }
  rewrite E, app_nil_r, length_app, skipn_app, skipn_all, Nat.sub_diag.
  now replace (List.length root + List.length dirs - List.length root)
    with (List.length dirs) by lia.
Qed.

Lemma join_dotdot (k : nat) (downs : list str) :
  downs <> [] ->
  join [SLASH] (repeat (lit "..") k ++ downs)
  = List.concat (repeat (lit "../") k) ++ join [SLASH] downs.
Proof.
  intro H. induction k as [|k IH]; [reflexivity|].
  cbn [repeat app List.concat]. rewrite <- app_assoc, <- IH.
  destruct (repeat (lit "..") k ++ downs) eqn:E; [|reflexivity].
  apply app_eq_nil in E as [_ E]. contradiction.
Qed.

(** For a file below the root and not below its [lib] directory, whose
    path below the root is made of plain names, the import path climbs
    one level for each directory between the root and the file and then
    descends to [lib/prisma]; for a file in the root itself it is
    [./lib/prisma].  The working directory plays no part. *)
Theorem relative_path_depth (cwd : path) (dirs : list str) (name : str) :
  plain (dirs ++ [name]) = true ->
  (forall d rest, dirs = d :: rest -> d <> lit "lib") ->
  calculate_relative_path cwd (root ++ dirs ++ [name])
  = match dirs with
    | [] => lit "./lib/prisma"
    | _ => List.concat (repeat (lit "../") (List.length dirs)) ++ lit "lib/prisma"
    end.
Proof.
  intros _ H. rewrite calculate_relative_path_eq. unfold parent.
  rewrite app_assoc, removelast_last, rel_parts_below_root by exact H.
  destruct dirs as [|d rest]; [reflexivity|].
  change (lit "lib/prisma") with (join [SLASH] [lit "lib"; lit "prisma"]).
  rewrite <- join_dotdot by discriminate. cbn [List.length repeat app].
  now destruct (repeat (lit "..") (List.length rest)).
Qed.

Lemma relative_path_depth_witness :
  calculate_relative_path [lit "work"]
    (root ++ [lit "modules"; lit "users"] ++ [lit "service.ts"])
  = lit "../../lib/prisma".
Proof.
  rewrite (relative_path_depth [lit "work"] [lit "modules"; lit "users"]
             (lit "service.ts")).
  - reflexivity.
  - reflexivity.
  - intros d rest E. injection E as <- _. discriminate.
Defined.

(** ** The import path of a file below [lib] *)

Lemma rel_parts_in_lib (rest : list str) :
  (forall d rest', rest = d :: rest' -> d <> lit "prisma") ->
  rel_parts (root ++ lit "lib" :: rest)
  = repeat (lit "..") (List.length rest) ++ [lit "prisma"].
Proof.
  intro H. unfold rel_parts.
  change TARGET with ((root ++ [lit "lib"]) ++ [lit "prisma"]).
  change (root ++ lit "lib" :: rest) with ((root ++ [lit "lib"]) ++ rest).
  rewrite commonprefix_app.
  assert (E : commonprefix rest [lit "prisma"] = []).
  { destruct rest as [|d rest']; [reflexivity|]. cbn [commonprefix].
    destruct (str_eqb d (lit "prisma")) eqn:Ed; [|reflexivity].
    apply str_eqb_eq in Ed. now destruct (H d rest' eq_refl). }
  rewrite E, app_nil_r, length_app, skipn_app, skipn_all, Nat.sub_diag.
  now replace (List.length (root ++ [lit "lib"]) + List.length rest
               - List.length (root ++ [lit "lib"]))
    with (List.length rest) by lia.
Qed.

(** For a file whose path below the root is made of plain names: in
    the [lib] directory of the root the import path is [./prisma]; for
    a file deeper below [lib], and not below [lib/prisma], it climbs one
    level for each directory between [lib] and the file and ends in
    [prisma]. *)
Theorem relative_path_in_lib (cwd : path) (rest : list str) (name : str) :
  plain ((lit "lib" :: rest) ++ [name]) = true ->
  (forall d rest', rest = d :: rest' -> d <> lit "prisma") ->
  calculate_relative_path cwd (root ++ (lit "lib" :: rest) ++ [name])
  = match rest with
    | [] => lit "./prisma"
    | _ => List.concat (repeat (lit "../") (List.length rest)) ++ lit "prisma"
    end.
Proof.
  intros _ H. rewrite calculate_relative_path_eq. unfold parent.
  rewrite app_assoc, removelast_last, rel_parts_in_lib by exact H.
  destruct rest as [|d rest']; [reflexivity|].
  change (lit "prisma") with (join [SLASH] [lit "prisma"]) at 2.
  rewrite <- join_dotdot by discriminate. cbn [List.length repeat app].
  now destruct (repeat (lit "..") (List.length rest')).
Qed.

Lemma relative_path_in_lib_witness :
  calculate_relative_path []
    (root ++ (lit "lib" :: [lit "cache"]) ++ [lit "store.ts"])
  = lit "../prisma".
Proof.
  rewrite (relative_path_in_lib [] [lit "cache"] (lit "store.ts")).
  - reflexivity.
  - reflexivity.
  - intros d rest' E. injection E as <- _. discriminate.
Defined.
(** ** A text with nothing to rewrite *)

Lemma scan_decl_absent :
  forall s bol,
    contains DECL s = false ->
    sub_from re_decl (fun _ => []) None bol s = s.
Proof.
  induction s as [|x s IH]; intros bol H; rewrite scan_decl_eq.
  - destruct (rmatch re_decl bol []) as [[m t]|] eqn:E; [|reflexivity].
    pose proof (rmatch_sound _ _ _ _ _ E) as Hs.
    destruct m; [now apply rmatch_decl_not_empty in E|discriminate Hs].
  - destruct (rmatch re_decl bol (x :: s)) as [[m t]|] eqn:E.
    + exfalso. pose proof (rmatch_sound _ _ _ _ _ E) as Hs.
      apply rmatch_decl_inv in E as (_ & w1 & o & w2 & -> & _).
      rewrite Hs, <- !app_assoc, contains_intro in H. discriminate.
    + apply contains_false_tail in H as [_ H]. f_equal. now apply IH.
Qed.

Lemma transform_no_trigger (rel c : str) :
  contains PRISMA_IMPORT c = false -> contains IMPORT_BRACE c = false ->
  contains DECL c = false ->
  contains FIELD c = false -> contains FALLBACK c = false ->
  transform rel c = c.
Proof.
  intros H1 H2 H3 H4 H5. unfold transform.
  assert (E1 : insert_import rel c = c).
  { unfold insert_import. fold PRISMA_IMPORT IMPORT_BRACE. now rewrite H1, H2. }
  assert (E2 : remove_decl c = c).
  { unfold remove_decl. rewrite re_sub_all. now apply scan_decl_absent. }
  rewrite E1, E2. now apply rewrite_assignments_absent.
Qed.

(** A file that is processed but has none of the five texts the rules
    look for (it constructs its client in some other way and has no
    import the import step accepts) is reported as needing no change:
    nothing is written and no backup is made. *)
Theorem no_trigger_no_change
        (e : env) (filepath : path) (st : state) (chars : str) :
  let content := universal_newlines chars in
  fs st (file_of e (path_str filepath)) = Some chars ->
  already_singleton content = false ->
  contains PRISMA_IMPORT content = false ->
  contains IMPORT_BRACE content = false ->
  contains DECL content = false ->
  contains FIELD content = false ->
  contains FALLBACK content = false ->
  replace_prisma_in_file e filepath st
  = (Ok false,
     {| fs := fs st;
        trace := trace st ++ [EPrint (MProcessing (path_str filepath));
                              ERead (path_str filepath);
                              EPrint MNoChanges] |}).
Proof.
  intros content Hfs Ha H1 H2 H3 H4 H5.
  apply (replace_unchanged e filepath st chars Hfs Ha).
  now apply transform_no_trigger.
Qed.

Lemma no_trigger_no_change_witness :
  let p := root ++ [lit "db.ts"] in
  let content := lit "export const db = new PrismaClient();" in
  let e := {| cwd := []; root_exists := true; entries := [[lit "db.ts"]];
              file_of := fun q => q; write_result := fun _ => WriteOk |} in
  let st := {| fs := fun _ => Some content; trace := [] |} in
  fst (replace_prisma_in_file e p st) = Ok false.
Proof.
  intros p content e st.
  rewrite (no_trigger_no_change e p st content); reflexivity.
Defined.

(** ** A migrated file is recognised *)

Lemma startswith_contains (p s : str) :
  startswith p s = true -> contains p s = true.
Proof. intro H. destruct s; simpl; rewrite H; reflexivity. Qed.

Lemma contains_cons (p : str) (x : char) (s : str) :
  contains p s = true -> contains p (x :: s) = true.
Proof. intro H. simpl. rewrite H. apply orb_true_r. Qed.

Lemma contains_app_l (p a b : str) :
  contains p a = true -> contains p (a ++ b) = true.
Proof.
  intro H. apply contains_inv in H as (u & v & ->).
  rewrite <- !app_assoc. apply contains_intro.
Qed.

Lemma contains_app_r (p a b : str) :
  contains p b = true -> contains p (a ++ b) = true.
Proof.
  intro H. apply contains_inv in H as (u & v & ->).
  rewrite app_assoc. apply contains_intro.
Qed.

Lemma contains_in (p s : str) (ch : char) :
  contains p s = true -> In ch p -> In ch s.
Proof.
  intros H Hin. apply contains_inv in H as (u & v & ->).
  rewrite !in_app_iff. tauto.
Qed.

(** A text without a newline lies within one line. *)
Lemma contains_line (x l t : str) :
  x <> [] -> ~ In NL x ->
  contains x (l ++ NL :: t) = true ->
  contains x l = true \/ contains x t = true.
Proof.
  intros Hne Hnl. induction l as [|c l IH]; intro H.
  - cbn [app] in H. simpl in H. apply orb_true_iff in H as [H|H]; [|now right].
    destruct x as [|y x]; [contradiction|]. simpl in H.
    apply andb_true_iff in H as [H _]. apply N.eqb_eq in H. subst y.
    destruct Hnl. now left.
  - cbn [app] in H. simpl in H. apply orb_true_iff in H as [H|H].
    + change (c :: l ++ NL :: t) with ((c :: l) ++ NL :: t) in H.
      apply startswith_app_cases in H as [H|(a2 & Ha2 & Hx & H)].
      * left. now apply startswith_contains.
      * destruct a2 as [|y a2]; [contradiction|]. simpl in H.
        apply andb_true_iff in H as [H _]. apply N.eqb_eq in H. subst y.
        destruct Hnl. rewrite Hx, in_app_iff. right. now left.
    + destruct (IH H) as [H'|H']; [left; now apply contains_cons|now right].
Qed.

Lemma contains_unlines (x : str) (ls : list str) (r : str) :
  x <> [] -> ~ In NL x ->
  contains x (unlines ls r) = true ->
  (exists l, In l ls /\ contains x l = true) \/ contains x r = true.
Proof.
  intros Hne Hnl. induction ls as [|l ls IH]; intro H; [now right|].
  cbn [unlines] in H. apply contains_line in H as [H|H]; try assumption.
  - left. exists l. split; [now left|exact H].
  - destruct (IH H) as [(l' & Hin & Hc)|Hr]; [|now right].
    left. exists l'. split; [now right|exact Hc].
Qed.

Lemma unlines_contains_line (x l : str) (ls : list str) (r : str) :
  In l ls -> contains x l = true -> contains x (unlines ls r) = true.
Proof.
  induction ls as [|k ls IH]; intros Hin Hc; [destruct Hin|].
  cbn [unlines]. destruct Hin as [->|Hin].
  - now apply contains_app_l.
  - apply contains_app_r, contains_cons. now apply IH.
Qed.

Lemma unlines_contains_rest (x : str) (ls : list str) (r : str) :
  contains x r = true -> contains x (unlines ls r) = true.
Proof. intro H. rewrite unlines_rest. now apply contains_app_r. Qed.

Lemma unlines_split_lines (s : str) : unlines (tlines s) (rest_line s) = s.
Proof.
  unfold tlines, rest_line. induction s as [|c s IH]; [reflexivity|].
  cbn [split_lines]. destruct (split_lines s) as [ls r]. cbn [fst snd] in IH.
  destruct (N.eqb c NL) eqn:E.
  - apply N.eqb_eq in E. subst c. cbn. now rewrite IH.
  - destruct ls as [|l ls]; cbn in *; now rewrite IH.
Qed.

Lemma dropped_only_kept (d : str -> bool) (ls ls' : list str) (l : str) :
  dropped_only d ls ls' -> In l ls -> d l = false -> In l ls'.
Proof.
  induction 1 as [|k ls ls' _ IH|k ls ls' Hk _ IH]; intros Hin Hd.
  - destruct Hin.
  - destruct Hin as [->|Hin]; [now left|right; now apply IH].
  - destruct Hin as [->|Hin]; [congruence|now apply IH].
Qed.

(** A line with a character that is neither whitespace nor part of the
    declaration is neither blank nor a declaration line. *)
Lemma foreign_line (l : str) (ch : char) :
  In ch l -> is_space ch = false -> ~ In ch (DECL ++ [SEMI]) ->
  is_decl_line l || is_blank l = false.
Proof.
  intros Hin Hsp Hd. apply orb_false_iff. split.
  - destruct (is_decl_line l) eqn:E; [|reflexivity]. exfalso.
    destruct (strip_split l) as (w1 & w2 & Hl & Hw1 & Hw2).
    assert (Hblank : forall w, is_blank w = true -> ~ In ch w).
    { intros w Hw F. unfold is_blank in Hw. rewrite forallb_forall in Hw.
      rewrite (Hw _ F) in Hsp. discriminate. }
    rewrite Hl, !in_app_iff in Hin. destruct Hin as [F|[F|F]].
    + now apply (Hblank w1).
    + apply Hd. unfold is_decl_line in E. apply orb_true_iff in E as [E|E];
        apply str_eqb_eq in E; rewrite E in F; [|exact F].
      rewrite in_app_iff. now left.
    + now apply (Hblank w2).
  - destruct (is_blank l) eqn:E; [|reflexivity]. exfalso.
    unfold is_blank in E. rewrite forallb_forall in E.
    rewrite (E _ Hin) in Hsp. discriminate.
Qed.

(** The declaration rule keeps every occurrence of a one-line text that
    has such a character. *)
Lemma remove_decl_keeps (x s : str) (ch : char) :
  ~ In NL x -> In ch x -> is_space ch = false -> ~ In ch (DECL ++ [SEMI]) ->
  contains x s = true -> contains x (remove_decl s) = true.
Proof.
  intros Hnl Hch Hsp Hd H.
  assert (Hne : x <> []) by (intros ->; destruct Hch).
  unfold remove_decl. rewrite re_sub_all.
  destruct (remove_decl_lines (List.length s) s (le_n _)) as (_ & H2 & H3).
  set (out := sub_from re_decl (fun _ => []) None true s) in *.
  rewrite <- (unlines_split_lines out).
  rewrite <- (unlines_split_lines s) in H.
  apply contains_unlines in H as [(l & Hin & Hc)|Hr]; try assumption.
  - apply (unlines_contains_line x l); [|exact Hc].
    apply (dropped_only_kept _ _ _ _ H2 Hin).
    apply (foreign_line l ch); try assumption.
    now apply (contains_in x l ch).
  - apply unlines_contains_rest. now rewrite H3.
Qed.

Lemma already_singleton_known (rel c : str) :
  In rel KNOWN_DEPTHS -> contains (quoted_from rel) c = true ->
  already_singleton c = true.
Proof.
  unfold already_singleton. intros [<-|[<-|[<-|[]]]] H;
    change (contains (lit "from '../lib/prisma'") c = true) in H
    || change (contains (lit "from '../../lib/prisma'") c = true) in H
    || change (contains (lit "from '../../../lib/prisma'") c = true) in H;
    rewrite H, ?orb_true_r; reflexivity.
Qed.

(** When the import step changes the text, the text contains the
    singleton import. *)
Lemma insert_changed (rel c : str) :
  insert_import rel c <> c ->
  exists pre post, insert_import rel c = pre ++ singleton_import rel ++ post.
Proof.
  intro Hne. destruct (contains PRISMA_IMPORT c) eqn:H1.
  - destruct (insert_import_prisma rel c H1) as (pre & post & _ & _ & ->).
    exists (pre ++ PRISMA_IMPORT ++ [NL]), post. now rewrite <- !app_assoc.
  - destruct (contains IMPORT_BRACE c) eqn:H2.
    + destruct (insert_import_first_line rel c H1 H2)
        as [(pre & m & post & _ & _ & _ & ->)|[_ E]]; [|contradiction].
      exists (pre ++ m), ([NL] ++ post). now rewrite <- !app_assoc.
    + exfalso. apply Hne. unfold insert_import. fold PRISMA_IMPORT IMPORT_BRACE.
      now rewrite H1, H2.
Qed.

Lemma singleton_import_quoted (rel : str) :
  singleton_import rel = lit "import { prisma } " ++ quoted_from rel ++ lit ";".
Proof.
  unfold singleton_import, quoted_from.
  change (lit "import { prisma } from '")
    with (lit "import { prisma } " ++ lit "from '").
  change (lit "';") with (lit "'" ++ lit ";").
  now rewrite <- !app_assoc.
Qed.

(** The later steps keep the text the skip test looks for. *)
Lemma import_survives (rel s : str) :
  In rel KNOWN_DEPTHS ->
  contains (quoted_from rel) s = true ->
  contains (quoted_from rel) (rewrite_assignments (remove_decl s)) = true.
Proof.
  intros Hrel H.
  assert (Hkeep : contains (quoted_from rel) (remove_decl s) = true).
  { apply (remove_decl_keeps _ _ 39%N); [| | reflexivity | | exact H];
      destruct Hrel as [<-|[<-|[<-|[]]]]; vm_compute; intuition discriminate. }
  apply contains_inv in Hkeep as (a & b & ->).
  unfold rewrite_assignments.
  rewrite rewrite_field_lsub, lsub_untouched;
    [|apply FIELD_nonempty
     |destruct Hrel as [<-|[<-|[<-|[]]]]; vm_compute; reflexivity
     |destruct Hrel as [<-|[<-|[<-|[]]]]; vm_compute; reflexivity].
  rewrite rewrite_fallback_lsub, lsub_untouched;
    [|apply FALLBACK_nonempty
     |destruct Hrel as [<-|[<-|[<-|[]]]]; vm_compute; reflexivity
     |destruct Hrel as [<-|[<-|[<-|[]]]]; vm_compute; reflexivity].
  apply contains_intro.
Qed.

(** When the import path is one the skip test knows and the import step
    has inserted the singleton import, the transformed text passes the
    skip test: the declaration rule and the assignment rules leave the
    inserted import in place. *)
Theorem migrated_text_recognised (rel c : str) :
  In rel KNOWN_DEPTHS ->
  insert_import rel c <> c ->
  already_singleton (transform rel c) = true.
Proof.
  intros Hrel Hne. apply (already_singleton_known rel); [exact Hrel|].
  destruct (insert_changed rel c Hne) as (pre & post & E).
  unfold transform. fold (rewrite_assignments (remove_decl (insert_import rel c))).
  apply import_survives; [exact Hrel|].
  rewrite E, singleton_import_quoted, <- !app_assoc, app_assoc.
  apply contains_intro.
Qed.

Lemma migrated_text_recognised_witness :
  already_singleton
    (transform (lit "../lib/prisma")
               (lit "import { PrismaClient } from '@prisma/client';"))
  = true.
Proof.
  apply (migrated_text_recognised (lit "../lib/prisma")).
  - left. reflexivity.
  - vm_compute. discriminate.
Defined.


(** ** Processing an updated file again *)

Lemma relative_path_known (cwd : path) (dirs : list str) (name : str) :
  1 <= List.length dirs <= 3 ->
  (forall d rest, dirs = d :: rest -> d <> lit "lib") ->
  In (calculate_relative_path cwd (root ++ dirs ++ [name])) KNOWN_DEPTHS.
Proof.
  intros Hlen H. rewrite calculate_relative_path_eq. unfold parent.
  rewrite app_assoc, removelast_last, rel_parts_below_root by exact H.
  destruct dirs as [|d1 [|d2 [|d3 [|d4 rest]]]]; cbn [List.length] in *;
    try lia.
  - left. reflexivity.
  - right. left. reflexivity.
  - right. right. left. reflexivity.
Qed.

(** The text the skip test looks for has no line end in it, so reading
    the file again finds it. *)
Lemma quoted_read_again (rel s : str) :
  In rel KNOWN_DEPTHS ->
  contains (quoted_from rel) s = true ->
  contains (quoted_from rel) (universal_newlines s) = true.
Proof.
  intros Hrel. apply contains_universal_newlines;
    destruct Hrel as [<-|[<-|[<-|[]]]]; vm_compute; intuition discriminate.
Qed.

(** A file one to three directories below the root, with plain names
    and not below its [lib] directory, that has been updated with the
    singleton import inserted is skipped when it is processed again: the
    second call reads it, writes nothing and returns [False]. *)
Theorem second_call_skips
        (e : env) (dirs : list str) (name : str) (st st1 : state)
        (chars : str) :
  let filepath := root ++ dirs ++ [name] in
  let content := universal_newlines chars in
  plain (dirs ++ [name]) = true ->
  1 <= List.length dirs <= 3 ->
  (forall d rest, dirs = d :: rest -> d <> lit "lib") ->
  fs st (file_of e (path_str filepath)) = Some chars ->
  insert_import (calculate_relative_path (cwd e) filepath) content <> content ->
  replace_prisma_in_file e filepath st = (Ok true, st1) ->
  replace_prisma_in_file e filepath st1
  = (Ok false,
     {| fs := fs st1;
        trace := trace st1 ++ [EPrint (MProcessing (path_str filepath));
                               ERead (path_str filepath);
                               EPrint MAlreadySingleton] |}).
Proof.
  intros filepath content _ Hlen Hlib Hfs Hins Hrun.
  pose proof (relative_path_known (cwd e) dirs name Hlen Hlib) as Hrel.
  fold filepath in Hrel.
  set (rel := calculate_relative_path (cwd e) filepath) in *.
  assert (Hskip : already_singleton (universal_newlines (transform rel content))
                  = true).
  { apply (already_singleton_known rel); [exact Hrel|].
    apply quoted_read_again; [exact Hrel|].
    destruct (insert_changed rel content Hins) as (pre & post & E).
    unfold transform.
    fold (rewrite_assignments (remove_decl (insert_import rel content))).
    apply import_survives; [exact Hrel|].
    rewrite E, singleton_import_quoted, <- !app_assoc, app_assoc.
    apply contains_intro. }
  apply (replace_skipped e filepath st1 (transform rel content)); [|exact Hskip].
  destruct (already_singleton content) eqn:Ha.
  - rewrite (replace_skipped _ _ _ _ Hfs Ha) in Hrun. discriminate.
  - destruct (str_eqb (transform rel content) content) eqn:Ht.
    + apply str_eqb_eq in Ht.
      rewrite (replace_unchanged _ _ _ _ Hfs Ha Ht) in Hrun. discriminate.
    + apply str_eqb_neq in Ht.
      rewrite (replace_changed _ _ _ _ Hfs Ha Ht) in Hrun.
      destruct (write_result e (path_str filepath ++ BAK));
        [destruct (write_result e (path_str filepath))| |]; try discriminate.
      injection Hrun as <-. cbn [fs]. apply update_same.
Qed.

Lemma second_call_skips_witness :
  let e := {| cwd := []; root_exists := true;
              entries := [[lit "services"; lit "foo.ts"]];
              file_of := fun q => q; write_result := fun _ => WriteOk |} in
  let filepath := root ++ [lit "services"] ++ [lit "foo.ts"] in
  let chars := lit "import { PrismaClient } from '@prisma/client';" in
  let st := {| fs := fun _ => Some chars; trace := [] |} in
  fst (replace_prisma_in_file e filepath
         (snd (replace_prisma_in_file e filepath st)))
  = Ok false.
Proof.
  intros e filepath chars st. unfold filepath.
  destruct (replace_prisma_in_file e _ st) as [r st1] eqn:Hrun.
  assert (Hr : r = Ok true).
  { change r with (fst (r, st1)). rewrite <- Hrun. vm_compute. reflexivity. }
  subst r. cbn [snd].
  rewrite (second_call_skips e [lit "services"] (lit "foo.ts") st st1 chars).
  - reflexivity.
  - reflexivity.
  - cbn. lia.
  - intros d rest E. injection E as <- _. discriminate.
  - reflexivity.
  - vm_compute. discriminate.
  - exact Hrun.
Defined.

(** ** What a run leaves in the files *)

Lemma replace_ok_result (e : env) (filepath : path) (st : state) b st1 :
  file_of e (path_str filepath ++ BAK) <> file_of e (path_str filepath) ->
  replace_prisma_in_file e filepath st = (Ok b, st1) ->
  exists chars,
    fs st (file_of e (path_str filepath)) = Some chars
    /\ b = negb (str_eqb (final_text e filepath (universal_newlines chars))
                         (universal_newlines chars))
    /\ (b = false -> fs st1 = fs st)
    /\ (b = true ->
        fs st1 (file_of e (path_str filepath))
        = Some (final_text e filepath (universal_newlines chars))
        /\ fs st1 (file_of e (path_str filepath ++ BAK))
           = Some (universal_newlines chars)).
Proof.
  intros Hlink Hrun. unfold final_text.
  destruct (fs st (file_of e (path_str filepath))) as [chars|] eqn:Hfs.
  - exists chars. split; [reflexivity|].
    destruct (already_singleton (universal_newlines chars)) eqn:Ha.
    + rewrite (replace_skipped _ _ _ _ Hfs Ha) in Hrun.
      injection Hrun as <- <-. cbn [fs]. rewrite str_eqb_refl.
      repeat split; discriminate.
    + destruct (str_eqb (transform (calculate_relative_path (cwd e) filepath)
                                   (universal_newlines chars))
                        (universal_newlines chars)) eqn:Ht.
      * apply str_eqb_eq in Ht.
        rewrite (replace_unchanged _ _ _ _ Hfs Ha Ht) in Hrun.
        injection Hrun as <- <-. cbn [fs].
        repeat split; discriminate.
      * apply str_eqb_neq in Ht.
        rewrite (replace_changed _ _ _ _ Hfs Ha Ht) in Hrun.
        destruct (write_result e (path_str filepath ++ BAK));
          [destruct (write_result e (path_str filepath))| |]; try discriminate.
        injection Hrun as <- <-. cbn [fs].
        split; [reflexivity|]. split; [discriminate|]. intros _. split.
        -- apply update_same.
        -- rewrite update_other by exact Hlink. apply update_same.
  - rewrite (replace_unreadable _ _ _ Hfs) in Hrun. discriminate.
Qed.

Lemma will_update_ext (e : env) (f1 f2 : str -> option str) (h : path) :
  f1 (file_of e (path_str h)) = f2 (file_of e (path_str h)) ->
  will_update e f1 h = will_update e f2 h.
Proof. intro H. unfold will_update. now rewrite H. Qed.

Lemma filter_ext_in_local {A : Type} (p q : A -> bool) (l : list A) :
  (forall x, In x l -> p x = q x) -> filter p l = filter q l.
Proof.
  induction l as [|x l IH]; intro H; [reflexivity|]. cbn [filter].
  rewrite (H x (or_introl eq_refl)), IH; [reflexivity|].
  intros y Hy. apply H. now right.
Qed.

Lemma process_result (e : env) :
  forall files updated_count st n st',
    NoDup (map (file_of e) (names_and_backups files)) ->
    process e files updated_count st = (Ok n, st') ->
    n = updated_count + List.length (filter (will_update e (fs st)) files)
    /\ forall f chars,
        In f files -> fs st (file_of e (path_str f)) = Some chars ->
        (will_update e (fs st) f = false ->
         fs st' (file_of e (path_str f)) = Some chars)
        /\ (will_update e (fs st) f = true ->
            fs st' (file_of e (path_str f))
            = Some (final_text e f (universal_newlines chars))
            /\ fs st' (file_of e (path_str f ++ BAK))
               = Some (universal_newlines chars)).
Proof.
  induction files as [|g files IH]; intros n0 st n st' Hnd Hrun.
  - cbn in Hrun. injection Hrun as <- <-. split; [cbn; lia|]. intros f c [].
  - destruct (distinct_head e g files Hnd) as (Hlink & Hrest & Hnd').
    cbn [process] in Hrun. unfold bind at 1 in Hrun.
    destruct (replace_prisma_in_file e g st) as [[b|ex] st1] eqn:Hone;
      [|discriminate].
    destruct (replace_ok_result _ _ _ _ _ Hlink Hone) as (c & Hc & Hb & Hb0 & Hb1).
    destruct (replace_effects _ _ _ _ _ Hone) as (_ & _ & _ & Hfs1 & _).
    assert (Hkeep1 : forall h, In h files ->
               fs st1 (file_of e (path_str h)) = fs st (file_of e (path_str h))).
    { intros h Hh. apply Hfs1; intro E; symmetry in E; revert E.
      - apply (Hrest h _ Hh). now left.
      - apply (Hrest h _ Hh). now right. }
    assert (Hhead : forall q,
               q = file_of e (path_str g) \/ q = file_of e (path_str g ++ BAK) ->
               fs st' q = fs st1 q).
    { intros q Hq.
      destruct (process_effects _ _ _ _ _ _ Hrun) as (_ & _ & _ & Hfs2 & _).
      apply Hfs2. intros h Hh. now apply (Hrest h q Hh). }
    destruct (IH _ _ _ _ Hnd' Hrun) as (Hn & Hfiles).
    assert (Hwu : will_update e (fs st) g = b).
    { unfold will_update. now rewrite Hc, Hb. }
    split.
    + rewrite Hn. cbn [filter]. rewrite Hwu.
      rewrite (filter_ext_in_local (will_update e (fs st1)) (will_update e (fs st))).
      * destruct b; cbn [List.length]; lia.
      * intros h Hh. apply will_update_ext. now apply Hkeep1.
    + intros f chars [<-|Hf] Hfc.
      * rewrite Hc in Hfc. injection Hfc as <-. rewrite Hwu. split.
        -- intro Hu. rewrite Hhead by now left. rewrite (Hb0 Hu). exact Hc.
        -- intro Hu. destruct (Hb1 Hu) as [K1 K2].
           rewrite !Hhead by (now left + now right). now split.
      * rewrite <- (Hkeep1 f Hf) in Hfc.
        rewrite (will_update_ext e (fs st) (fs st1))
          by (symmetry; now apply Hkeep1).
        now apply Hfiles.
Qed.

(** After a run that ends normally, when the names and the backup names
    of the [*.ts] files of the walk all refer to different files: a
    candidate whose text as read already imports the singleton, or is
    not changed by the transformation, is as it was; every other
    candidate holds the transformed text, and its backup holds the text
    that was read from it. *)
Theorem main_final_texts (e : env) (st st' : state) :
  NoDup (map (file_of e) (names_and_backups (rglob_ts e))) ->
  main e st = (Ok tt, st') ->
  forall f chars,
    In f (candidates e st) ->
    fs st (file_of e (path_str f)) = Some chars ->
    let content := universal_newlines chars in
    (final_text e f content = content ->
     fs st' (file_of e (path_str f)) = Some chars)
    /\ (final_text e f content <> content ->
        fs st' (file_of e (path_str f)) = Some (final_text e f content)
        /\ fs st' (file_of e (path_str f ++ BAK)) = Some content).
Proof.
  intros Hnd Hrun f chars Hf Hfc content. subst content.
  destruct (root_exists e) eqn:Hroot.
  - rewrite (main_steps e st Hroot) in Hrun.
    destruct (process e (candidates e st) 0 _) as [[n|ex] st2] eqn:Hproc;
      [|discriminate].
    injection Hrun as <-. cbn [fs].
    destruct (process_result e _ _ _ _ _ (distinct_filter e _ _ Hnd) Hproc)
      as (_ & Hfiles).
    cbn [fs] in Hfiles. destruct (Hfiles f chars Hf Hfc) as [H1 H2].
    split; intro Hx.
    + apply H1. unfold will_update. rewrite Hfc, Hx.
      now rewrite str_eqb_refl.
    + apply H2. unfold will_update. rewrite Hfc.
      apply str_eqb_neq in Hx. now rewrite Hx.
  - unfold main in Hrun. rewrite Hroot in Hrun. discriminate.
Qed.

Lemma main_final_texts_witness :
  let e := {| cwd := []; root_exists := true;
              entries := [[lit "a.ts"]];
              file_of := fun q => q; write_result := fun _ => WriteOk |} in
  let st := {| fs := fun _ => Some (lit "this.prisma = new PrismaClient();");
               trace := [] |} in
  fs (snd (main e st)) (path_str (root ++ [lit "a.ts"]))
  = Some (lit "this.prisma = prisma;").
Proof.
  intros e st. destruct (main e st) as [r st'] eqn:Hrun.
  assert (Hr : r = Ok tt).
  { change r with (fst (r, st')). rewrite <- Hrun. vm_compute. reflexivity. }
  subst r. cbn [snd].
  destruct (main_final_texts e st st') with
    (f := root ++ [lit "a.ts"]) (chars := lit "this.prisma = new PrismaClient();")
    as [_ H].
  - vm_compute. repeat constructor; cbn; intuition discriminate.
  - exact Hrun.
  - left. reflexivity.
  - reflexivity.
  - destruct H as [H _]; [vm_compute; discriminate|]. exact H.
Defined.

(** After a run that ends normally, when the names and the backup names
    of the [*.ts] files of the walk all refer to different files, the
    number reported as updated is the number of candidates whose text as
    read does not already import the singleton and is changed by the
    transformation. *)
Theorem main_updated_count (e : env) (st st' : state) :
  NoDup (map (file_of e) (names_and_backups (rglob_ts e))) ->
  main e st = (Ok tt, st') ->
  exists evs,
    trace st'
    = trace st ++ evs
        ++ [EPrint (MComplete
                      (List.length (filter (will_update e (fs st)) (candidates e st)))
                      (List.length (candidates e st)));
            EPrint MBackupNote].
Proof.
  intros Hnd Hrun.
  destruct (root_exists e) eqn:Hroot.
  - rewrite (main_steps e st Hroot) in Hrun.
    destruct (process e (candidates e st) 0 _) as [[n|ex] st2] eqn:Hproc;
      [|discriminate].
    injection Hrun as <-. cbn [trace].
    destruct (process_result e _ _ _ _ _ (distinct_filter e _ _ Hnd) Hproc)
      as (Hn & _).
    cbn [fs] in Hn. cbn [Nat.add] in Hn. subst n.
    destruct (process_trace _ _ _ _ _ _ Hproc) as (evs2 & Ht2 & _).
    cbn [trace] in Ht2.
    exists (discover_events e (fs st) (rglob_ts e)
              ++ [EPrint (MFound (List.length (candidates e st)))] ++ evs2).
    rewrite Ht2. now rewrite <- !app_assoc.
  - unfold main in Hrun. rewrite Hroot in Hrun. discriminate.
Qed.

Lemma main_updated_count_witness :
  let e := {| cwd := []; root_exists := true;
              entries := [[lit "a.ts"]; [lit "b.ts"]];
              file_of := fun q => q; write_result := fun _ => WriteOk |} in
  let st := {| fs := fun q => if str_eqb q (path_str (root ++ [lit "a.ts"]))
                              then Some (lit "this.prisma = new PrismaClient();")
                              else Some (lit "const db = new PrismaClient();");
               trace := [] |} in
  exists evs,
    trace (snd (main e st))
    = evs ++ [EPrint (MComplete 1 2); EPrint MBackupNote].
Proof.
  intros e st. destruct (main e st) as [r st'] eqn:Hrun.
  assert (Hr : r = Ok tt).
  { change r with (fst (r, st')). rewrite <- Hrun. vm_compute. reflexivity. }
  subst r. cbn [snd].
  destruct (main_updated_count e st st') as (evs & H).
  - vm_compute. repeat constructor; cbn; intuition discriminate.
  - exact Hrun.
  - exists evs. rewrite H. reflexivity.
Defined.

(** ** A run stopped by a failed read or write *)

Lemma count_processing_app (a b : list event) :
  count_processing (a ++ b) = count_processing a + count_processing b.
Proof. unfold count_processing. now rewrite filter_app, length_app. Qed.

Lemma count_processing_none (evs : list event) :
  Forall (fun ev => is_processing ev = false) evs -> count_processing evs = 0.
Proof.
  unfold count_processing. induction 1 as [|ev evs H _ IH]; [reflexivity|].
  cbn. now rewrite H.
Qed.

(** One file is announced once, before anything else happens to it. *)
Lemma replace_shape (e : env) (filepath : path) (st : state) r st' :
  replace_prisma_in_file e filepath st = (r, st') ->
  exists tail,
    trace st' = trace st ++ EPrint (MProcessing (path_str filepath)) :: tail
    /\ Forall (fun ev => is_processing ev = false) tail.
Proof.
  intro Hrun.
  destruct (fs st (file_of e (path_str filepath))) as [chars|] eqn:Hfs.
  - destruct (already_singleton (universal_newlines chars)) eqn:Ha.
    + rewrite (replace_skipped _ _ _ _ Hfs Ha) in Hrun. injection Hrun as <- <-.
      eexists. split; [reflexivity|]. repeat constructor.
    + destruct (str_eqb (transform (calculate_relative_path (cwd e) filepath)
                                   (universal_newlines chars))
                        (universal_newlines chars)) eqn:Ht.
      * apply str_eqb_eq in Ht.
        rewrite (replace_unchanged _ _ _ _ Hfs Ha Ht) in Hrun.
        injection Hrun as <- <-.
        eexists. split; [reflexivity|]. repeat constructor.
      * apply str_eqb_neq in Ht.
        rewrite (replace_changed _ _ _ _ Hfs Ha Ht) in Hrun.
        destruct (write_result e (path_str filepath ++ BAK));
          [destruct (write_result e (path_str filepath))| |];
          injection Hrun as <- <-; (eexists; split; [reflexivity|]);
          repeat constructor.
  - rewrite (replace_unreadable _ _ _ Hfs) in Hrun. injection Hrun as <- <-.
    eexists. split; [reflexivity|]. repeat constructor.
Qed.

Lemma process_stopped (e : env) :
  forall files updated_count st ex st',
    NoDup (map (file_of e) (names_and_backups files)) ->
    process e files updated_count st = (Raise ex, st') ->
    exists done f todo evs tail,
      files = done ++ f :: todo
      /\ trace st' = trace st ++ evs ++ EPrint (MProcessing (path_str f)) :: tail
      /\ count_processing evs = List.length done
      /\ Forall (fun ev => is_processing ev = false) tail
      /\ (forall g, In g todo ->
            fs st' (file_of e (path_str g)) = fs st (file_of e (path_str g))
            /\ fs st' (file_of e (path_str g ++ BAK))
               = fs st (file_of e (path_str g ++ BAK)))
      /\ (fs st' (file_of e (path_str f)) = fs st (file_of e (path_str f))
          \/ exists chars,
              fs st (file_of e (path_str f)) = Some chars
              /\ fs st' (file_of e (path_str f ++ BAK))
                 = Some (universal_newlines chars)).
Proof.
  induction files as [|g0 files IH]; intros n st ex st' Hnd Hrun;
    [discriminate|].
  destruct (distinct_head e g0 files Hnd) as (Hlink & Hrest & Hnd').
  cbn [process] in Hrun. unfold bind at 1 in Hrun.
  destruct (replace_prisma_in_file e g0 st) as [r1 st1] eqn:Hone.
  destruct (replace_effects _ _ _ _ _ Hone) as (_ & _ & _ & Hfs1 & _).
  destruct (replace_shape _ _ _ _ _ Hone) as (tail1 & Ht1 & Hp1).
  assert (Hkeep1 : forall h, In h files ->
             fs st1 (file_of e (path_str h)) = fs st (file_of e (path_str h))
             /\ fs st1 (file_of e (path_str h ++ BAK))
                = fs st (file_of e (path_str h ++ BAK))).
  { intros h Hh. split; apply Hfs1; intro E; symmetry in E; revert E;
      apply (Hrest h _ Hh); (now left) || (now right). }
  destruct r1 as [b|ex1].
  - destruct (IH _ _ _ _ Hnd' Hrun)
      as (done & f & todo & evs & tail & -> & Ht & Hc & Hp & Htodo & Hf).
    exists (g0 :: done), f, todo,
           (EPrint (MProcessing (path_str g0)) :: tail1 ++ evs), tail.
    split; [reflexivity|]. split.
    { rewrite Ht, Ht1. cbn [app]. now rewrite <- !app_assoc. }
    split.
    { change (EPrint (MProcessing (path_str g0)) :: tail1 ++ evs)
        with ([EPrint (MProcessing (path_str g0))] ++ tail1 ++ evs).
      rewrite !count_processing_app, Hc, (count_processing_none tail1 Hp1).
      reflexivity. }
    split; [exact Hp|]. split.
    + intros g Hg. destruct (Htodo g Hg) as [K1 K2].
      destruct (Hkeep1 g) as [L1 L2]; [apply in_or_app; right; now right|].
      split; congruence.
    + destruct (Hkeep1 f) as [L1 _]; [apply in_or_app; right; now left|].
      destruct Hf as [Hf|(chars & Hf1 & Hf2)].
      * left. congruence.
      * right. exists chars. split; [congruence|exact Hf2].
  - injection Hrun as <- <-. exists [], g0, files, [], tail1.
    split; [reflexivity|]. split; [exact Ht1|]. split; [reflexivity|].
    split; [exact Hp1|]. split.
    + intros g Hg. now apply Hkeep1.
    + exact (replace_keeps_or_backs _ _ _ _ _ Hlink Hone).
Qed.

Lemma discover_events_announce (e : env) (files : str -> option str)
      (todo : list path) :
  Forall (fun ev => is_processing ev = false) (discover_events e files todo).
Proof.
  unfold discover_events. induction todo as [|f todo IH]; [constructor|].
  cbn [flat_map]. apply Forall_app. split; [|exact IH].
  destruct (excluded f); [constructor|].
  destruct (files (file_of e (path_str f))); repeat constructor.
Qed.

(** When a failed read or write stops the run, and the names and the
    backup names of the [*.ts] files of the walk all refer to different
    files: the run stopped at the candidate it announced last, having
    announced as many files before it as there are candidates before it;
    the candidates after it and their backups are as they were; and the
    candidate at which it stopped is as it was, or its backup holds the
    text that was read from it. *)
Theorem main_stopped_run (e : env) (st st' : state) :
  NoDup (map (file_of e) (names_and_backups (rglob_ts e))) ->
  main e st = (Raise OSError, st') ->
  exists done f todo evs tail,
    candidates e st = done ++ f :: todo
    /\ trace st' = trace st ++ evs ++ EPrint (MProcessing (path_str f)) :: tail
    /\ count_processing evs = List.length done
    /\ (forall q, ~ In (EPrint (MProcessing q)) tail)
    /\ (forall g, In g todo ->
          fs st' (file_of e (path_str g)) = fs st (file_of e (path_str g))
          /\ fs st' (file_of e (path_str g ++ BAK))
             = fs st (file_of e (path_str g ++ BAK)))
    /\ (fs st' (file_of e (path_str f)) = fs st (file_of e (path_str f))
        \/ exists chars,
            fs st (file_of e (path_str f)) = Some chars
            /\ fs st' (file_of e (path_str f ++ BAK))
               = Some (universal_newlines chars)).
Proof.
  intros Hnd Hrun.
  destruct (root_exists e) eqn:Hroot.
  - rewrite (main_steps e st Hroot) in Hrun.
    destruct (process e (candidates e st) 0 _) as [[n|ex] st2] eqn:Hproc;
      [discriminate|].
    injection Hrun as _ <-.
    destruct (process_stopped e _ _ _ _ _ (distinct_filter e _ _ Hnd) Hproc)
      as (done & f & todo & evs & tail & Hc & Ht & Hn & Hp & Htodo & Hf).
    cbn [fs trace] in Ht, Htodo, Hf.
    exists done, f, todo,
           (discover_events e (fs st) (rglob_ts e)
              ++ [EPrint (MFound (List.length (candidates e st)))] ++ evs), tail.
    split; [exact Hc|]. split; [rewrite Ht; now rewrite <- !app_assoc|].
    split.
    { rewrite !count_processing_app, Hn,
        (count_processing_none _ (discover_events_announce e (fs st) (rglob_ts e))).
      reflexivity. }
    split; [|split; [exact Htodo|exact Hf]].
    intros q Hin. rewrite Forall_forall in Hp. now specialize (Hp _ Hin).
  - unfold main in Hrun. rewrite Hroot in Hrun. discriminate.
Qed.

Lemma main_stopped_run_witness :
  let a := path_str (root ++ [lit "a.ts"]) in
  let e := {| cwd := []; root_exists := true;
              entries := [[lit "a.ts"]; [lit "b.ts"]];
              file_of := fun q => q;
              write_result := fun q => if str_eqb q a then WriteFails 4
                                       else WriteOk |} in
  let st := {| fs := fun _ => Some (lit "this.prisma = new PrismaClient();");
               trace := [] |} in
  fs (snd (main e st)) a = Some (lit "this")
  /\ exists done f todo,
      candidates e st = done ++ f :: todo
      /\ forall g, In g todo ->
                   fs (snd (main e st)) (path_str g) = fs st (path_str g).
Proof.
  intros a e st. split; [vm_compute; reflexivity|].
  destruct (main e st) as [r st'] eqn:Hrun.
  assert (Hr : r = Raise OSError).
  { change r with (fst (r, st')). rewrite <- Hrun. vm_compute. reflexivity. }
  subst r. cbn [snd].
  destruct (main_stopped_run e st st')
    as (done & f & todo & _ & _ & Hc & _ & _ & _ & Htodo & _).
  - vm_compute. repeat constructor; cbn; intuition discriminate.
  - exact Hrun.
  - exists done, f, todo. split; [exact Hc|].
    intros g Hg. exact (proj1 (Htodo g Hg)).
Defined.
